(** * statSTR: per-locus statistics on tandem-repeat calls

    A shallow embedding of [trtools/statSTR/statSTR.py] and the properties
    of its row pipeline: header and row assembly, the formatting of float
    fields, the allele-frequency tables, the plot counter, the sample-group
    list shared between [main] and the statistic computers, and the
    configuration checks made before the first locus is read.

    Python values are modelled as follows.
    - [int] is [Z]; [str] is [string]; a [list] is a [list]; a [dict] is a
      [gmap] (the code sorts the keys, sums the values or hands the
      dictionary on to a collaborator, so the
      insertion order of the dictionary is never observed).
    - A [float] is [pyfloat]: not-a-number, an infinity, or a sign and the
      exact rational value of a finite float.
    - An exception is the [Raise] case of [result]; statements that write,
      plot or mutate run in the monad [M] over the state [St].
    - The list object [sample_lists] of [main] is passed by reference to
      every statistic computer; each computer therefore returns, next to
      its value, the contents of that list object when it returns. *)

From Stdlib Require Import ZArith NArith Ascii String Lia.
From stdpp Require Import base option list gmap strings sorting.

Local Open Scope Z_scope.

(** ** Exceptions and results *)

Inductive exn : Type :=
  | ValueError (msg : string)
  | IndexError (msg : string)
  | KeyError (msg : string)
  | OSError (msg : string)
  | External (msg : string).

Inductive result (A : Type) : Type :=
  | Ok (a : A)
  | Raise (e : exn).
Arguments Ok {A} a.
Arguments Raise {A} e.

Definition result_bind {A B} (r : result A) (k : A → result B) : result B :=
  match r with
  | Ok a => k a
  | Raise e => Raise e
  end.

(** ** Strings *)

(** A [string] stands for a [str] as the sequence of its code points: the
    character [ascii_of_nat n] is the code point [n], for [n] from 0 to 255.
    Text with code points beyond 255 has no counterpart here. *)

Definition TAB : string := String (ascii_of_nat 9) EmptyString.
Definition NL : string := String (ascii_of_nat 10) EmptyString.

(** [sep.join(l)] *)
Fixpoint join (sep : string) (l : list string) : string :=
  match l with
  | [] => ""
  | [x] => x
  | x :: xs => x +:+ sep +:+ join sep xs
  end.

(** [s.split(c)] for a one-character separator: never the empty list. *)
Fixpoint split (c : ascii) (s : string) : list string :=
  match s with
  | EmptyString => [EmptyString]
  | String a s' =>
      if Ascii.eqb a c then EmptyString :: split c s'
      else match split c s' with
           | [] => [String a EmptyString]
           | w :: ws => String a w :: ws
           end
  end.

Definition COMMA : ascii := ascii_of_nat 44.

(** The characters [str.strip()] removes: the white space of Unicode among
    the code points 0 to 255, which is the ASCII white space 9 to 13 and 28
    to 32, the next-line control U+0085 and the no-break space U+00A0. *)
Definition is_space (a : ascii) : bool :=
  let n := nat_of_ascii a in
  ((9 <=? n)%nat && (n <=? 13)%nat) || ((28 <=? n)%nat && (n <=? 32)%nat) ||
  (n =? 133)%nat || (n =? 160)%nat.

Fixpoint lstrip (s : string) : string :=
  match s with
  | EmptyString => EmptyString
  | String a s' => if is_space a then lstrip s' else s
  end.

Fixpoint rstrip (s : string) : string :=
  match s with
  | EmptyString => EmptyString
  | String a s' =>
      match rstrip s' with
      | EmptyString => if is_space a then EmptyString else String a EmptyString
      | r => String a r
      end
  end.

Definition strip (s : string) : string := rstrip (lstrip s).

(** [s.endswith(suffix)] *)
Definition endswith (s suffix : string) : bool :=
  let n := String.length s in
  let k := String.length suffix in
  if (k <=? n)%nat then String.eqb (String.substring (n - k) k s) suffix
  else false.

(** Truth value of an optional string argument: [None] and [""] are false. *)
Definition truthy (o : option string) : bool :=
  match o with
  | Some s => negb (String.eqb s "")
  | None => false
  end.

(** ** Decimal numerals *)

Definition digit_char (d : N) : ascii := ascii_of_N (48 + d).

Fixpoint digits_go (fuel : nat) (n : N) (acc : string) : string :=
  match fuel with
  | O => acc
  | S f =>
      let acc' := String (digit_char (n mod 10)) acc in
      if (n <? 10)%N then acc' else digits_go f (n / 10) acc'
  end.

(** The decimal numeral of [n], without leading zeros ("0" for zero).
    A number has no more decimal than binary digits, so the fuel suffices. *)
Definition str_N (n : N) : string :=
  digits_go (S (N.to_nat (N.log2 n))) n "".

(** [str(z)] and ["%i" % z] for an [int]. *)
Definition str_int (z : Z) : string :=
  if z <? 0 then "-" +:+ str_N (Z.abs_N z) else str_N (Z.abs_N z).

Fixpoint zeros (k : nat) : string :=
  match k with
  | O => ""
  | S k' => String "0" (zeros k')
  end.

(** [n] written with at least [width] digits, padded on the left with 0. *)
Definition pad_N (width : nat) (n : N) : string :=
  let s := str_N n in
  zeros (width - String.length s) +:+ s.

(** A numeral with its trailing zeros removed, keeping one digit. *)
Fixpoint strip_zeros (s : string) : string :=
  match s with
  | EmptyString => EmptyString
  | String a s' =>
      match strip_zeros s' with
      | EmptyString => if Ascii.eqb a "0" then EmptyString else String a EmptyString
      | r => String a r
      end
  end.

Definition digits_of (n : N) : string :=
  match strip_zeros (str_N n) with
  | EmptyString => "0"
  | r => r
  end.

(** ** Floats *)

(** A Python float: [FFin neg num den] is the finite value
    [(-1)^neg * num / den]. *)
Inductive pyfloat : Type :=
  | FNan
  | FInf (neg : bool)
  | FFin (neg : bool) (num : N) (den : positive).

(** [np.isnan] *)
Definition isnan (v : pyfloat) : bool :=
  match v with FNan => true | _ => false end.

(** [n / d] rounded to the nearest integer, ties to even: the rounding of
    the float-to-decimal conversion, which works on the exact value. *)
Definition round_half_even (n d : N) : N :=
  let q := (n / d)%N in
  let r := (n mod d)%N in
  if (2 * r <? d)%N then q
  else if (d <? 2 * r)%N then (q + 1)%N
  else if N.even q then q else (q + 1)%N.

(** [n / d / 10^e] rounded to an integer, for an exponent of either sign. *)
Definition round_at (n : N) (d : positive) (e : Z) : N :=
  if 0 <=? e then round_half_even n (Npos d * 10 ^ Z.to_N e)
  else round_half_even (n * 10 ^ Z.to_N (- e)) (Npos d).

Definition ndigits (n : N) : Z := Z.of_nat (String.length (str_N n)).

(** [10^e <= n / d] *)
Definition ge_pow10 (n : N) (d : positive) (e : Z) : bool :=
  if 0 <=? e then (Npos d * 10 ^ Z.to_N e <=? n)%N
  else (Npos d <=? n * 10 ^ Z.to_N (- e))%N.

(** The decimal exponent of [n / d > 0]: [10^X <= n/d < 10^(X+1)]. *)
Definition floor_log10 (n : N) (d : positive) : Z :=
  let e := ndigits n - ndigits (Npos d) in
  if ge_pow10 n d e then e else e - 1.

(** [n / d] rounded to [P >= 1] significant digits: the digits as a number
    [m] with [10^(P-1) <= m < 10^P] and the decimal exponent [X] of the
    rounded value, which is [m * 10^(X-P+1)]. Zero gives [(0, 0)]. *)
Definition round_sig (P : Z) (n : N) (d : positive) : N * Z :=
  if (n =? 0)%N then (0%N, 0)
  else
    let X := floor_log10 n d in
    let m := round_at n d (X - P + 1) in
    if (10 ^ Z.to_N P <=? m)%N then ((10 ^ Z.to_N (P - 1))%N, X + 1)
    else (m, X).

(** The exponent suffix of the scientific notation: a sign and at least two
    digits. *)
Definition str_exp (e : Z) : string :=
  "e" +:+ (if e <? 0 then "-" else "+") +:+ pad_N 2 (Z.abs_N e).

(** Layout of the digit string [ds] with the decimal point after [decpt]
    digits, when no type code is given: scientific notation outside
    [-4 < decpt <= P-1], otherwise positional with at least one digit after
    the point. *)
Definition layout_general (P : Z) (ds : string) (decpt : Z) : string :=
  let len := Z.of_nat (String.length ds) in
  if (decpt <=? -4) || (P - 1 <? decpt) then
    match ds with
    | EmptyString => str_exp (decpt - 1)
    | String a EmptyString => String a EmptyString +:+ str_exp (decpt - 1)
    | String a rest => String a ("." +:+ rest) +:+ str_exp (decpt - 1)
    end
  else if decpt <=? 0 then "0." +:+ zeros (Z.to_nat (- decpt)) +:+ ds
  else if decpt <? len then
    String.substring 0 (Z.to_nat decpt) ds +:+ "." +:+
    String.substring (Z.to_nat decpt) (Z.to_nat (len - decpt)) ds
  else ds +:+ zeros (Z.to_nat (decpt - len)) +:+ ".0".

(** The unsigned text of [n / d] in the general format with [P]
    significant digits. *)
Definition general_digits (P : Z) (n : N) (d : positive) : string :=
  let '(m, X) := round_sig P n d in
  layout_general P (digits_of m) (X + 1).

Definition INT_MAX : Z := 2147483647.

(** The largest size of an object, [PY_SSIZE_T_MAX] on 64 bits. *)
Definition PY_SSIZE_T_MAX : Z := 9223372036854775807.

(** ["{:.P}".format(v)] for a float [v]: a precision and no type code.
    A precision of 0 is read as 1; a negative one is not a valid format
    specification and one above [INT_MAX] is refused, as too big or, when
    it does not fit a size, as having too many digits. *)
Definition format_general (P : Z) (v : pyfloat) : result string :=
  if P <? 0 then Raise (ValueError "Format specifier missing precision")
  else if INT_MAX <? P then
    Raise (ValueError (if PY_SSIZE_T_MAX <? P
                       then "Too many decimal digits in format string"
                       else "precision too big"))
  else
    let P' := Z.max P 1 in
    Ok match v with
       | FNan => "nan"
       | FInf neg => if neg then "-inf" else "inf"
       | FFin neg n d =>
           (if neg then "-" else "") +:+ general_digits P' n d
       end.

(** ["%.Pf" % v] for a float [v] and [P >= 0]: [P] digits after the point. *)
Definition format_fixed (P : nat) (v : pyfloat) : string :=
  match v with
  | FNan => "nan"
  | FInf neg => if neg then "-inf" else "inf"
  | FFin neg n d =>
      let m := round_at n d (- Z.of_nat P) in
      let scale := (10 ^ N.of_nat P)%N in
      (if neg then "-" else "") +:+ str_N (m / scale) +:+
      match P with
      | O => ""
      | _ => "." +:+ pad_N P (m mod scale)
      end
  end.

Definition f_of_Z (z : Z) : pyfloat := FFin (z <? 0) (Z.abs_N z) 1.

(** ** Alleles, records and sample groups *)

(** What the code asks of an allele identity (a repeat sequence or a
    repeat count): it is a dictionary key, [sorted] compares two of them
    with [<], and ["%s"] prints one. *)
Class AlleleOps (A : Type) := {
  allele_lt : A → A → bool;
  allele_str : A → string
}.

(** A sample filter: [None] stands for all the samples of a locus. *)
Abbreviation samplelist := (option (list string)).

Record VcfRecord := {
  CHROM : string;
  POS : Z
}.

(** A harmonized record. Its methods belong to [trtools.utils.tr_harmonizer]
    and are taken as given: each field is the method, from its arguments to
    the value it returns. *)
Record TRRecord (allele : Type) `{Countable allele} := {
  vcfrecord : VcfRecord;
  ref_allele : string;
  motif : string;
  GetAlleleCounts : bool → samplelist → gmap allele Z;
  GetAlleleFreqs : bool → samplelist → gmap allele pyfloat;
  GetGenotypeCounts : bool → samplelist → gmap (list allele) Z;
  GetMaxAllele : samplelist → pyfloat
}.
Arguments vcfrecord {allele _ _} t.
Arguments ref_allele {allele _ _} t.
Arguments motif {allele _ _} t.
Arguments GetAlleleCounts {allele _ _} t uselength sl.
Arguments GetAlleleFreqs {allele _ _} t uselength sl.
Arguments GetGenotypeCounts {allele _ _} t uselength sl.
Arguments GetMaxAllele {allele _ _} t sl.

(** The statistics of [trtools.utils.utils], taken as given. *)
Record Utils (allele : Type) `{Countable allele} := {
  GetHardyWeinbergBinomialTest :
    gmap allele pyfloat → gmap (list allele) Z → pyfloat;
  GetHeterozygosity : gmap allele pyfloat → pyfloat;
  utils_GetEntropy : gmap allele pyfloat → pyfloat;
  utils_GetMean : gmap allele pyfloat → pyfloat;
  utils_GetMode : gmap allele pyfloat → pyfloat;
  utils_GetVariance : gmap allele pyfloat → pyfloat
}.
Arguments GetHardyWeinbergBinomialTest {allele _ _} u afreqs gcounts.
Arguments GetHeterozygosity {allele _ _} u afreqs.
Arguments utils_GetEntropy {allele _ _} u afreqs.
Arguments utils_GetMean {allele _ _} u afreqs.
Arguments utils_GetMode {allele _ _} u afreqs.
Arguments utils_GetVariance {allele _ _} u afreqs.

(** What one call of the plot renderer is given: the file it saves, the
    legend labels and the per-group distributions. The bins and the drawing
    are numpy's and matplotlib's. *)
Record Plot (allele : Type) `{Countable allele} := {
  plot_fname : string;
  plot_labels : list string;
  plot_freqs : list (gmap allele pyfloat)
}.
Arguments plot_fname {allele _ _} p.
Arguments plot_labels {allele _ _} p.
Arguments plot_freqs {allele _ _} p.

(** don't plot more than this many allele freqs *)
Definition MAXPLOTS : Z := 10.

(** ** Command line *)

Record Args := {
  args_vcf : string;
  args_out : string;
  args_vcftype : string;
  args_precision : Z;
  args_samples : option string;
  args_sample_prefixes : option string;
  args_region : option string;
  args_thresh : bool;
  args_afreq : bool;
  args_acount : bool;
  args_hwep : bool;
  args_het : bool;
  args_entropy : bool;
  args_mean : bool;
  args_mode : bool;
  args_var : bool;
  args_numcalled : bool;
  args_use_length : bool;
  args_plot_afreq : bool
}.

(** The namespace [getargs] builds when only [--vcf] and [--out] are given:
    the declared defaults, among them a precision of 3. *)
Definition getargs_defaults (vcf out : string) : Args := {|
  args_vcf := vcf; args_out := out; args_vcftype := "auto";
  args_precision := 3;
  args_samples := None; args_sample_prefixes := None; args_region := None;
  args_thresh := false; args_afreq := false; args_acount := false;
  args_hwep := false; args_het := false; args_entropy := false;
  args_mean := false; args_mode := false; args_var := false;
  args_numcalled := false; args_use_length := false;
  args_plot_afreq := false
|}.

(** ** Format strings *)

(** The format string [prefix + "{:." + str(P) + "}"]. *)
Record fmt := {
  fmt_prefix : string;
  fmt_precision : Z
}.

Definition fmt_text (f : fmt) : string :=
  fmt_prefix f +:+ "{:." +:+ str_int (fmt_precision f) +:+ "}".

(** [f.format(val)] *)
Definition str_format (f : fmt) (val : pyfloat) : result string :=
  result_bind (format_general (fmt_precision f) val)
              (λ s, Ok (fmt_prefix f +:+ s)).

Definition format_nan_precision (precision_format : fmt) (val : pyfloat)
  : result string :=
  if isnan val then Ok (TAB +:+ "nan")
  else str_format precision_format val.

(** ** The statistic computers *)

Section StatSTR.
Context {allele : Type} `{Countable allele} `{!AlleleOps allele}.

(** [d.keys()] *)
Definition keys {V} (d : gmap allele V) : list allele := (map_to_list d).*1.

(** [a] may stand before [b] in a sorted list: [b < a] is false. *)
Definition not_after (a b : allele) : Prop := allele_lt b a = false.

#[global] Instance not_after_dec (a b : allele) : Decision (not_after a b) :=
  bool_eq_dec (allele_lt b a) false.

(** [sorted(l)]: a stable sort that only asks [<]. *)
Definition sorted (l : list allele) : list allele := merge_sort not_after l.

(** [sum(d.values())] *)
Definition sum_values {K} `{Countable K} (d : gmap K Z) : Z :=
  foldr Z.add 0 (map_to_list d).*2.

(** [if len(samplelists) == 0: samplelists.append(None)]. The append is in
    place: it changes the list object the caller passed. *)
Definition append_None_if_empty (samplelists : list samplelist)
  : list samplelist :=
  if decide (length samplelists = 0%nat) then samplelists ++ [None]
  else samplelists.

Definition GetHeader (header : string) (sample_prefixes : list string)
  : list string :=
  if decide (length sample_prefixes = 0%nat) then [header]
  else map (λ sp, header +:+ "-" +:+ sp) sample_prefixes.

Definition GetThresh (trrecord : TRRecord allele)
    (samplelists : list samplelist) : list pyfloat :=
  if decide (length samplelists = 0%nat) then [GetMaxAllele trrecord None]
  else map (λ sl, GetMaxAllele trrecord sl) samplelists.

(** One entry of the list [GetAFreq] returns, for counts and for
    frequencies. *)
Definition afreq_counts_str (allele_counts : gmap allele Z) : string :=
  if decide (length (keys allele_counts) = 0%nat) then "."
  else join ","
         (map (λ a, allele_str a +:+ ":" +:+
                    str_int (default 0 (allele_counts !! a)))
              (sorted (keys allele_counts))).

Definition afreq_freqs_str (allele_freqs : gmap allele pyfloat) : string :=
  if decide (length (keys allele_freqs) = 0%nat) then "."
  else join ","
         (map (λ a, allele_str a +:+ ":" +:+
                    format_fixed 3 (default (f_of_Z 0) (allele_freqs !! a)))
              (sorted (keys allele_freqs))).

(** Each computer below returns its value and the contents of the list
    object [samplelists] when it returns. *)
Definition GetAFreq (trrecord : TRRecord allele)
    (samplelists : list samplelist) (count : bool) (uselength : bool)
  : list string * list samplelist :=
  let samplelists := append_None_if_empty samplelists in
  (map (λ sl,
          if count
          then afreq_counts_str (GetAlleleCounts trrecord uselength sl)
          else afreq_freqs_str (GetAlleleFreqs trrecord uselength sl))
       samplelists,
   samplelists).

Context (utils : Utils allele).

Definition GetHWEP (trrecord : TRRecord allele)
    (samplelists : list samplelist) (uselength : bool)
  : list pyfloat * list samplelist :=
  let samplelists := append_None_if_empty samplelists in
  (map (λ sl,
          let allele_freqs := GetAlleleFreqs trrecord uselength sl in
          let genotype_counts := GetGenotypeCounts trrecord uselength sl in
          GetHardyWeinbergBinomialTest utils allele_freqs genotype_counts)
       samplelists,
   samplelists).

Definition GetHet (trrecord : TRRecord allele)
    (samplelists : list samplelist) (uselength : bool)
  : list pyfloat * list samplelist :=
  let samplelists := append_None_if_empty samplelists in
  (map (λ sl, GetHeterozygosity utils (GetAlleleFreqs trrecord uselength sl))
       samplelists,
   samplelists).

Definition GetEntropy (trrecord : TRRecord allele)
    (samplelists : list samplelist) (uselength : bool)
  : list pyfloat * list samplelist :=
  let samplelists := append_None_if_empty samplelists in
  (map (λ sl, utils_GetEntropy utils (GetAlleleFreqs trrecord uselength sl))
       samplelists,
   samplelists).

Definition GetMean (trrecord : TRRecord allele)
    (samplelists : list samplelist) (uselength : bool)
  : list pyfloat * list samplelist :=
  let samplelists := append_None_if_empty samplelists in
  (map (λ sl, utils_GetMean utils (GetAlleleFreqs trrecord true sl))
       samplelists,
   samplelists).

Definition GetMode (trrecord : TRRecord allele)
    (samplelists : list samplelist) (uselength : bool)
  : list pyfloat * list samplelist :=
  let samplelists := append_None_if_empty samplelists in
  (map (λ sl, utils_GetMode utils (GetAlleleFreqs trrecord true sl))
       samplelists,
   samplelists).

Definition GetVariance (trrecord : TRRecord allele)
    (samplelists : list samplelist) (uselength : bool)
  : list pyfloat * list samplelist :=
  let samplelists := append_None_if_empty samplelists in
  (map (λ sl, utils_GetVariance utils (GetAlleleFreqs trrecord true sl))
       samplelists,
   samplelists).

(** [GetGenotypeCounts] is called without [uselength]; the method's own
    default applies. *)
Definition GetGenotypeCounts_default_uselength : bool := true.

Definition GetNumSamples (trrecord : TRRecord allele)
    (samplelists : list samplelist) : list Z * list samplelist :=
  let samplelists := append_None_if_empty samplelists in
  (map (λ sl,
          sum_values
            (GetGenotypeCounts trrecord GetGenotypeCounts_default_uselength sl))
       samplelists,
   samplelists).

(** ** Plotting *)

(** [l[i]] *)
Definition getitem {A} (l : list A) (i : nat) : result A :=
  match l !! i with
  | Some x => Ok x
  | None => Raise (IndexError "list index out of range")
  end.

Fixpoint mapM_result {A B} (f : A → result B) (l : list A)
  : result (list B) :=
  match l with
  | [] => Ok []
  | x :: xs =>
      result_bind (f x) (λ y,
      result_bind (mapM_result f xs) (λ ys, Ok (y :: ys)))
  end.

(** The plot of one locus. The two failures it can meet before anything is
    drawn are modelled: [min] of an empty allele set, and a group without
    a legend label. It rebinds its own [samplelists]; the caller's list is
    not touched. *)
Definition PlotAlleleFreqs (trrecord : TRRecord allele) (outprefix : string)
    (samplelists : list samplelist) (sampleprefixes : list string)
  : result (Plot allele) :=
  let '(samplelists, sampleprefixes) :=
    if decide (samplelists = []) then ([None], ["sample"])
    else (samplelists, sampleprefixes) in
  let allele_freqs_list :=
    map (λ sl, GetAlleleFreqs trrecord true sl) samplelists in
  let allele_set : gset allele :=
    foldl (λ s afreqs, s ∪ dom afreqs) ∅ allele_freqs_list in
  if decide (allele_set = ∅)
  then Raise (ValueError "min() arg is an empty sequence")
  else
    let fname := outprefix +:+ "-" +:+ CHROM (vcfrecord trrecord) +:+ "-" +:+
                 str_int (POS (vcfrecord trrecord)) +:+ ".pdf" in
    result_bind
      (mapM_result (λ i, getitem sampleprefixes i)
                   (seq 0 (length samplelists)))
      (λ labels,
         Ok {| plot_fname := fname;
               plot_labels := labels;
               plot_freqs := allele_freqs_list |}).

End StatSTR.

(** ** The environment of a run *)

(** A VCF reader: the records it yields when iterated, and the records of a
    region ([invcf(region)]). *)
Record Reader := {
  reader_records : list VcfRecord;
  reader_fetch : string → result (list VcfRecord)
}.

(** The file system and the collaborators [main] calls. [vcftype] is the
    enumeration [trh.VcfTypes]. *)
Record Env (allele : Type) `{Countable allele} (vcftype : Type) := {
  os_path_exists : string → bool;
  (** [os.path.exists(os.path.dirname(os.path.abspath(p)))] *)
  out_dir_exists : string → bool;
  os_path_isdir : string → bool;
  (** [open(p, "r").readlines()] *)
  readlines : string → result (list string);
  (** [open(p, "w")] *)
  open_w : string → result unit;
  LoadSingleReader : string → bool → result (option Reader);
  VcfTypes : string → result vcftype;
  InferVCFType : Reader → result vcftype;
  HarmonizeRecord : vcftype → VcfRecord → result (TRRecord allele)
}.
Arguments os_path_exists {allele _ _ vcftype} e p.
Arguments out_dir_exists {allele _ _ vcftype} e p.
Arguments os_path_isdir {allele _ _ vcftype} e p.
Arguments readlines {allele _ _ vcftype} e p.
Arguments open_w {allele _ _ vcftype} e p.
Arguments LoadSingleReader {allele _ _ vcftype} e p checkgz.
Arguments VcfTypes {allele _ _ vcftype} e name.
Arguments InferVCFType {allele _ _ vcftype} e invcf.
Arguments HarmonizeRecord {allele _ _ vcftype} e vt record.

(** Where [outf] writes. *)
Inductive target : Type :=
  | Stdout
  | File (path : string).

(** ** The state of the locus loop *)

(** The variables of [main] that the loop reads and writes, the text
    written to [outf] so far, one string per [write], and the plots made so
    far. The timing diagnostics printed on standard output are not part of
    the state. *)
Record St (allele : Type) `{Countable allele} := {
  sample_lists : list samplelist;
  num_plotted : Z;
  nrecords : Z;
  written : list string;
  plotted : list (Plot allele)
}.
Arguments sample_lists {allele _ _} s.
Arguments num_plotted {allele _ _} s.
Arguments nrecords {allele _ _} s.
Arguments written {allele _ _} s.
Arguments plotted {allele _ _} s.

(** What a run leaves behind: the value [main] returns or the exception it
    lets escape, the messages of [common.WARNING] and [common.MSG], and the
    final state of the loop with its output stream, if the stream was ever
    opened. *)
Record Outcome (allele : Type) `{Countable allele} := {
  retval : result Z;
  messages : list string;
  outf : option (target * St allele)
}.
Arguments retval {allele _ _} o.
Arguments messages {allele _ _} o.
Arguments outf {allele _ _} o.

Section Main.
Context {allele : Type} `{Countable allele} `{!AlleleOps allele}.
Context {vcftype : Type}.
Context (utils : Utils allele) (env : Env allele vcftype).

(** Statements: a state transformer that may raise. On an exception the
    state reached so far stays: what was written is written. *)
Definition M (A : Type) : Type := St allele → result A * St allele.

Definition ret {A} (a : A) : M A := λ st, (Ok a, st).

Definition bind {A B} (m : M A) (k : A → M B) : M B :=
  λ st, match m st with
        | (Ok a, st') => k a st'
        | (Raise e, st') => (Raise e, st')
        end.

Notation "'do' x <- m ; k" := (bind m (λ x, k))
  (at level 10, x name, m at level 100, k at level 200).
Notation "m ;; k" := (bind m (λ _, k))
  (at level 100, k at level 200, right associativity).

Definition lift {A} (r : result A) : M A := λ st, (r, st).

(** [outf.write(s)] *)
Definition write (s : string) : M unit :=
  λ st, (Ok tt,
         {| sample_lists := sample_lists st; num_plotted := num_plotted st;
            nrecords := nrecords st; written := written st ++ [s];
            plotted := plotted st |}).

Definition get_sample_lists : M (list samplelist) :=
  λ st, (Ok (sample_lists st), st).

Definition get_num_plotted : M Z := λ st, (Ok (num_plotted st), st).

(** The list object [sample_lists] after a callee changed it in place. *)
Definition set_sample_lists (l : list samplelist) : M unit :=
  λ st, (Ok tt,
         {| sample_lists := l; num_plotted := num_plotted st;
            nrecords := nrecords st; written := written st;
            plotted := plotted st |}).

Definition incr_nrecords : M unit :=
  λ st, (Ok tt,
         {| sample_lists := sample_lists st; num_plotted := num_plotted st;
            nrecords := nrecords st + 1; written := written st;
            plotted := plotted st |}).

(** The plot is saved and [num_plotted += 1]. *)
Definition record_plot (p : Plot allele) : M unit :=
  λ st, (Ok tt,
         {| sample_lists := sample_lists st;
            num_plotted := num_plotted st + 1;
            nrecords := nrecords st; written := written st;
            plotted := plotted st ++ [p] |}).

(** [for x in l: body(x)] *)
Fixpoint for_each {A} (l : list A) (body : A → M unit) : M unit :=
  match l with
  | [] => ret tt
  | x :: xs => body x ;; for_each xs body
  end.

(** [if b: body] *)
Definition when (b : bool) (body : M unit) : M unit :=
  if b then body else ret tt.

(** A call [f(trrecord, samplelists=sample_lists, ...)] of a computer that
    may change its argument in place. *)
Definition call {A} (f : list samplelist → A * list samplelist) : M A :=
  do sl <- get_sample_lists;
  let '(v, sl') := f sl in
  set_sample_lists sl' ;;
  ret v.

(** [for val in vals: outf.write(format_nan_precision(precision_format, val))] *)
Definition write_floats (precision_format : fmt) (vals : list pyfloat)
  : M unit :=
  for_each vals (λ val,
    do s <- lift (format_nan_precision precision_format val);
    write s).

(** [for val in vals: outf.write("\t" + str(val))] *)
Definition write_strs (vals : list string) : M unit :=
  for_each vals (λ val, write (TAB +:+ val)).

(** The body of [for record in region]. *)
Definition process_record (args : Args) (vt : vcftype)
    (sample_prefixes : list string) (precision_format : fmt)
    (record : VcfRecord) : M unit :=
  incr_nrecords ;;
  do trrecord <- lift (HarmonizeRecord env vt record);
  do np <- get_num_plotted;
  when (args_plot_afreq args && (np <=? MAXPLOTS))
    (do sl <- get_sample_lists;
     do p <- lift (PlotAlleleFreqs trrecord (args_out args) sl sample_prefixes);
     record_plot p) ;;
  write (CHROM record +:+ TAB +:+ str_int (POS record) +:+ TAB +:+
         str_int (POS record + Z.of_nat (String.length (ref_allele trrecord)))) ;;
  when (args_thresh args)
    (do sl <- get_sample_lists;
     write_floats precision_format (GetThresh trrecord sl)) ;;
  when (args_afreq args)
    (do vals <- call (λ sl, GetAFreq trrecord sl false (args_use_length args));
     write_strs vals) ;;
  when (args_acount args)
    (do vals <- call (λ sl, GetAFreq trrecord sl true (args_use_length args));
     write_strs vals) ;;
  when (args_hwep args)
    (do vals <- call (λ sl, GetHWEP utils trrecord sl (args_use_length args));
     write_floats precision_format vals) ;;
  when (args_het args)
    (do vals <- call (λ sl, GetHet utils trrecord sl (args_use_length args));
     write_floats precision_format vals) ;;
  when (args_entropy args)
    (do vals <- call (λ sl, GetEntropy utils trrecord sl (args_use_length args));
     write_floats precision_format vals) ;;
  when (args_mean args)
    (do vals <- call (λ sl, GetMean utils trrecord sl true);
     write_floats precision_format vals) ;;
  when (args_mode args)
    (do vals <- call (λ sl, GetMode utils trrecord sl true);
     write_floats precision_format vals) ;;
  when (args_var args)
    (do vals <- call (λ sl, GetVariance utils trrecord sl true);
     write_floats precision_format vals) ;;
  when (args_numcalled args)
    (do vals <- call (λ sl, GetNumSamples trrecord sl);
     write_strs (map str_int vals)) ;;
  write NL.

(** The header items, by the chain of [header.extend] calls. *)
Definition extend_if (b : bool) (header items : list string) : list string :=
  if b then header ++ items else header.

Definition main_header (args : Args) (sample_prefixes : list string)
  : list string :=
  let header := ["chrom"; "start"; "end"] in
  let header := extend_if (args_thresh args) header (GetHeader "thresh" sample_prefixes) in
  let header := extend_if (args_afreq args) header (GetHeader "afreq" sample_prefixes) in
  let header := extend_if (args_acount args) header (GetHeader "acount" sample_prefixes) in
  let header := extend_if (args_hwep args) header (GetHeader "hwep" sample_prefixes) in
  let header := extend_if (args_het args) header (GetHeader "het" sample_prefixes) in
  let header := extend_if (args_entropy args) header (GetHeader "entropy" sample_prefixes) in
  let header := extend_if (args_mean args) header (GetHeader "mean" sample_prefixes) in
  let header := extend_if (args_mode args) header (GetHeader "mode" sample_prefixes) in
  let header := extend_if (args_var args) header (GetHeader "var" sample_prefixes) in
  let header := extend_if (args_numcalled args) header (GetHeader "numcalled" sample_prefixes) in
  header.

(** [precision_format = "\t{:." + str(args.precision) + "}"] *)
Definition main_precision_format (args : Args) : fmt :=
  {| fmt_prefix := TAB; fmt_precision := args_precision args |}.

(** The sample groups: [Loaded sample_lists sample_prefixes], or the early
    [return 1] when the two counts differ, or an exception of [open]. *)
Inductive samples_result : Type :=
  | Loaded (sample_lists : list samplelist) (sample_prefixes : list string)
  | Mismatch
  | LoadError (e : exn).

Definition load_samples (args : Args) : samples_result :=
  if truthy (args_samples args) then
    let sfiles := split COMMA (default "" (args_samples args)) in
    let sample_prefixes :=
      if truthy (args_sample_prefixes args)
      then split COMMA (default "" (args_sample_prefixes args))
      else map (λ item, str_int (Z.of_nat item)) (seq 1 (length sfiles)) in
    if negb (length sfiles =? length sample_prefixes)%nat then Mismatch
    else
      match mapM_result
              (λ sf, result_bind (readlines env sf)
                       (λ lines, Ok (Some (map strip lines))))
              sfiles with
      | Ok sample_lists => Loaded sample_lists sample_prefixes
      | Raise e => LoadError e
      end
  else Loaded [] [].

(** A run that ends before [outf] exists. *)
Definition early (r : result Z) (msgs : list string) : Outcome allele :=
  {| retval := r; messages := msgs; outf := None |}.

(** The [finally] clause reads [outf]; when the [try] block is left before
    [outf] is assigned, that read is what the run ends with. *)
Definition outf_unbound : exn :=
  External "UnboundLocalError: outf".

(** The [try] block once [outf] is open on [tgt]: the header line, the
    region, the loop over its records, and [return 0]. An exception leaves
    through the [finally] clause, which closes the file. *)
Definition main_try (args : Args) (invcf : Reader) (vt : vcftype)
    (sample_lists : list samplelist) (sample_prefixes : list string)
    (tgt : target) : Outcome allele :=
  let header := main_header args sample_prefixes in
  let precision_format := main_precision_format args in
  let st0 := {| sample_lists := sample_lists;
                num_plotted := 0; nrecords := 0;
                written := [join TAB header +:+ NL];
                plotted := [] |} in
  match (if truthy (args_region args)
         then reader_fetch invcf (default "" (args_region args))
         else Ok (reader_records invcf)) with
  | Raise e =>
      {| retval := Raise e; messages := []; outf := Some (tgt, st0) |}
  | Ok region =>
      let '(r, st) :=
        for_each region
          (process_record args vt sample_prefixes precision_format) st0 in
      {| retval := match r with
                   | Ok _ => Ok 0
                   | Raise e => Raise e
                   end;
         messages := [];
         outf := Some (tgt, st) |}
  end.

Definition main (args : Args) : Outcome allele :=
  if negb (os_path_exists env (args_vcf args)) then
    early (Ok 1) ["Error: " +:+ args_vcf args +:+ " does not exist"]
  else if negb (out_dir_exists env (args_out args)) then
    early (Ok 1) ["Error: The directory which contains the output location "
                  +:+ args_out args +:+ " does not exist"]
  else if os_path_isdir env (args_out args) && endswith (args_out args) "/" then
    early (Ok 1) ["Error: The output location " +:+ args_out args
                  +:+ " is a directory"]
  else
    match load_samples args with
    | Mismatch =>
        early (Ok 1) ["--sample-prefixes must be same length as --samples"]
    | LoadError e => early (Raise e) []
    | Loaded sample_lists sample_prefixes =>
        let checkgz := bool_decide (is_Some (args_region args)) in
        match LoadSingleReader env (args_vcf args) checkgz with
        | Raise e => early (Raise e) []
        | Ok None => early (Ok 1) []
        | Ok (Some invcf) =>
            match (if negb (String.eqb (args_vcftype args) "auto")
                   then VcfTypes env (args_vcftype args)
                   else InferVCFType env invcf) with
            | Raise e => early (Raise e) []
            | Ok vt =>
                if String.eqb (args_out args) "stdout" then
                  if args_plot_afreq args then
                    early (Raise outf_unbound)
                          ["Cannot use --out stdout when generating plots"]
                  else main_try args invcf vt sample_lists sample_prefixes
                                Stdout
                else
                  match open_w env (args_out args +:+ ".tab") with
                  | Raise e => early (Raise outf_unbound) []
                  | Ok _ =>
                      main_try args invcf vt sample_lists sample_prefixes
                               (File (args_out args +:+ ".tab"))
                  end
            end
        end
    end.

End Main.

(** ** The columns of the output *)

(** The statistics a run can be asked for, in the order [main] tests their
    flags, for the header and again for every row. *)
Inductive stat : Type :=
  | Thresh | AFreq | ACount | HWEP | Het | Entropy | Mean | Mode | Var
  | NumCalled.

Definition stat_order : list stat :=
  [Thresh; AFreq; ACount; HWEP; Het; Entropy; Mean; Mode; Var; NumCalled].

Definition stat_name (s : stat) : string :=
  match s with
  | Thresh => "thresh" | AFreq => "afreq" | ACount => "acount"
  | HWEP => "hwep" | Het => "het" | Entropy => "entropy" | Mean => "mean"
  | Mode => "mode" | Var => "var" | NumCalled => "numcalled"
  end.

Definition requested (args : Args) (s : stat) : bool :=
  match s with
  | Thresh => args_thresh args | AFreq => args_afreq args
  | ACount => args_acount args | HWEP => args_hwep args
  | Het => args_het args | Entropy => args_entropy args
  | Mean => args_mean args | Mode => args_mode args
  | Var => args_var args | NumCalled => args_numcalled args
  end.

(** The header as the interface describes it: the three coordinates, then
    one block of columns per requested statistic. *)
Definition header_blocks (args : Args) (sample_prefixes : list string)
  : list (list string) :=
  map (λ s, if requested args s
            then GetHeader (stat_name s) sample_prefixes else [])
      stat_order.

(** A field as it is written: the delimiter, then the text. *)
Definition is_field (w : string) : Prop := ∃ text, w = TAB +:+ text.

(** A complete row, as a sequence of writes, lined up with the header: the
    coordinates, one block of fields per header block with one field per
    column of that block, and the newline. *)
Definition aligned_row (args : Args) (sample_prefixes : list string)
    (row : list string) : Prop :=
  ∃ (coords : string) (blocks : list (list string)),
    row = coords :: concat blocks ++ [NL] ∧
    Forall2 (λ hb b, length b = length hb ∧ Forall is_field b)
            (header_blocks args sample_prefixes) blocks.

(** The group list and the labels agree: as many groups as labels, or no
    label and the list still empty or holding the one group of all samples. *)
Definition groups_agree (sample_prefixes : list string)
    (sample_lists : list samplelist) : Prop :=
  (sample_prefixes ≠ [] ∧ length sample_lists = length sample_prefixes) ∨
  (sample_prefixes = [] ∧ (sample_lists = [] ∨ sample_lists = [None])).

(** The number of columns of one block. *)
Definition ncols (sample_prefixes : list string) : nat :=
  length (GetHeader "" sample_prefixes).

(** ** Genotype calls *)

(** The calls of a locus: for each sample its identifier and either no call
    or the called alleles, each in its exact and its length-collapsed
    form. *)
Abbreviation calls allele := (list (string * option (list (allele * allele)))).

Section Calls.
Context {allele : Type} `{Countable allele} `{!AlleleOps allele}.

Definition in_group (sl : samplelist) (sample : string) : bool :=
  match sl with
  | None => true
  | Some l => bool_decide (sample ∈ l)
  end.

(** The key of a genotype: its allele identities in the chosen
    representation, as an unordered tuple. *)
Definition genotype_key (uselength : bool) (g : list (allele * allele))
  : list allele :=
  sorted (map (λ a, if uselength then a.2 else a.1) g).

Definition count_one (k : list allele) (m : gmap (list allele) Z)
  : gmap (list allele) Z :=
  <[k := default 0 (m !! k) + 1]> m.

(** Modelled from the spec: [TRRecord.GetGenotypeCounts] of
    [trtools.utils.tr_harmonizer] is not among the sources. The data model
    describes its result as a mapping from unordered genotype to count,
    derived from the genotype calls and the representation mode for the
    sample subset, counting every fully-called individual of the subset
    once and leaving out samples without a call. *)
Definition spec_GetGenotypeCounts (cs : calls allele) (uselength : bool)
    (sl : samplelist) : gmap (list allele) Z :=
  foldr (λ '(sample, call) m,
           if in_group sl sample then
             match call with
             | Some g => count_one (genotype_key uselength g) m
             | None => m
             end
           else m)
        ∅ cs.

Definition count_allele (a : allele) (m : gmap allele Z) : gmap allele Z :=
  <[a := default 0 (m !! a) + 1]> m.

(** The allele identities of a genotype in the chosen representation. *)
Definition genotype_alleles (uselength : bool) (g : list (allele * allele))
  : list allele :=
  map (λ a, if uselength then a.2 else a.1) g.

(** Modelled from the spec: [TRRecord.GetAlleleCounts] of
    [trtools.utils.tr_harmonizer] is not among the sources. The contract of
    the distribution construction gives the count of each observed allele
    across the genotype calls of the samples in the filter, counting every
    allele of every called genotype and leaving out samples without a
    call; an allele that is not observed is not a key. *)
Definition spec_GetAlleleCounts (cs : calls allele) (uselength : bool)
    (sl : samplelist) : gmap allele Z :=
  foldr (λ '(sample, call) m,
           if in_group sl sample then
             match call with
             | Some g => foldr count_allele m (genotype_alleles uselength g)
             | None => m
             end
           else m)
        ∅ cs.

(** The allele [a] occurs in the call of a sample of the group. *)
Definition occurs (cs : calls allele) (uselength : bool) (sl : samplelist)
    (a : allele) : Prop :=
  ∃ sample g, (sample, Some g) ∈ cs ∧ in_group sl sample = true ∧
              a ∈ genotype_alleles uselength g.

(** The individuals of a group with a call at the locus. *)
Definition num_called (cs : calls allele) (sl : samplelist) : Z :=
  Z.of_nat (length (filter (λ sc, in_group sl sc.1 ∧ is_Some sc.2) cs)).

End Calls.

(** ** A concrete setting *)

(** Alleles identified by a whole repeat count. *)
#[global] Instance Z_allele_ops : AlleleOps Z := {|
  allele_lt := Z.ltb;
  allele_str := str_int
|}.

Definition half : pyfloat := FFin false 1 2.

(** A locus with one heterozygous call 10/11. *)
Definition called_trrecord (record : VcfRecord) : TRRecord Z := {|
  vcfrecord := record;
  ref_allele := "CAGCAGCAG";
  motif := "CAG";
  GetAlleleCounts := λ _ _, {[ 10 := 1; 11 := 1 ]};
  GetAlleleFreqs := λ _ _, {[ 10 := half; 11 := half ]};
  GetGenotypeCounts := λ _ _, {[ [10; 11] := 1 ]};
  GetMaxAllele := λ _, FFin false 11 1
|}.

(** A locus where no sample has a call. *)
Definition uncalled_trrecord (record : VcfRecord) : TRRecord Z := {|
  vcfrecord := record;
  ref_allele := "CAGCAGCAG";
  motif := "CAG";
  GetAlleleCounts := λ _ _, ∅;
  GetAlleleFreqs := λ _ _, ∅;
  GetGenotypeCounts := λ _ _, ∅;
  GetMaxAllele := λ _, FNan
|}.

Definition demo_utils : Utils Z := {|
  GetHardyWeinbergBinomialTest := λ _ _, FFin false 1 1;
  GetHeterozygosity := λ afreqs, if decide (afreqs = ∅) then FNan else half;
  utils_GetEntropy := λ afreqs, if decide (afreqs = ∅) then FNan else FFin false 1 1;
  utils_GetMean := λ afreqs, if decide (afreqs = ∅) then FNan else FFin false 21 2;
  utils_GetMode := λ afreqs, if decide (afreqs = ∅) then FNan else FFin false 10 1;
  utils_GetVariance := λ afreqs, if decide (afreqs = ∅) then FNan else FFin false 1 4
|}.

(** A file system where every path exists, every sample file lists the
    samples s1 and s2, and the reader yields [records]; the records at
    position 0 have no call. *)
Definition demo_env (records : list VcfRecord) : Env Z unit := {|
  os_path_exists := λ _, true;
  out_dir_exists := λ _, true;
  os_path_isdir := λ _, false;
  readlines := λ _, Ok ["s1" +:+ NL; "s2" +:+ NL];
  open_w := λ _, Ok tt;
  LoadSingleReader := λ _ _,
    Ok (Some {| reader_records := records; reader_fetch := λ _, Ok records |});
  VcfTypes := λ _, Ok tt;
  InferVCFType := λ _, Ok tt;
  HarmonizeRecord := λ _ record,
    Ok (if POS record =? 0 then uncalled_trrecord record
        else called_trrecord record)
|}.

Definition locus (pos : Z) : VcfRecord := {| CHROM := "chr1"; POS := pos |}.

Definition loci (k : nat) : list VcfRecord :=
  map (λ i, locus (100 * Z.of_nat i)) (seq 1 k).

(** [statSTR --vcf in.vcf --out out] with further flags set below. *)
Definition demo_args : Args := getargs_defaults "in.vcf" "out".

Definition with_flags (args : Args) (thresh afreq mean plot : bool)
    (precision : Z) (samples prefixes : option string) : Args := {|
  args_vcf := args_vcf args; args_out := args_out args;
  args_vcftype := args_vcftype args; args_precision := precision;
  args_samples := samples; args_sample_prefixes := prefixes;
  args_region := args_region args;
  args_thresh := thresh; args_afreq := afreq;
  args_acount := args_acount args; args_hwep := args_hwep args;
  args_het := args_het args; args_entropy := args_entropy args;
  args_mean := mean; args_mode := args_mode args; args_var := args_var args;
  args_numcalled := args_numcalled args;
  args_use_length := args_use_length args;
  args_plot_afreq := plot
|}.

(** ** Reasoning about statements *)

(** [wp m Q E st]: run from [st], the statement [m] ends normally in a state
    and with a value that satisfy [Q], or raises in a state that satisfies
    [E]. *)
Definition wp {allele : Type} `{Countable allele} {A : Type}
    (m : St allele → result A * St allele)
    (Q : A → St allele → Prop) (E : exn → St allele → Prop)
    (st : St allele) : Prop :=
  match m st with
  | (Ok a, st') => Q a st'
  | (Raise e, st') => E e st'
  end.

(** The arguments of a run with the statistics that read [--use-length]
    switched off, and with that flag set to [b]. *)
Definition length_free (b : bool) (args : Args) : Args := {|
  args_vcf := args_vcf args; args_out := args_out args;
  args_vcftype := args_vcftype args; args_precision := args_precision args;
  args_samples := args_samples args;
  args_sample_prefixes := args_sample_prefixes args;
  args_region := args_region args;
  args_thresh := args_thresh args; args_afreq := false;
  args_acount := false; args_hwep := false;
  args_het := false; args_entropy := false;
  args_mean := args_mean args; args_mode := args_mode args;
  args_var := args_var args;
  args_numcalled := args_numcalled args;
  args_use_length := b;
  args_plot_afreq := args_plot_afreq args
|}.

(** ** Predicates on texts *)

Definition is_digit (a : ascii) : bool :=
  let n := N_of_ascii a in (48 <=? n)%N && (n <=? 57)%N.

(** The text starts with a character that satisfies [p]. *)
Definition head_is (p : ascii → bool) (s : string) : Prop :=
  match s with
  | String a _ => p a = true
  | EmptyString => False
  end.

(** The first character of a formatted number: a digit, a sign, or the i
    of an infinity. *)
Definition numeric_head (a : ascii) : bool :=
  is_digit a || Ascii.eqb a "-" || Ascii.eqb a "i".


(** ** Assertions on the state of the loop *)

Section Assertions.
Context {allele : Type} `{Countable allele}.

(** Nothing but the written text has changed. *)
Definition same_vars (st st' : St allele) : Prop :=
  sample_lists st' = sample_lists st ∧ num_plotted st' = num_plotted st ∧
  nrecords st' = nrecords st ∧ plotted st' = plotted st.

(** Nothing but the written text and the group list has changed. *)
Definition same_counters (st st' : St allele) : Prop :=
  num_plotted st' = num_plotted st ∧ nrecords st' = nrecords st ∧
  plotted st' = plotted st.

(** The counter [num_plotted] is the number of plots made. *)
Definition plots_counted (st : St allele) : Prop :=
  num_plotted st = Z.of_nat (length (plotted st)).

(** [n] fields. *)
Definition field_block (n : nat) (b : list string) : Prop :=
  length b = n ∧ Forall is_field b.

(** The writes of a row that was not finished: no newline among them. *)
Definition unfinished (part : list string) : Prop := NL ∉ part.

End Assertions.

(** ** Assertions on the row being written *)

Section RowAssertions.
Context {allele : Type} `{Countable allele}.
Context (args : Args) (sample_prefixes : list string).

(** The number of fields of the block of statistic [s]. *)
Definition block_width (s : stat) : nat :=
  if requested args s then ncols sample_prefixes else 0%nat.

(** Between two statements of the loop body: the plot counter counts the
    plots and has not passed [MAXPLOTS + 1], and the group list agrees with
    the labels. *)
Definition loop_inv (st : St allele) : Prop :=
  groups_agree sample_prefixes (sample_lists st) ∧
  plots_counted st ∧ num_plotted st ≤ MAXPLOTS + 1.

(** The statement [m] writes one block of [n] fields; if it raises, what it
    wrote before are fields. It may change the group list, within
    [groups_agree]. *)
Definition emits_block (n : nat)
    (m : St allele → result unit * St allele) : Prop :=
  ∀ st, groups_agree sample_prefixes (sample_lists st) →
    wp m
       (λ _ st', ∃ b, written st' = written st ++ b ∧ field_block n b ∧
                      groups_agree sample_prefixes (sample_lists st') ∧
                      same_counters st st')
       (λ _ st', ∃ b, written st' = written st ++ b ∧ Forall is_field b ∧
                      groups_agree sample_prefixes (sample_lists st') ∧
                      same_counters st st')
       st.

(** The row begun in state [st0] has its coordinates and the blocks of the
    statistics [done] written. *)
Definition row_so_far (st0 : St allele) (done : list stat) (st : St allele)
  : Prop :=
  ∃ (coords : string) (blocks : list (list string)),
    written st = written st0 ++ coords :: concat blocks ∧
    coords ≠ NL ∧
    Forall2 (λ s b, field_block (block_width s) b) done blocks ∧
    groups_agree sample_prefixes (sample_lists st) ∧
    same_counters st0 st.

(** The row begun in state [st0] was left unfinished. *)
Definition row_abandoned (st0 : St allele) (st : St allele) : Prop :=
  ∃ part : list string,
    written st = written st0 ++ part ∧ unfinished part ∧
    groups_agree sample_prefixes (sample_lists st) ∧
    same_counters st0 st.

(** The row begun in state [st0] is complete and lined up with the
    header. *)
Definition row_done (st0 : St allele) (st : St allele) : Prop :=
  ∃ row : list string,
    written st = written st0 ++ row ∧
    aligned_row args sample_prefixes row ∧
    groups_agree sample_prefixes (sample_lists st) ∧
    same_counters st0 st.

(** What one pass of the loop body leaves: a complete row lined up with
    the header, or an unfinished one and an exception. Either way the loop
    invariant holds again and one more record was read. *)
Definition record_done (st st' : St allele) : Prop :=
  ∃ row : list string,
    written st' = written st ++ row ∧
    aligned_row args sample_prefixes row ∧
    loop_inv st' ∧
    nrecords st' = nrecords st + 1.

Definition record_failed (st st' : St allele) : Prop :=
  ∃ part : list string,
    written st' = written st ++ part ∧ unfinished part ∧
    loop_inv st' ∧
    nrecords st' = nrecords st + 1.

(** What the loop leaves after [k] records when it ends normally: [k]
    complete rows. *)
Definition loop_done (k : nat) (st st' : St allele) : Prop :=
  ∃ rows : list (list string),
    written st' = written st ++ concat rows ∧
    Forall (aligned_row args sample_prefixes) rows ∧
    length rows = k ∧
    loop_inv st' ∧
    nrecords st' = nrecords st + Z.of_nat k.

(** What the loop leaves when a record among [k] raised: the complete rows
    of the records before it, and the unfinished row of that record. *)
Definition loop_failed (k : nat) (st st' : St allele) : Prop :=
  ∃ (rows : list (list string)) (part : list string),
    written st' = written st ++ concat rows ++ part ∧
    Forall (aligned_row args sample_prefixes) rows ∧
    unfinished part ∧
    (length rows < k)%nat ∧
    loop_inv st' ∧
    nrecords st' = nrecords st + Z.of_nat (length rows) + 1.

End RowAssertions.

(** What the code asks of a computer to fill a block: one value per group
    of the list it leaves, which is the list it was given with the group
    of all samples added if there was none. *)
Definition per_group {A} (f : list samplelist → list A * list samplelist)
  : Prop :=
  ∀ sl, length (f sl).1 = length (append_None_if_empty sl) ∧
        (f sl).2 = append_None_if_empty sl.


(** ** Example runs *)

(** Two sample files with the labels A and B; the threshold and the mean
    are asked for and the allele frequencies are plotted. *)
Definition plot_args : Args :=
  with_flags demo_args true false true true 3 (Some "f1,f2") (Some "A,B").

(** No sample file; the threshold, the frequency table and the mean are
    asked for, with a precision of 5. *)
Definition table_args : Args :=
  with_flags demo_args true true true false 5 None None.

(** The state a run ends in, when it opened its output. *)
Definition final_state {allele : Type} `{Countable allele}
    (o : Outcome allele) : option (St allele) :=
  snd <$> outf o.

(** The state of the loop before the first record of [plot_args]'s run. *)
Definition plot_st0 : St Z := {|
  sample_lists := [Some ["s1"; "s2"]; Some ["s1"; "s2"]];
  num_plotted := 0; nrecords := 0;
  written := [join TAB (main_header plot_args ["A"; "B"]) +:+ NL];
  plotted := []
|}.

(** A locus with three samples: s1 called 10/11, s2 not called, s3 called
    10/10. Each allele is given by its exact and its length-collapsed
    identity. *)
Definition demo_calls : calls Z :=
  [ ("s1", Some [(10, 10); (11, 11)]);
    ("s2", None);
    ("s3", Some [(10, 10); (10, 10)]) ].

(** A record whose allele and genotype counts are those of the calls
    [cs]; its frequencies are given for the alleles counted, all as one
    half. *)
Definition trrecord_of_calls (cs : calls Z) (record : VcfRecord)
  : TRRecord Z := {|
  vcfrecord := record;
  ref_allele := "CAGCAGCAG";
  motif := "CAG";
  GetAlleleCounts := spec_GetAlleleCounts cs;
  GetAlleleFreqs := λ uselength sl,
    (λ _, half) <$> spec_GetAlleleCounts cs uselength sl;
  GetGenotypeCounts := spec_GetGenotypeCounts cs;
  GetMaxAllele := λ _, FNan
|}.

(** ** Tables *)

(** [<] on allele identities is a strict total order: the case of repeat
    counts and of sequences. *)
Record strict_total_order {A : Type} (lt : A → A → bool) : Prop := {
  lt_irrefl : ∀ a, lt a a = false;
  lt_trans : ∀ a b c, lt a b = true → lt b c = true → lt a c = true;
  lt_total : ∀ a b, lt a b = true ∨ a = b ∨ lt b a = true
}.

Section Tables.
Context {allele : Type} `{Countable allele} `{!AlleleOps allele}.

(** A table field as the interface describes it: the pairs as
    allele:value joined by commas, or the marker when there is no pair. *)
Definition table_of {V : Type} (show : V → string) (pairs : list (allele * V))
  : string :=
  match pairs with
  | [] => "."
  | _ => join "," (map (λ p, allele_str p.1 +:+ ":" +:+ show p.2) pairs)
  end.

(** [pairs] lists the entries of the distribution [d], each once, by
    ascending allele. *)
Definition sorted_items {V : Type} (d : gmap allele V)
    (pairs : list (allele * V)) : Prop :=
  StronglySorted (λ a b, allele_lt a b = true) pairs.*1 ∧
  pairs ≡ₚ map_to_list d.

(** [field] is the table of the distribution [d], its values shown by
    [show]. *)
Definition table_field {V : Type} (show : V → string) (d : gmap allele V)
    (field : string) : Prop :=
  ∃ pairs, sorted_items d pairs ∧ field = table_of show pairs.

(** The frequency table with [P] digits after the point, as the claim
    about a configurable precision words it. *)
Definition afreq_table_at (P : nat) (allele_freqs : gmap allele pyfloat)
  : string :=
  table_of (format_fixed P)
    (map (λ a, (a, default (f_of_Z 0) (allele_freqs !! a)))
         (sorted (keys allele_freqs))).

End Tables.

(** ** Scaled fractions *)

(** The fraction [n / d / 10^e] as a numerator and a denominator. *)
Definition scaled (n : N) (d : positive) (e : Z) : N * N :=
  if 0 <=? e then (n, (Npos d * 10 ^ Z.to_N e)%N)
  else ((n * 10 ^ Z.to_N (- e))%N, Npos d).


(** ** The row as a function of the record *)

(** A field before it is written: a float, to be formatted, or a text. *)
Inductive field_value : Type :=
  | FloatField (v : pyfloat)
  | TextField (s : string).

(** What is written for a field. *)
Definition render (pf : fmt) (v : field_value) : result string :=
  match v with
  | FloatField v => format_nan_precision pf v
  | TextField s => Ok (TAB +:+ s)
  end.

(** The fields written for [vals], one after the other, up to the first
    value that cannot be rendered. *)
Fixpoint render_prefix (pf : fmt) (vals : list field_value) : list string :=
  match vals with
  | [] => []
  | v :: vs =>
      match render pf v with
      | Ok w => w :: render_prefix pf vs
      | Raise _ => []
      end
  end.

Section RowModel.
Context {allele : Type} `{Countable allele} `{!AlleleOps allele}.
Context (utils : Utils allele).

(** The values of the block of one statistic, one per group. *)
Definition stat_values (args : Args) (trrecord : TRRecord allele)
    (groups : list samplelist) (s : stat) : list field_value :=
  let uselength := args_use_length args in
  match s with
  | Thresh => map (λ sl, FloatField (GetMaxAllele trrecord sl)) groups
  | AFreq =>
      map (λ sl, TextField
                   (afreq_freqs_str (GetAlleleFreqs trrecord uselength sl)))
          groups
  | ACount =>
      map (λ sl, TextField
                   (afreq_counts_str (GetAlleleCounts trrecord uselength sl)))
          groups
  | HWEP =>
      map (λ sl, FloatField
                   (GetHardyWeinbergBinomialTest utils
                      (GetAlleleFreqs trrecord uselength sl)
                      (GetGenotypeCounts trrecord uselength sl)))
          groups
  | Het =>
      map (λ sl, FloatField
                   (GetHeterozygosity utils
                      (GetAlleleFreqs trrecord uselength sl)))
          groups
  | Entropy =>
      map (λ sl, FloatField
                   (utils_GetEntropy utils
                      (GetAlleleFreqs trrecord uselength sl)))
          groups
  | Mean =>
      map (λ sl, FloatField
                   (utils_GetMean utils (GetAlleleFreqs trrecord true sl)))
          groups
  | Mode =>
      map (λ sl, FloatField
                   (utils_GetMode utils (GetAlleleFreqs trrecord true sl)))
          groups
  | Var =>
      map (λ sl, FloatField
                   (utils_GetVariance utils (GetAlleleFreqs trrecord true sl)))
          groups
  | NumCalled =>
      map (λ sl, TextField
                   (str_int
                      (sum_values
                         (GetGenotypeCounts trrecord
                            GetGenotypeCounts_default_uselength sl))))
          groups
  end.

(** The values of the block of [s] in a run: none when the statistic is
    not requested. *)
Definition block_values (args : Args) (trrecord : TRRecord allele)
    (groups : list samplelist) (s : stat) : list field_value :=
  if requested args s then stat_values args trrecord groups s else [].

(** The values of a row, block after block. *)
Definition row_values (args : Args) (trrecord : TRRecord allele)
    (groups : list samplelist) : list field_value :=
  concat (map (block_values args trrecord groups) stat_order).

(** The first write of a row. *)
Definition coords_of (record : VcfRecord) (trrecord : TRRecord allele)
  : string :=
  CHROM record +:+ TAB +:+ str_int (POS record) +:+ TAB +:+
  str_int (POS record + Z.of_nat (String.length (ref_allele trrecord))).

(** The computer of [s] appends to an empty group list. *)
Definition appends_group (s : stat) : bool :=
  match s with
  | Thresh => false
  | _ => true
  end.

(** Some statistic among [done] is requested and its computer appends. *)
Definition some_appends (args : Args) (done : list stat) : bool :=
  existsb (λ s, requested args s && appends_group s) done.

(** The group list after the computers of [done] ran on [sl]. *)
Definition groups_after (args : Args) (done : list stat)
    (sl : list samplelist) : list samplelist :=
  if some_appends args done then append_None_if_empty sl else sl.

End RowModel.

(** ** Exact assertions on the loop *)

Section ExactAssertions.
Context {allele : Type} `{Countable allele} `{!AlleleOps allele}.
Context (utils : Utils allele).
Context (args : Args) (pf : fmt) (trrecord : TRRecord allele).

(** The statement [body] writes the fields of the values [vals] of the
    current group list and, when [mut], leaves the list with the group of
    all samples added if it was empty; it raises exactly when a value
    cannot be rendered, and has then written the fields before that value. *)
Definition exact_block (vals : list samplelist → list field_value)
    (mut : bool) (body : St allele → result unit * St allele) : Prop :=
  ∀ st,
    wp body
       (λ _ st', ∃ b, mapM_result (render pf) (vals (sample_lists st)) = Ok b ∧
                      written st' = written st ++ b ∧
                      sample_lists st'
                      = (if mut then append_None_if_empty (sample_lists st)
                         else sample_lists st) ∧
                      same_counters st st')
       (λ e st', mapM_result (render pf) (vals (sample_lists st)) = Raise e ∧
                 same_counters st st' ∧
                 written st'
                 = written st ++ render_prefix pf (vals (sample_lists st)))
       st.

(** The row begun in [st1] on the group list [sl0] has its coordinates
    and the blocks of the statistics [done] written. *)
Definition exact_so_far (st1 : St allele) (coords : string)
    (sl0 : list samplelist) (done : list stat) (st : St allele) : Prop :=
  ∃ fields,
    mapM_result (render pf)
      (concat (map (block_values utils args trrecord
                                 (append_None_if_empty sl0)) done))
    = Ok fields ∧
    written st = written st1 ++ coords :: fields ∧
    sample_lists st = groups_after args done sl0 ∧
    same_counters st1 st.

(** A value of the row could not be rendered: the coordinates and the
    fields before it are written. *)
Definition row_fails (st1 : St allele) (coords : string)
    (sl0 : list samplelist) (e : exn) (st : St allele) : Prop :=
  mapM_result (render pf)
    (row_values utils args trrecord (append_None_if_empty sl0)) = Raise e ∧
  same_counters st1 st ∧
  written st
  = written st1
    ++ coords :: render_prefix pf
                   (row_values utils args trrecord
                               (append_None_if_empty sl0)).

End ExactAssertions.

(** ** What one record does *)

Section RecordOutcome.
Context {allele : Type} `{Countable allele} `{!AlleleOps allele}.
Context {vcftype : Type}.
Context (utils : Utils allele) (env : Env allele vcftype).
Context (args : Args) (vt : vcftype) (sample_prefixes : list string)
        (pf : fmt) (record : VcfRecord).

(** The plot step of the loop body, from [st] to [st']: when plots are
    asked for and the counter has not passed [MAXPLOTS], the plot of the
    record on the current group list was made and counted; otherwise
    nothing was plotted. *)
Definition plot_effect (trrecord : TRRecord allele) (st st' : St allele)
  : Prop :=
  if args_plot_afreq args && (num_plotted st <=? MAXPLOTS)
  then ∃ p, PlotAlleleFreqs trrecord (args_out args) (sample_lists st)
                            sample_prefixes = Ok p ∧
            plotted st' = plotted st ++ [p] ∧
            num_plotted st' = num_plotted st + 1
  else plotted st' = plotted st ∧ num_plotted st' = num_plotted st.

(** The loop body ended normally: the record was harmonized, plotted if
    due, and its row written in full. *)
Definition record_written (st st' : St allele) : Prop :=
  ∃ trrecord fields,
    HarmonizeRecord env vt record = Ok trrecord ∧
    mapM_result (render pf)
      (row_values utils args trrecord
                  (append_None_if_empty (sample_lists st))) = Ok fields ∧
    written st' = written st ++ coords_of record trrecord :: fields ++ [NL] ∧
    sample_lists st' = groups_after args stat_order (sample_lists st) ∧
    nrecords st' = nrecords st + 1 ∧
    plot_effect trrecord st st'.

(** The loop body raised [e]: in the harmonizer, in the plot, or in the
    rendering of a value of the row, after the coordinates and the fields
    before that value were written. *)
Definition record_raised (e : exn) (st st' : St allele) : Prop :=
  nrecords st' = nrecords st + 1 ∧
  ((HarmonizeRecord env vt record = Raise e ∧
    written st' = written st ∧ plotted st' = plotted st ∧
    num_plotted st' = num_plotted st) ∨
   (∃ trrecord,
      HarmonizeRecord env vt record = Ok trrecord ∧
      args_plot_afreq args && (num_plotted st <=? MAXPLOTS) = true ∧
      PlotAlleleFreqs trrecord (args_out args) (sample_lists st)
                      sample_prefixes = Raise e ∧
      written st' = written st ∧ plotted st' = plotted st ∧
      num_plotted st' = num_plotted st) ∨
   (∃ trrecord,
      HarmonizeRecord env vt record = Ok trrecord ∧
      plot_effect trrecord st st' ∧
      mapM_result (render pf)
        (row_values utils args trrecord
                    (append_None_if_empty (sample_lists st))) = Raise e ∧
      written st'
      = written st
        ++ coords_of record trrecord
           :: render_prefix pf
                (row_values utils args trrecord
                            (append_None_if_empty (sample_lists st))))).

End RecordOutcome.

(** ** What a run of the loop does *)

Section LoopOutcome.
Context {allele : Type} `{Countable allele} `{!AlleleOps allele}.
Context {vcftype : Type}.
Context (utils : Utils allele) (env : Env allele vcftype).
Context (args : Args) (vt : vcftype) (sample_prefixes : list string)
        (pf : fmt).

(** [row] is the row of [record] in a run on the groups [groups]: the
    coordinates, the rendered values of the requested statistics, and the
    newline. *)
Definition row_of (groups : list samplelist) (record : VcfRecord)
    (row : list string) : Prop :=
  ∃ trrecord fields,
    HarmonizeRecord env vt record = Ok trrecord ∧
    mapM_result (render pf)
      (row_values utils args trrecord (append_None_if_empty groups))
    = Ok fields ∧
    row = coords_of record trrecord :: fields ++ [NL].

(** [p] is the plot of [record], made on the group list of the run as it
    was built or as a computer left it. *)
Definition plot_of (groups : list samplelist) (record : VcfRecord)
    (p : Plot allele) : Prop :=
  ∃ trrecord sl,
    HarmonizeRecord env vt record = Ok trrecord ∧
    (sl = groups ∨ sl = append_None_if_empty groups) ∧
    PlotAlleleFreqs trrecord (args_out args) sl sample_prefixes = Ok p.

(** The number of plots due over [k] records when the counter stands at
    [np]. *)
Definition plots_due (k : nat) (np : Z) : nat :=
  if args_plot_afreq args then Nat.min k (Z.to_nat (MAXPLOTS + 1 - np))
  else 0%nat.

(** The loop ran over [records] to its end. *)
Definition loop_written (records : list VcfRecord) (st st' : St allele)
  : Prop :=
  ∃ (rows : list (list string)) (ps : list (Plot allele)),
    written st' = written st ++ concat rows ∧
    Forall2 (row_of (sample_lists st)) records rows ∧
    nrecords st' = nrecords st + Z.of_nat (length records) ∧
    sample_lists st'
    = match records with
      | [] => sample_lists st
      | _ => groups_after args stat_order (sample_lists st)
      end ∧
    plotted st' = plotted st ++ ps ∧
    num_plotted st' = num_plotted st + Z.of_nat (length ps) ∧
    length ps = plots_due (length records) (num_plotted st) ∧
    Forall2 (plot_of (sample_lists st)) (take (length ps) records) ps.

(** The loop was left by an exception: without [--plot-afreq] nothing was
    plotted. *)
Definition loop_raised (st st' : St allele) : Prop :=
  args_plot_afreq args = false →
  plotted st' = plotted st ∧ num_plotted st' = num_plotted st.

End LoopOutcome.

(** ** The state a run starts the loop in *)

(** The header line is written, nothing is plotted, no record is read. *)
Definition initial_state {allele : Type} `{Countable allele}
    (args : Args) (groups : list samplelist) (sample_prefixes : list string)
  : St allele := {|
  sample_lists := groups;
  num_plotted := 0;
  nrecords := 0;
  written := [join TAB (main_header args sample_prefixes) +:+ NL];
  plotted := []
|}.

(** The records a run iterates over: those of the region when one is
    given, all those of the reader otherwise. *)
Definition main_region (args : Args) (invcf : Reader)
  : result (list VcfRecord) :=
  if truthy (args_region args)
  then reader_fetch invcf (default "" (args_region args))
  else Ok (reader_records invcf).

(** The type of the VCF: the one named by [--vcftype], or the one inferred
    from the reader when that is [auto]. *)
Definition main_vcftype {allele : Type} `{Countable allele} {vcftype : Type}
    (env : Env allele vcftype) (args : Args) (invcf : Reader)
  : result vcftype :=
  if negb (String.eqb (args_vcftype args) "auto")
  then VcfTypes env (args_vcftype args)
  else InferVCFType env invcf.

(** ** The characters of a float field *)

(** The characters a formatted float is made of: digits, the point, the
    signs, the e of an exponent and the letters of inf and nan. *)
Definition float_char (a : ascii) : bool :=
  is_digit a ||
  existsb (Ascii.eqb a) ["."; "-"; "+"; "e"; "i"; "n"; "f"; "a"]%char.

Fixpoint all_chars (p : ascii → bool) (s : string) : bool :=
  match s with
  | EmptyString => true
  | String a s' => p a && all_chars p s'
  end.

(** ** Reading a numeral *)

Definition digit_value (a : ascii) : N := (N_of_ascii a - 48)%N.

(** The number the digits [s] denote, after the digits that gave [acc]. *)
Fixpoint N_of_digits (acc : N) (s : string) : N :=
  match s with
  | EmptyString => acc
  | String a s' => N_of_digits (10 * acc + digit_value a) s'
  end.

(** The integer a decimal numeral with an optional minus sign denotes. *)
Definition int_of_str (s : string) : Z :=
  match s with
  | EmptyString => 0
  | String a s' =>
      if Ascii.eqb a "-" then - Z.of_N (N_of_digits 0 s')
      else Z.of_N (N_of_digits 0 s)
  end.

(** ** Further example runs *)

(** Two group files and no label. *)
Definition unlabelled_args : Args :=
  with_flags demo_args true false true false 3 (Some "f1,f2") None.

(** [--out stdout] with plots asked for. *)
Definition stdout_plot_args : Args :=
  with_flags (getargs_defaults "in.vcf" "stdout") true false false true 3
             None None.

(** No sample file; the frequency table and plots are asked for. *)
Definition plot_all_args : Args :=
  with_flags demo_args true true true true 3 None None.

(** Only [--use-length] of the Stats group. *)
Definition use_length_args : Args := {|
  args_vcf := "in.vcf"; args_out := "out"; args_vcftype := "auto";
  args_precision := 3;
  args_samples := None; args_sample_prefixes := None; args_region := None;
  args_thresh := false; args_afreq := false; args_acount := false;
  args_hwep := false; args_het := false; args_entropy := false;
  args_mean := false; args_mode := false; args_var := false;
  args_numcalled := false; args_use_length := true;
  args_plot_afreq := false
|}.

(** ** The command line check and the entry point *)

(** The dictionary [getargs] builds from the actions of the Stats group:
    every flag declared on [stat_group], [--use-length] among them. *)
Definition stat_dict (args : Args) : list (string * bool) :=
  [ ("thresh", args_thresh args); ("afreq", args_afreq args);
    ("acount", args_acount args); ("hwep", args_hwep args);
    ("het", args_het args); ("entropy", args_entropy args);
    ("mean", args_mean args); ("mode", args_mode args);
    ("var", args_var args); ("numcalled", args_numcalled args);
    ("use_length", args_use_length args) ].

(** [getargs], from the namespace the parser built: the namespace, or
    [None] with a warning when no flag of the Stats group is set. *)
Definition getargs (parsed : Args) : option Args * list string :=
  if negb (existsb snd (stat_dict parsed))
  then (None, ["Error: Please use at least one of the flags in the Stats group. See statSTR --help for options."])
  else (Some parsed, []).

Section Run.
Context {allele : Type} `{Countable allele} `{!AlleleOps allele}.
Context {vcftype : Type}.
Context (utils : Utils allele) (env : Env allele vcftype).

(** [run]: the status given to [sys.exit], or the exception [main] let
    escape; and the outcome of [main] when it was called. *)
Definition run (parsed : Args) : result Z * option (Outcome allele) :=
  match fst (getargs parsed) with
  | None => (Ok 1, None)
  | Some args =>
      let o := main utils env args in
      (retval o, Some o)
  end.

End Run.

(** The threshold and plots, without a sample file. *)
Definition thresh_plot_args : Args :=
  with_flags demo_args true false false true 3 None None.

(** Labels given without sample files. *)
Definition labels_only_args : Args :=
  with_flags demo_args true false true false 3 None (Some "A,B").


(** ** The plot of all samples *)

(** [p] is the plot of [trrecord] for the single group of all samples:
    what [PlotAlleleFreqs] hands over when it is given no group. *)
Definition all_samples_plot {allele : Type} `{Countable allele}
    (outprefix : string) (trrecord : TRRecord allele) (p : Plot allele)
  : Prop :=
  plot_fname p
  = outprefix +:+ "-" +:+ CHROM (vcfrecord trrecord) +:+ "-" +:+
    str_int (POS (vcfrecord trrecord)) +:+ ".pdf" ∧
  plot_labels p = ["sample"] ∧
  plot_freqs p = [GetAlleleFreqs trrecord true None].

(** ** The table, column by column *)

Section Table.
Context {allele : Type} `{Countable allele} `{!AlleleOps allele}.
Context (utils : Utils allele).







End Table.

Section TableRows.
Context {allele : Type} `{Countable allele} `{!AlleleOps allele}.
Context {vcftype : Type}.
Context (utils : Utils allele) (env : Env allele vcftype).
Context (args : Args) (vt : vcftype)
        (cols : list (option string * samplelist)).



End TableRows.

(** ** The rows written by a loop that raised *)

Section CutLoop.
Context {allele : Type} `{Countable allele} `{!AlleleOps allele}.
Context {vcftype : Type}.
Context (utils : Utils allele) (env : Env allele vcftype).
Context (args : Args) (vt : vcftype) (pf : fmt).



End CutLoop.
(** * Properties *)

(** ** The shared sample-group list *)

Section SampleLists.
Context {allele : Type} `{Countable allele} `{!AlleleOps allele}.
Context (utils : Utils allele).

Lemma append_None_if_empty_nil : append_None_if_empty [] = [None].
Proof. reflexivity. Qed.

Lemma append_None_if_empty_nonempty (samplelists : list samplelist) :
  samplelists ≠ [] → append_None_if_empty samplelists = samplelists.
Proof.
  intros Hne. unfold append_None_if_empty.
  destruct samplelists as [|sl rest]; [congruence|]. reflexivity.
Qed.

Lemma append_None_if_empty_length (samplelists : list samplelist) :
  length (append_None_if_empty samplelists)
  = match samplelists with [] => 1%nat | _ => length samplelists end.
Proof. destruct samplelists; reflexivity. Qed.

Lemma append_None_if_empty_idem (samplelists : list samplelist) :
  append_None_if_empty (append_None_if_empty samplelists)
  = append_None_if_empty samplelists.
Proof. destruct samplelists; reflexivity. Qed.

(** C6, on the code: called on the empty group list, as [main] calls them
    when no sample file is given, the eight statistic computers that start
    with [samplelists.append(None)] leave the caller's list holding one
    element; [GetThresh] and [PlotAlleleFreqs], which return no list, are
    the two that do not write to it. *)
Theorem stat_computers_append_to_empty_samplelists
    (trrecord : TRRecord allele) (count uselength : bool) :
  (GetAFreq trrecord [] count uselength).2 = [None] ∧
  (GetHWEP utils trrecord [] uselength).2 = [None] ∧
  (GetHet utils trrecord [] uselength).2 = [None] ∧
  (GetEntropy utils trrecord [] uselength).2 = [None] ∧
  (GetMean utils trrecord [] uselength).2 = [None] ∧
  (GetMode utils trrecord [] uselength).2 = [None] ∧
  (GetVariance utils trrecord [] uselength).2 = [None] ∧
  (GetNumSamples trrecord []).2 = [None].
Proof. repeat split. Qed.

(** A list that already holds a group is handed back as it was. *)
Lemma stat_computers_keep_nonempty_samplelists
    (trrecord : TRRecord allele) (samplelists : list samplelist)
    (count uselength : bool) :
  samplelists ≠ [] →
  (GetAFreq trrecord samplelists count uselength).2 = samplelists ∧
  (GetHWEP utils trrecord samplelists uselength).2 = samplelists ∧
  (GetHet utils trrecord samplelists uselength).2 = samplelists ∧
  (GetEntropy utils trrecord samplelists uselength).2 = samplelists ∧
  (GetMean utils trrecord samplelists uselength).2 = samplelists ∧
  (GetMode utils trrecord samplelists uselength).2 = samplelists ∧
  (GetVariance utils trrecord samplelists uselength).2 = samplelists ∧
  (GetNumSamples trrecord samplelists).2 = samplelists.
Proof.
  intros Hne. unfold GetAFreq, GetHWEP, GetHet, GetEntropy, GetMean, GetMode,
    GetVariance, GetNumSamples. cbn [snd].
  rewrite append_None_if_empty_nonempty by assumption. repeat split.
Qed.

(** ** The allele-length statistics and [--use-length] *)

(** C10: [GetMean], [GetMode] and [GetVariance] return the same whatever
    [uselength] they are given, each value being computed from the
    length-collapsed distribution of its group; and a run that asks for no
    statistic other than these (and the threshold and the number called)
    is the same run with [--use-length] and without it. *)
Theorem mean_mode_variance_ignore_uselength
    {vcftype : Type} (env : Env allele vcftype) (args : Args)
    (trrecord : TRRecord allele) (samplelists : list samplelist)
    (b1 b2 : bool) :
  GetMean utils trrecord samplelists b1 = GetMean utils trrecord samplelists b2 ∧
  GetMode utils trrecord samplelists b1 = GetMode utils trrecord samplelists b2 ∧
  GetVariance utils trrecord samplelists b1
    = GetVariance utils trrecord samplelists b2 ∧
  (GetMean utils trrecord samplelists b1).1
    = map (λ sl, utils_GetMean utils (GetAlleleFreqs trrecord true sl))
          (append_None_if_empty samplelists) ∧
  (GetMode utils trrecord samplelists b1).1
    = map (λ sl, utils_GetMode utils (GetAlleleFreqs trrecord true sl))
          (append_None_if_empty samplelists) ∧
  (GetVariance utils trrecord samplelists b1).1
    = map (λ sl, utils_GetVariance utils (GetAlleleFreqs trrecord true sl))
          (append_None_if_empty samplelists) ∧
  main utils env (length_free b1 args) = main utils env (length_free b2 args).
Proof. repeat split. Qed.

End SampleLists.

(** ** Configuration errors *)

Section Configuration.
Context {allele : Type} `{Countable allele} `{!AlleleOps allele}.
Context {vcftype : Type}.
Context (utils : Utils allele) (env : Env allele vcftype).

Lemma truthy_Some (s : string) : s ≠ "" → truthy (Some s) = true.
Proof.
  intros Hs. unfold truthy.
  destruct (String.eqb_spec s ""); [contradiction | reflexivity].
Qed.

Lemma load_samples_mismatch (args : Args) (s p : string) :
  args_samples args = Some s → s ≠ "" →
  args_sample_prefixes args = Some p → p ≠ "" →
  length (split COMMA s) ≠ length (split COMMA p) →
  load_samples env args = Mismatch.
Proof.
  intros Hs Hs' Hp Hp' Hlen. unfold load_samples.
  rewrite Hs, Hp, !truthy_Some by assumption. cbn [default id].
  destruct (Nat.eqb_spec (length (split COMMA s)) (length (split COMMA p)));
    [contradiction | reflexivity].
Qed.

(** C7, as the code has it: when [--samples] and [--sample-prefixes] are
    both given, as strings that are not empty, and split on commas into
    different numbers of items, [main] returns 1 and has opened no output
    stream: no header, no row, no plot, and no record was read. *)
Theorem mismatched_prefix_count_fails_before_output
    (args : Args) (s p : string) :
  args_samples args = Some s → s ≠ "" →
  args_sample_prefixes args = Some p → p ≠ "" →
  length (split COMMA s) ≠ length (split COMMA p) →
  retval (main utils env args) = Ok 1 ∧
  outf (main utils env args) = None.
Proof.
  intros Hs Hs' Hp Hp' Hlen. unfold main.
  destruct (negb (os_path_exists env (args_vcf args))); [split; reflexivity|].
  destruct (negb (out_dir_exists env (args_out args))); [split; reflexivity|].
  destruct (os_path_isdir env (args_out args) && endswith (args_out args) "/");
    [split; reflexivity|].
  rewrite (load_samples_mismatch args s p) by assumption.
  split; reflexivity.
Qed.

End Configuration.

Lemma mismatched_prefix_count_witness :
  retval (main demo_utils (demo_env (loci 2))
            (with_flags demo_args true true true true 3
                        (Some "f1,f2") (Some "A"))) = Ok 1 ∧
  outf (main demo_utils (demo_env (loci 2))
          (with_flags demo_args true true true true 3
                      (Some "f1,f2") (Some "A"))) = None.
Proof.
  apply (mismatched_prefix_count_fails_before_output demo_utils
           (demo_env (loci 2)) _ "f1,f2" "A");
    [reflexivity | discriminate | reflexivity | discriminate
    | vm_compute; lia].
Defined.

(** C7, as stated, fails: with two labels and no sample file the numbers
    differ, yet the labels are not looked at. The run returns 0 and writes
    the header, without any label, and the rows of both loci. *)
Lemma labels_without_samples_run :
  args_samples labels_only_args = None ∧
  args_sample_prefixes labels_only_args = Some "A,B" ∧
  retval (main demo_utils (demo_env (loci 2)) labels_only_args) = Ok 0 ∧
  (λ st, (nrecords st, written st))
    <$> final_state (main demo_utils (demo_env (loci 2)) labels_only_args)
  = Some (2,
          [ "chrom" +:+ TAB +:+ "start" +:+ TAB +:+ "end" +:+ TAB +:+
            "thresh" +:+ TAB +:+ "mean" +:+ NL;
            "chr1" +:+ TAB +:+ "100" +:+ TAB +:+ "109";
            TAB +:+ "11.0"; TAB +:+ "10.5"; NL;
            "chr1" +:+ TAB +:+ "200" +:+ TAB +:+ "209";
            TAB +:+ "11.0"; TAB +:+ "10.5"; NL ]).
Proof. repeat split; vm_compute; reflexivity. Qed.

(** ** Numerals *)

Lemma digit_char_is_digit (d : N) : (d < 10)%N → is_digit (digit_char d) = true.
Proof.
  intros Hd.
  assert (Hc : d = 0%N ∨ d = 1%N ∨ d = 2%N ∨ d = 3%N ∨ d = 4%N ∨ d = 5%N ∨
               d = 6%N ∨ d = 7%N ∨ d = 8%N ∨ d = 9%N) by lia.
  repeat (destruct Hc as [-> | Hc]; [reflexivity|]). subst. reflexivity.
Qed.

Lemma mod_10_lt (n : N) : (n mod 10 < 10)%N.
Proof. apply N.mod_lt. discriminate. Qed.

Lemma digits_go_head (fuel : nat) (n : N) (acc : string) :
  fuel ≠ O → head_is is_digit (digits_go fuel n acc).
Proof.
  revert n acc. induction fuel as [|f IH]; intros n acc Hf; [congruence|].
  cbn [digits_go]. destruct (n <? 10)%N.
  - cbn. apply digit_char_is_digit, mod_10_lt.
  - destruct f as [|f'].
    + cbn. apply digit_char_is_digit, mod_10_lt.
    + apply IH. discriminate.
Qed.

Lemma str_N_head (n : N) : head_is is_digit (str_N n).
Proof. apply digits_go_head. discriminate. Qed.

Lemma strip_zeros_head (p : ascii → bool) (s : string) :
  head_is p s → strip_zeros s = EmptyString ∨ head_is p (strip_zeros s).
Proof.
  destruct s as [|a s']; [intros []|]. cbn [head_is strip_zeros]. intros Ha.
  destruct (strip_zeros s').
  - destruct (Ascii.eqb a "0"); [left; reflexivity | right; exact Ha].
  - right. exact Ha.
Qed.

Lemma digits_of_head (n : N) : head_is is_digit (digits_of n).
Proof.
  unfold digits_of.
  destruct (strip_zeros_head is_digit (str_N n) (str_N_head n)) as [-> | Hh].
  - reflexivity.
  - destruct (strip_zeros (str_N n)); [destruct Hh | exact Hh].
Qed.

Lemma head_is_append (p : ascii → bool) (s t : string) :
  head_is p s → head_is p (s +:+ t).
Proof. destruct s; [intros [] | intros Hs; exact Hs]. Qed.

Lemma head_is_substring (p : ascii → bool) (s : string) (k : nat) :
  head_is p s → k ≠ O → head_is p (String.substring 0 k s).
Proof.
  destruct s as [|a s']; [intros [] |]. intros Ha Hk.
  destruct k; [congruence | exact Ha].
Qed.

Lemma layout_general_head (P : Z) (ds : string) (decpt : Z) :
  head_is is_digit ds → head_is is_digit (layout_general P ds decpt).
Proof.
  intros Hds. unfold layout_general.
  destruct ((decpt <=? -4) || (P - 1 <? decpt)).
  - destruct ds as [|a [|b rest]]; [destruct Hds | exact Hds | exact Hds].
  - destruct (Z.leb_spec decpt 0); [reflexivity|].
    destruct (decpt <? Z.of_nat (String.length ds)).
    + apply head_is_append, head_is_substring; [assumption | lia].
    + apply head_is_append. assumption.
Qed.

Lemma general_digits_head (P : Z) (n : N) (d : positive) :
  head_is is_digit (general_digits P n d).
Proof.
  unfold general_digits. destruct (round_sig P n d) as [m X].
  apply layout_general_head, digits_of_head.
Qed.

Lemma format_general_head (P : Z) (v : pyfloat) (s : string) :
  isnan v = false → format_general P v = Ok s → head_is numeric_head s.
Proof.
  intros Hv. unfold format_general.
  destruct (P <? 0); [discriminate|]. destruct (INT_MAX <? P); [discriminate|].
  intros [= <-]. destruct v as [|neg|neg n d]; [discriminate| |].
  - destruct neg; reflexivity.
  - destruct neg; [reflexivity|]. cbn.
    pose proof (general_digits_head (Z.max P 1) n d) as Hh.
    destruct (general_digits (Z.max P 1) n d) as [|a rest]; [destruct Hh|].
    change (numeric_head a = true). change (is_digit a = true) in Hh.
    unfold numeric_head. rewrite Hh. reflexivity.
Qed.

(** ** The undefined marker *)

(** C2, as the code has it: a statistic is written as the delimiter
    followed by the word nan exactly when it is not-a-number, whatever the
    precision; no number is written that way. *)
Theorem nan_field_iff_isnan (args : Args) (val : pyfloat) :
  format_nan_precision (main_precision_format args) val = Ok (TAB +:+ "nan")
  ↔ isnan val = true.
Proof.
  split.
  - unfold format_nan_precision. destruct (isnan val) eqn:Hnan; [reflexivity|].
    unfold str_format, main_precision_format. cbn [fmt_prefix fmt_precision].
    destruct (format_general (args_precision args) val) as [s|e] eqn:Hs;
      [|discriminate].
    apply format_general_head in Hs; [|assumption].
    cbn [result_bind]. intros [= Heq]. change (s = "nan") in Heq.
    subst s. cbn in Hs. discriminate.
  - intros Hnan. unfold format_nan_precision. rewrite Hnan. reflexivity.
Qed.

(** C2, as stated, fails: the marker after the delimiter is the bare word
    nan. *)
Lemma nan_marker_is_bare_nan :
  ¬ ∃ marker : string,
      marker ≠ "nan" ∧
      format_nan_precision (main_precision_format demo_args) FNan
      = Ok (TAB +:+ marker).
Proof.
  intros (marker & Hne & [= Heq]). change ("nan" = marker) in Heq.
  congruence.
Qed.

(** ** Statements and their effects *)

Section Statements.
Context {allele : Type} `{Countable allele} `{!AlleleOps allele}.

Implicit Types st : St allele.

Lemma wp_ret {A} (a : A) (Q : A → St allele → Prop) E st :
  Q a st → wp (ret a) Q E st.
Proof. intros HQ. exact HQ. Qed.

Lemma wp_bind {A B} (m : St allele → result A * St allele)
    (k : A → St allele → result B * St allele) Q E st :
  wp m (λ a st', wp (k a) Q E st') E st → wp (bind m k) Q E st.
Proof.
  unfold wp, bind. destruct (m st) as [[a|e] st']; intros Hm; exact Hm.
Qed.

Lemma wp_mono {A} (m : St allele → result A * St allele)
    (Q Q' : A → St allele → Prop) (E E' : exn → St allele → Prop) st :
  wp m Q E st →
  (∀ a st', Q a st' → Q' a st') → (∀ e st', E e st' → E' e st') →
  wp m Q' E' st.
Proof.
  unfold wp. destruct (m st) as [[a|e] st']; intros Hm HQ HE; auto.
Qed.

Lemma wp_lift {A} (r : result A) (Q : A → St allele → Prop) E st :
  match r with Ok a => Q a st | Raise e => E e st end → wp (lift r) Q E st.
Proof. unfold wp, lift. destruct r; intros Hr; exact Hr. Qed.

Lemma wp_when (b : bool) (body : St allele → result unit * St allele)
    (Q : unit → St allele → Prop) E st :
  (b = true → wp body Q E st) → (b = false → Q tt st) →
  wp (when b body) Q E st.
Proof. destruct b; intros Ht Hf; [apply Ht | apply Hf]; reflexivity. Qed.

Lemma same_vars_refl st : same_vars st st.
Proof. repeat split. Qed.

Lemma is_field_TAB (text : string) : is_field (TAB +:+ text).
Proof. exists text. reflexivity. Qed.

Lemma format_nan_precision_is_field (pf : fmt) (val : pyfloat) (s : string) :
  fmt_prefix pf = TAB → format_nan_precision pf val = Ok s → is_field s.
Proof.
  intros Hpf. unfold format_nan_precision, str_format.
  destruct (isnan val).
  - intros [= <-]. apply is_field_TAB.
  - destruct (format_general (fmt_precision pf) val) as [t|e]; [|discriminate].
    cbn [result_bind]. intros [= <-]. rewrite Hpf. apply is_field_TAB.
Qed.

(** The loop that writes the float fields of one block: one field per
    value; if a value cannot be formatted, the fields before it stay
    written. *)
Lemma write_floats_spec (pf : fmt) (vals : list pyfloat) st :
  fmt_prefix pf = TAB →
  wp (write_floats pf vals)
     (λ _ st', ∃ b, written st' = written st ++ b ∧
                    field_block (length vals) b ∧ same_vars st st')
     (λ _ st', ∃ b, written st' = written st ++ b ∧ Forall is_field b ∧
                    same_vars st st')
     st.
Proof.
  intros Hpf. revert st. induction vals as [|val vals IH]; intros st.
  - apply wp_ret. exists []. rewrite app_nil_r.
    repeat split; constructor.
  - unfold write_floats. cbn [for_each]. apply wp_bind, wp_bind, wp_lift.
    destruct (format_nan_precision pf val) as [s|e] eqn:Hs.
    + apply format_nan_precision_is_field in Hs; [|assumption].
      unfold wp at 1, write.
      eapply wp_mono; [apply IH | |]; cbn.
      * intros _ st' (b & Hw & [Hlen Hb] & Hsame). exists (s :: b).
        rewrite Hw, <- app_assoc. repeat split; cbn; auto.
        all: try apply Hsame.
      * intros _ st' (b & Hw & Hb & Hsame). exists (s :: b).
        rewrite Hw, <- app_assoc. repeat split; cbn; auto.
        all: try apply Hsame.
    + exists []. rewrite app_nil_r. repeat split; constructor.
Qed.

Lemma write_strs_spec (vals : list string) st :
  wp (write_strs vals)
     (λ _ st', ∃ b, written st' = written st ++ b ∧
                    field_block (length vals) b ∧ same_vars st st')
     (λ _ _, False)
     st.
Proof.
  revert st. induction vals as [|val vals IH]; intros st.
  - apply wp_ret. exists []. rewrite app_nil_r. repeat split; constructor.
  - unfold write_strs. cbn [for_each]. apply wp_bind.
    unfold wp at 1, write.
    eapply wp_mono; [apply IH | |]; cbn; [|auto].
    intros _ st' (b & Hw & [Hlen Hb] & Hsame). exists ((TAB +:+ val) :: b).
    rewrite Hw, <- app_assoc. repeat split; cbn; auto using is_field_TAB.
    all: try apply Hsame.
Qed.

(** A call of a computer: the value it returns and the list it leaves. *)
Lemma call_spec {A} (f : list samplelist → A * list samplelist)
    (Q : A → St allele → Prop) E st :
  (∀ st', sample_lists st' = (f (sample_lists st)).2 →
          written st' = written st → same_counters st st' →
          Q (f (sample_lists st)).1 st') →
  wp (call f) Q E st.
Proof.
  intros HQ. unfold wp, call, bind, get_sample_lists, set_sample_lists, ret.
  destruct (f (sample_lists st)) as [v sl'] eqn:Hf. apply HQ; cbn.
  - reflexivity.
  - reflexivity.
  - repeat split.
Qed.

End Statements.

(** ** Groups and columns *)

Section Columns.
Context {allele : Type} `{Countable allele} `{!AlleleOps allele}.
Context (utils : Utils allele).

Lemma GetHeader_length (header : string) (sample_prefixes : list string) :
  length (GetHeader header sample_prefixes) = ncols sample_prefixes.
Proof.
  unfold ncols, GetHeader.
  destruct (decide (length sample_prefixes = 0%nat)); [reflexivity|].
  rewrite !length_map. reflexivity.
Qed.

Lemma ncols_nil : ncols [] = 1%nat.
Proof. reflexivity. Qed.

Lemma ncols_nonempty (sample_prefixes : list string) :
  sample_prefixes ≠ [] → ncols sample_prefixes = length sample_prefixes.
Proof.
  intros Hne. destruct sample_prefixes as [|sp rest]; [congruence|].
  unfold ncols, GetHeader.
  destruct (decide (length (sp :: rest) = 0%nat)) as [Heq|_];
    [discriminate Heq|].
  rewrite length_map. reflexivity.
Qed.

Lemma groups_agree_append (sample_prefixes : list string)
    (sample_lists : list samplelist) :
  groups_agree sample_prefixes sample_lists →
  groups_agree sample_prefixes (append_None_if_empty sample_lists) ∧
  length (append_None_if_empty sample_lists) = ncols sample_prefixes.
Proof.
  intros [[Hne Hlen] | [-> [-> | ->]]].
  - rewrite append_None_if_empty_nonempty.
    + split; [left; auto | rewrite ncols_nonempty; auto].
    + destruct sample_lists; [|discriminate].
      destruct sample_prefixes; [congruence | discriminate].
  - split; [right; auto | reflexivity].
  - split; [right; auto | reflexivity].
Qed.

Lemma GetThresh_length (trrecord : TRRecord allele)
    (sample_prefixes : list string) (sample_lists : list samplelist) :
  groups_agree sample_prefixes sample_lists →
  length (GetThresh trrecord sample_lists) = ncols sample_prefixes.
Proof.
  intros Hg. destruct (groups_agree_append _ _ Hg) as [_ Hlen].
  unfold GetThresh. destruct sample_lists as [|sl rest]; [exact Hlen|].
  cbn [length decide]. rewrite append_None_if_empty_nonempty in Hlen by done.
  destruct (decide _) as [Heq|_]; [discriminate Heq|].
  rewrite length_map. exact Hlen.
Qed.

Lemma GetAFreq_per_group trrecord count uselength :
  per_group (λ sl, GetAFreq trrecord sl count uselength).
Proof. intros sl. unfold GetAFreq. cbn. rewrite length_map. done. Qed.

Lemma GetHWEP_per_group trrecord uselength :
  per_group (λ sl, GetHWEP utils trrecord sl uselength).
Proof. intros sl. unfold GetHWEP. cbn. rewrite length_map. done. Qed.

Lemma GetHet_per_group trrecord uselength :
  per_group (λ sl, GetHet utils trrecord sl uselength).
Proof. intros sl. unfold GetHet. cbn. rewrite length_map. done. Qed.

Lemma GetEntropy_per_group trrecord uselength :
  per_group (λ sl, GetEntropy utils trrecord sl uselength).
Proof. intros sl. unfold GetEntropy. cbn. rewrite length_map. done. Qed.

Lemma GetMean_per_group trrecord uselength :
  per_group (λ sl, GetMean utils trrecord sl uselength).
Proof. intros sl. unfold GetMean. cbn. rewrite length_map. done. Qed.

Lemma GetMode_per_group trrecord uselength :
  per_group (λ sl, GetMode utils trrecord sl uselength).
Proof. intros sl. unfold GetMode. cbn. rewrite length_map. done. Qed.

Lemma GetVariance_per_group trrecord uselength :
  per_group (λ sl, GetVariance utils trrecord sl uselength).
Proof. intros sl. unfold GetVariance. cbn. rewrite length_map. done. Qed.

Lemma GetNumSamples_per_group (trrecord : TRRecord allele) :
  per_group (λ sl, GetNumSamples trrecord sl).
Proof. intros sl. unfold GetNumSamples. cbn. rewrite length_map. done. Qed.

End Columns.

(** ** The blocks of a row *)

Section Blocks.
Context {allele : Type} `{Countable allele} `{!AlleleOps allele}.
Context (sample_prefixes : list string) (pf : fmt).
Context (Hpf : fmt_prefix pf = TAB).

Implicit Types st : St allele.

Lemma same_counters_trans st1 st2 st3 :
  same_counters st1 st2 → same_counters st2 st3 → same_counters st1 st3.
Proof.
  intros (H1 & H2 & H3) (H4 & H5 & H6). repeat split; congruence.
Qed.

Lemma same_vars_counters st1 st2 : same_vars st1 st2 → same_counters st1 st2.
Proof. intros (_ & H1 & H2 & H3). repeat split; assumption. Qed.

Lemma when_block (b : bool) (n : nat)
    (body : St allele → result unit * St allele) :
  emits_block sample_prefixes n body →
  emits_block sample_prefixes (if b then n else 0%nat) (when b body).
Proof.
  intros Hbody. destruct b; [exact Hbody|].
  intros st Hg. apply wp_ret. exists []. rewrite app_nil_r.
  repeat split; auto.
Qed.

Lemma floats_call_block (f : list samplelist → list pyfloat * list samplelist) :
  per_group f →
  emits_block (allele:=allele) sample_prefixes (ncols sample_prefixes)
              (bind (call f) (λ vals, write_floats pf vals)).
Proof.
  intros Hf st Hg. destruct (Hf (sample_lists st)) as [Hlen Hsl].
  destruct (groups_agree_append _ _ Hg) as [Hg' Hn].
  apply wp_bind, call_spec. intros st1 Hsl1 Hw1 Hc1.
  eapply wp_mono; [apply write_floats_spec; exact Hpf | |]; cbn beta.
  - intros _ st' (b & Hw & [Hb1 Hb2] & Hsame). exists b.
    split; [congruence|]. split; [split; [congruence | exact Hb2]|].
    split.
    + destruct Hsame as (-> & _). rewrite Hsl1, Hsl. exact Hg'.
    + eapply same_counters_trans; [exact Hc1 | apply same_vars_counters, Hsame].
  - intros _ st' (b & Hw & Hb & Hsame). exists b.
    split; [congruence|]. split; [exact Hb|]. split.
    + destruct Hsame as (-> & _). rewrite Hsl1, Hsl. exact Hg'.
    + eapply same_counters_trans; [exact Hc1 | apply same_vars_counters, Hsame].
Qed.

Lemma strs_call_block {A} (f : list samplelist → list A * list samplelist)
    (g : list A → list string) :
  per_group f → (∀ vals, length (g vals) = length vals) →
  emits_block (allele:=allele) sample_prefixes (ncols sample_prefixes)
              (bind (call f) (λ vals, write_strs (g vals))).
Proof.
  intros Hf Hgl st Hg. destruct (Hf (sample_lists st)) as [Hlen Hsl].
  destruct (groups_agree_append _ _ Hg) as [Hg' Hn].
  apply wp_bind, call_spec. intros st1 Hsl1 Hw1 Hc1.
  eapply wp_mono; [apply write_strs_spec | |]; cbn beta; [|intros _ _ []].
  intros _ st' (b & Hw & [Hb1 Hb2] & Hsame). exists b.
  split; [congruence|]. split; [split; [|exact Hb2]|].
  - rewrite Hb1, Hgl. congruence.
  - split.
    + destruct Hsame as (-> & _). rewrite Hsl1, Hsl. exact Hg'.
    + eapply same_counters_trans; [exact Hc1 | apply same_vars_counters, Hsame].
Qed.

Lemma thresh_block (trrecord : TRRecord allele) :
  emits_block (allele:=allele) sample_prefixes (ncols sample_prefixes)
    (bind get_sample_lists
          (λ sl, write_floats pf (GetThresh trrecord sl))).
Proof.
  intros st Hg. apply wp_bind. unfold wp at 1, get_sample_lists.
  eapply wp_mono; [apply write_floats_spec; exact Hpf | |]; cbn beta.
  - intros _ st' (b & Hw & [Hb1 Hb2] & Hsame). exists b.
    split; [exact Hw|]. split; [split; [|exact Hb2]|].
    + rewrite Hb1. eapply GetThresh_length, Hg.
    + split; [destruct Hsame as (-> & _); exact Hg
             | apply same_vars_counters, Hsame].
  - intros _ st' (b & Hw & Hb & Hsame). exists b.
    split; [exact Hw|]. split; [exact Hb|].
    split; [destruct Hsame as (-> & _); exact Hg
           | apply same_vars_counters, Hsame].
Qed.

End Blocks.

(** ** One record of the loop *)

Section Rows.
Context {allele : Type} `{Countable allele} `{!AlleleOps allele}.
Context {vcftype : Type}.
Context (utils : Utils allele) (env : Env allele vcftype).
Context (args : Args) (sample_prefixes : list string) (pf : fmt).
Context (Hpf : fmt_prefix pf = TAB).

Implicit Types st : St allele.

Lemma is_field_not_NL (w : string) : is_field w → w ≠ NL.
Proof. intros [text ->]. discriminate. Qed.

Lemma coords_not_NL (chrom start stop : string) :
  chrom +:+ TAB +:+ start +:+ TAB +:+ stop ≠ NL.
Proof.
  destruct chrom as [|c chrom]; [discriminate|].
  intros [= _ Heq]. destruct chrom; discriminate Heq.
Qed.

Lemma field_blocks_concat (widths : list stat) (blocks : list (list string)) :
  Forall2 (λ s b, field_block (block_width args sample_prefixes s) b)
          widths blocks →
  Forall is_field (concat blocks).
Proof.
  induction 1 as [|s b widths blocks [_ Hb] _ IH]; cbn; [constructor|].
  apply Forall_app. split; assumption.
Qed.

Lemma fields_unfinished (part : list string) :
  Forall is_field part → unfinished part.
Proof.
  unfold unfinished. intros Hall Hin.
  rewrite Forall_forall in Hall. apply (is_field_not_NL NL); auto.
Qed.

(** One more block on the row. *)
Lemma row_step st0 (done : list stat) (s : stat) (b : bool)
    (body : St allele → result unit * St allele) st :
  requested args s = b →
  emits_block sample_prefixes (ncols sample_prefixes) body →
  row_so_far args sample_prefixes st0 done st →
  wp (when b body)
     (λ _ st', row_so_far args sample_prefixes st0 (done ++ [s]) st')
     (λ _ st', row_abandoned sample_prefixes st0 st')
     st.
Proof.
  intros Hreq Hbody (coords & blocks & Hw & Hc & Hbs & Hg & Hcnt).
  pose proof (when_block sample_prefixes b _ _ Hbody) as Hm.
  eapply wp_mono; [apply Hm, Hg | |]; cbn beta.
  - intros _ st' (blk & Hw' & Hfb & Hg' & Hcnt').
    exists coords, (blocks ++ [blk]). split.
    { rewrite Hw', Hw, concat_app. cbn [concat]. rewrite app_nil_r.
      rewrite <- app_assoc. reflexivity. }
    split; [exact Hc|]. split.
    { apply Forall2_app; [exact Hbs|]. constructor; [|constructor].
      unfold block_width. rewrite Hreq. exact Hfb. }
    split; [exact Hg' | eapply same_counters_trans; eassumption].
  - intros _ st' (blk & Hw' & Hfb & Hg' & Hcnt').
    exists (coords :: concat blocks ++ blk). split.
    { rewrite Hw', Hw, <- app_assoc. reflexivity. }
    split.
    { unfold unfinished. apply not_elem_of_cons. split; [congruence|].
      apply fields_unfinished, Forall_app. split; [|exact Hfb].
      eapply field_blocks_concat, Hbs. }
    split; [exact Hg' | eapply same_counters_trans; eassumption].
Qed.

(** The newline closes a row that has all its blocks. *)
Lemma row_finish st0 st :
  row_so_far args sample_prefixes st0 stat_order st →
  row_done args sample_prefixes st0
    {| sample_lists := sample_lists st; num_plotted := num_plotted st;
       nrecords := nrecords st; written := written st ++ [NL];
       plotted := plotted st |}.
Proof.
  intros (coords & blocks & Hw & Hc & Hbs & Hg & Hcnt).
  exists (coords :: concat blocks ++ [NL]). cbn [written sample_lists].
  split; [rewrite Hw, <- app_assoc; reflexivity|].
  split; [|split; [exact Hg | exact Hcnt]].
  exists coords, blocks. split; [reflexivity|].
  unfold header_blocks. apply Forall2_fmap_l.
  eapply Forall2_impl; [exact Hbs|]. cbn beta.
  intros s b [Hlen Hb]. split; [|exact Hb].
  rewrite Hlen. unfold block_width.
  destruct (requested args s); [|reflexivity].
  symmetry. apply GetHeader_length.
Qed.

Ltac next_block s blk :=
  apply wp_bind;
  eapply wp_mono;
  [ eapply (row_step _ _ s); [reflexivity | apply blk | eassumption]
  | cbn beta; intros _ ? ?
  | cbn beta; intros _ ? ?; eauto ].

Lemma process_record_spec (vt : vcftype) (record : VcfRecord) st :
  loop_inv sample_prefixes st →
  wp (process_record utils env args vt sample_prefixes pf record)
     (λ _ st', record_done args sample_prefixes st st')
     (λ _ st', record_failed sample_prefixes st st') st.
Proof.
  intros (Hg & Hpc & Hmax). unfold process_record.
  apply wp_bind. unfold wp at 1, incr_nrecords.
  apply wp_bind, wp_lift.
  destruct (HarmonizeRecord env vt record) as [trrecord|e].
  2:{ exists []. rewrite app_nil_r. cbn. repeat split; auto.
      unfold unfinished. apply not_elem_of_nil. }
  apply wp_bind. unfold wp at 1, get_num_plotted. cbn [num_plotted].
  apply wp_bind.
  eapply wp_mono with
    (Q := λ _ st1, written st1 = written st ∧ loop_inv sample_prefixes st1 ∧
                   nrecords st1 = nrecords st + 1)
    (E := λ _ st', record_failed sample_prefixes st st').
  { apply wp_when.
    - intros Hplot. apply andb_prop in Hplot as [_ Hle].
      apply Z.leb_le in Hle.
      apply wp_bind. unfold wp at 1, get_sample_lists.
      apply wp_bind, wp_lift. cbn [sample_lists].
      destruct (PlotAlleleFreqs trrecord (args_out args) (sample_lists st)
                                sample_prefixes) as [p|e].
      + unfold wp, record_plot. cbn.
        split; [reflexivity|]. split; [|reflexivity].
        split; [exact Hg|]. unfold plots_counted, MAXPLOTS in *. cbn.
        rewrite length_app. cbn. lia.
      + exists []. rewrite app_nil_r. cbn. repeat split; auto.
        unfold unfinished. apply not_elem_of_nil.
    - intros _. cbn. repeat split; auto. }
  2:{ auto. }
  cbn beta. intros _ st1 (Hw1 & (Hg1 & Hpc1 & Hmax1) & Hn1).
  assert (Hfail : ∀ st', row_abandoned sample_prefixes st1 st' →
                         record_failed sample_prefixes st st').
  { intros st' (part & Hw & Hun & Hg' & Hc1 & Hc2 & Hc3).
    exists part. split; [congruence|]. split; [exact Hun|].
    split; [|congruence].
    split; [exact Hg'|]. unfold plots_counted in *.
    split; [congruence | congruence]. }
  apply wp_bind. unfold wp at 1, write.
  match goal with |- wp _ _ _ ?s => set (st2 := s) end.
  assert (Hrow : row_so_far args sample_prefixes st1 [] st2).
  { eexists _, []. split; [reflexivity|].
    split; [apply coords_not_NL|]. split; [constructor|].
    split; [exact Hg1 | repeat split]. }
  clearbody st2.
  next_block Thresh (thresh_block sample_prefixes pf Hpf trrecord).
  next_block AFreq (strs_call_block (allele:=allele) sample_prefixes
    (λ sl, GetAFreq trrecord sl false (args_use_length args)) (λ vals, vals));
    [apply GetAFreq_per_group | reflexivity |].
  next_block ACount (strs_call_block (allele:=allele) sample_prefixes
    (λ sl, GetAFreq trrecord sl true (args_use_length args)) (λ vals, vals));
    [apply GetAFreq_per_group | reflexivity |].
  next_block HWEP (floats_call_block (allele:=allele) sample_prefixes pf Hpf);
    [apply GetHWEP_per_group |].
  next_block Het (floats_call_block (allele:=allele) sample_prefixes pf Hpf);
    [apply GetHet_per_group |].
  next_block Entropy (floats_call_block (allele:=allele) sample_prefixes pf Hpf);
    [apply GetEntropy_per_group |].
  next_block Mean (floats_call_block (allele:=allele) sample_prefixes pf Hpf);
    [apply GetMean_per_group |].
  next_block Mode (floats_call_block (allele:=allele) sample_prefixes pf Hpf);
    [apply GetMode_per_group |].
  next_block Var (floats_call_block (allele:=allele) sample_prefixes pf Hpf);
    [apply GetVariance_per_group |].
  next_block NumCalled (strs_call_block (allele:=allele) sample_prefixes
    (λ sl, GetNumSamples trrecord sl) (λ vals, map str_int vals));
    [apply GetNumSamples_per_group | intros; apply length_map |].
  unfold wp, write.
  match goal with Hr : row_so_far _ _ _ _ ?s |- _ =>
    destruct (row_finish st1 s Hr) as (row & Hw & Hal & Hg' & Hc1 & Hc2 & Hc3)
  end.
  exists row. split; [cbn [written] in *; congruence|].
  split; [exact Hal|]. cbn [sample_lists num_plotted nrecords plotted] in *.
  split; [|congruence].
  split; [exact Hg'|]. unfold plots_counted in *. cbn.
  split; congruence.
Qed.

End Rows.

(** ** The loop and the run *)

Section Run.
Context {allele : Type} `{Countable allele} `{!AlleleOps allele}.
Context {vcftype : Type}.
Context (utils : Utils allele) (env : Env allele vcftype).

Implicit Types st : St allele.

Lemma loop_spec (args : Args) (sample_prefixes : list string) (pf : fmt)
    (vt : vcftype) (records : list VcfRecord) st :
  fmt_prefix pf = TAB →
  loop_inv sample_prefixes st →
  wp (for_each records
        (process_record utils env args vt sample_prefixes pf))
     (λ _ st', loop_done args sample_prefixes (length records) st st')
     (λ _ st', loop_failed args sample_prefixes (length records) st st')
     st.
Proof.
  intros Hpf. revert st. induction records as [|record records IH]; intros st Hinv.
  - apply wp_ret. exists []. cbn. rewrite app_nil_r, Z.add_0_r.
    split; [reflexivity|]. split; [constructor|]. auto.
  - cbn [for_each]. apply wp_bind.
    eapply wp_mono;
      [apply (process_record_spec utils env args sample_prefixes pf Hpf);
       exact Hinv | |]; cbn beta.
    + intros _ st1 (row & Hw1 & Hal1 & Hinv1 & Hn1).
      eapply wp_mono; [apply IH; exact Hinv1 | |]; cbn beta.
      * intros _ st' (rows & Hw & Hal & Hlen & Hinv' & Hn).
        exists (row :: rows). cbn [concat length].
        split; [rewrite Hw, Hw1, <- app_assoc; reflexivity|].
        split; [constructor; assumption|].
        split; [congruence|]. split; [exact Hinv'|]. lia.
      * intros _ st' (rows & part & Hw & Hal & Hun & Hlen & Hinv' & Hn).
        exists (row :: rows), part. cbn [concat length].
        split; [rewrite Hw, Hw1, <- !app_assoc; reflexivity|].
        split; [constructor; assumption|].
        split; [exact Hun|]. split; [lia|]. split; [exact Hinv'|]. lia.
    + intros _ st' (part & Hw & Hun & Hinv' & Hn).
      exists [], part. cbn [concat length app].
      split; [exact Hw|]. split; [constructor|].
      split; [exact Hun|]. split; [lia|]. split; [exact Hinv'|]. lia.
Qed.



Lemma split_nonempty (c : ascii) (s : string) : split c s ≠ [].
Proof.
  destruct s as [|a s']; cbn; [discriminate|].
  destruct (Ascii.eqb a c); [discriminate|].
  destruct (split c s'); discriminate.
Qed.

Lemma mapM_result_length {A B} (f : A → result B) (l : list A) (l' : list B) :
  mapM_result f l = Ok l' → length l' = length l.
Proof.
  revert l'. induction l as [|x xs IH]; intros l'; cbn.
  - intros [= <-]. reflexivity.
  - destruct (f x) as [y|e]; [|discriminate]. cbn.
    destruct (mapM_result f xs) as [ys|e]; [|discriminate]. cbn.
    intros [= <-]. cbn. rewrite (IH ys); reflexivity.
Qed.

(** The groups and labels [main] starts the loop with. *)
Lemma load_samples_agree (args : Args) (groups : list samplelist)
    (sample_prefixes : list string) :
  load_samples env args = Loaded groups sample_prefixes →
  groups_agree sample_prefixes groups ∧
  length groups = length sample_prefixes.
Proof.
  unfold load_samples. destruct (truthy (args_samples args)).
  - set (sfiles := split COMMA (default "" (args_samples args))).
    set (prefixes := if truthy (args_sample_prefixes args) then _ else _).
    destruct (Nat.eqb_spec (length sfiles) (length prefixes)) as [Hlen|];
      [|discriminate]. cbn [negb].
    destruct (mapM_result _ sfiles) as [sl|e] eqn:Hsl; [|discriminate].
    intros [= <- <-]. apply mapM_result_length in Hsl.
    split; [left; split|]; try congruence.
    intros ->. cbn in Hlen. apply (split_nonempty COMMA (default "" (args_samples args))).
    fold sfiles. destruct sfiles; [reflexivity | discriminate].
  - intros [= <- <-]. split; [right; auto | reflexivity].
Qed.

End Run.

(** ** Header and rows *)

Section Alignment.
Context {allele : Type} `{Countable allele} `{!AlleleOps allele}.
Context {vcftype : Type}.
Context (utils : Utils allele) (env : Env allele vcftype).

Lemma GetHeader_labels (header : string) (sample_prefixes : list string) :
  GetHeader header sample_prefixes
  = if decide (sample_prefixes = []) then [header]
    else map (λ label, header +:+ "-" +:+ label) sample_prefixes.
Proof.
  unfold GetHeader. destruct sample_prefixes as [|sp rest]; reflexivity.
Qed.

End Alignment.

(** ** Plotting *)

Section Plotting.
Context {allele : Type} `{Countable allele} `{!AlleleOps allele}.
Context {vcftype : Type}.
Context (utils : Utils allele) (env : Env allele vcftype).

Lemma no_alleles_union (trrecord : TRRecord allele)
    (samplelists : list samplelist) (s : gset allele) :
  (∀ sl, GetAlleleFreqs trrecord true sl = ∅) →
  foldl (λ (s : gset allele) (afreqs : gmap allele pyfloat), s ∪ dom afreqs) s
        (map (λ sl, GetAlleleFreqs trrecord true sl) samplelists) = s.
Proof.
  intros Hempty. revert s.
  induction samplelists as [|sl rest IH]; intros s; cbn; [reflexivity|].
  rewrite IH, Hempty, dom_empty_L. apply (right_id_L ∅ (∪)).
Qed.

(** At a locus where no group has a called allele the plot raises: the
    allele set it takes the minimum of is empty. *)
Lemma PlotAlleleFreqs_no_called_allele (trrecord : TRRecord allele)
    (outprefix : string) (samplelists : list samplelist)
    (sampleprefixes : list string) :
  (∀ sl, GetAlleleFreqs trrecord true sl = ∅) →
  PlotAlleleFreqs trrecord outprefix samplelists sampleprefixes
  = Raise (ValueError "min() arg is an empty sequence").
Proof.
  intros Hempty. unfold PlotAlleleFreqs.
  destruct (decide (samplelists = [])); rewrite no_alleles_union by assumption;
    destruct (decide (∅ = ∅)); congruence.
Qed.

(** C5, as the code has it: a failure raised while plotting a locus leaves
    the loop at once. The record was counted, nothing was written for it,
    the records after it are not read, and what was written before stays. *)
Theorem plot_failure_ends_the_loop (args : Args) (vt : vcftype)
    (sample_prefixes : list string) (pf : fmt)
    (record : VcfRecord) (rest : list VcfRecord) (st : St allele)
    (trrecord : TRRecord allele) (e : exn) :
  HarmonizeRecord env vt record = Ok trrecord →
  args_plot_afreq args = true →
  num_plotted st ≤ MAXPLOTS →
  PlotAlleleFreqs trrecord (args_out args) (sample_lists st) sample_prefixes
  = Raise e →
  for_each (record :: rest)
           (process_record utils env args vt sample_prefixes pf) st
  = (Raise e,
     {| sample_lists := sample_lists st; num_plotted := num_plotted st;
        nrecords := nrecords st + 1; written := written st;
        plotted := plotted st |}).
Proof.
  intros Hrec Hflag Hnum Hplot. cbn [for_each].
  unfold process_record, bind, incr_nrecords, lift, get_num_plotted.
  rewrite Hrec. cbn [num_plotted]. rewrite Hflag.
  apply Z.leb_le in Hnum. rewrite Hnum. cbn [andb when].
  unfold get_sample_lists. cbn [sample_lists]. rewrite Hplot. reflexivity.
Qed.

End Plotting.

Lemma plot_failure_witness :
  for_each [locus 0; locus 200]
           (process_record demo_utils (demo_env [locus 0; locus 200])
                           plot_args tt ["A"; "B"]
                           (main_precision_format plot_args))
           plot_st0
  = (Raise (ValueError "min() arg is an empty sequence"),
     {| sample_lists := sample_lists plot_st0;
        num_plotted := num_plotted plot_st0;
        nrecords := nrecords plot_st0 + 1; written := written plot_st0;
        plotted := plotted plot_st0 |}).
Proof.
  apply (plot_failure_ends_the_loop demo_utils (demo_env [locus 0; locus 200])
           plot_args tt ["A"; "B"] (main_precision_format plot_args)
           (locus 0) [locus 200] plot_st0 (uncalled_trrecord (locus 0))).
  - reflexivity.
  - reflexivity.
  - vm_compute. discriminate.
  - apply PlotAlleleFreqs_no_called_allele. reflexivity.
Defined.

(** C5, as stated, fails: in a run over three loci whose second has no
    called allele, the plot of the second raises; the run ends with that
    exception after two records, and only the header and the row of the
    first locus were written. *)
Lemma plot_failure_aborts_rows :
  retval (main demo_utils (demo_env [locus 100; locus 0; locus 200]) plot_args)
  = Raise (ValueError "min() arg is an empty sequence") ∧
  (λ st, (nrecords st, written st))
    <$> final_state
          (main demo_utils (demo_env [locus 100; locus 0; locus 200]) plot_args)
  = Some (2,
          [ "chrom" +:+ TAB +:+ "start" +:+ TAB +:+ "end" +:+ TAB +:+
            "thresh-A" +:+ TAB +:+ "thresh-B" +:+ TAB +:+
            "mean-A" +:+ TAB +:+ "mean-B" +:+ NL;
            "chr1" +:+ TAB +:+ "100" +:+ TAB +:+ "109";
            TAB +:+ "11.0"; TAB +:+ "11.0"; TAB +:+ "10.5"; TAB +:+ "10.5";
            NL ]).
Proof. split; vm_compute; reflexivity. Qed.

Section PlotCount.
Context {allele : Type} `{Countable allele} `{!AlleleOps allele}.
Context {vcftype : Type}.
Context (utils : Utils allele) (env : Env allele vcftype).

(** A run that opened its output went through [main_try]. *)
Lemma main_outf_main_try (args : Args) (tgt : target) (st : St allele) :
  outf (main utils env args) = Some (tgt, st) →
  ∃ groups sample_prefixes invcf vt tgt0,
    load_samples env args = Loaded groups sample_prefixes ∧
    outf (main_try utils env args invcf vt groups sample_prefixes tgt0)
    = Some (tgt, st).
Proof.
  unfold main.
  destruct (negb (os_path_exists env (args_vcf args))); [discriminate|].
  destruct (negb (out_dir_exists env (args_out args))); [discriminate|].
  destruct (os_path_isdir env (args_out args) && endswith (args_out args) "/");
    [discriminate|].
  destruct (load_samples env args) as [groups sample_prefixes| |e] eqn:Hload;
    [|discriminate|discriminate].
  cbn zeta.
  destruct (LoadSingleReader env (args_vcf args) _) as [[invcf|]|e];
    [|discriminate|discriminate].
  destruct (if negb (String.eqb (args_vcftype args) "auto") then _ else _)
    as [vt|e]; [|discriminate].
  destruct (String.eqb (args_out args) "stdout").
  - destruct (args_plot_afreq args); [discriminate|]. eauto 10.
  - destruct (open_w env _) as [[]|e]; [|discriminate]. eauto 10.
Qed.

(** X16: whatever the loci, and whether the run returns or raises, a run
    makes at most [MAXPLOTS + 1] plots, and its counter is the number of
    plots made. *)
Lemma plots_at_most_MAXPLOTS_plus_one (args : Args) (tgt : target)
    (st : St allele) :
  outf (main utils env args) = Some (tgt, st) →
  num_plotted st = Z.of_nat (length (plotted st)) ∧
  Z.of_nat (length (plotted st)) ≤ MAXPLOTS + 1.
Proof.
  intros Hout.
  destruct (main_outf_main_try args tgt st Hout)
    as (groups & sample_prefixes & invcf & vt & tgt0 & Hload & Htry).
  destruct (load_samples_agree env args _ _ Hload) as [Hg _].
  clear Hout. revert Htry. unfold main_try.
  set (st0 := {| sample_lists := groups; num_plotted := 0; nrecords := 0;
                 written := _; plotted := [] |}).
  assert (Hinv : loop_inv sample_prefixes st0).
  { split; [exact Hg|]. split; [reflexivity|]. cbn. unfold MAXPLOTS. lia. }
  assert (Hend : ∀ st' : St allele, loop_inv sample_prefixes st' →
            num_plotted st' = Z.of_nat (length (plotted st')) ∧
            Z.of_nat (length (plotted st')) ≤ MAXPLOTS + 1).
  { intros st' (_ & Hc & Hm). unfold plots_counted in Hc.
    split; [exact Hc | rewrite <- Hc; exact Hm]. }
  destruct (if truthy (args_region args) then _ else _) as [region|e].
  - pose proof (loop_spec utils env args sample_prefixes
                  (main_precision_format args) vt region st0 eq_refl Hinv)
      as Hloop.
    unfold wp in Hloop.
    destruct (for_each region _ st0) as [[[]|e] st'] eqn:Hrun; cbn;
      intros [= <- <-]; apply Hend.
    + destruct Hloop as (rows & _ & _ & _ & Hinv' & _). exact Hinv'.
    + destruct Hloop as (rows & part & _ & _ & _ & _ & Hinv' & _). exact Hinv'.
  - cbn. intros [= <- <-]. apply Hend, Hinv.
Qed.

End PlotCount.

(** C1, on the code: the test [num_plotted <= MAXPLOTS] lets the counter
    reach [MAXPLOTS + 1]. A run over eleven loci returns 0, writes eleven
    rows and plots all eleven loci, one more than [MAXPLOTS = 10]. *)
Theorem eleven_loci_eleven_plots :
  MAXPLOTS = 10 ∧
  retval (main demo_utils (demo_env (loci 11)) plot_args) = Ok 0 ∧
  (λ st, (nrecords st, length (filter (λ w, w = NL) (written st)),
          num_plotted st, length (plotted st)))
    <$> final_state (main demo_utils (demo_env (loci 11)) plot_args)
  = Some (11, 11%nat, 11, 11%nat).
Proof. repeat split; vm_compute; reflexivity. Qed.

(** With a twelfth locus the counter stops the plots at eleven; the twelfth
    row is written all the same. *)
Lemma twelve_loci_eleven_plots :
  (λ st, (nrecords st, length (filter (λ w, w = NL) (written st)),
          num_plotted st, length (plotted st)))
    <$> final_state (main demo_utils (demo_env (loci 12)) plot_args)
  = Some (12, 12%nat, 11, 11%nat).
Proof. vm_compute. reflexivity. Qed.

(** The first statistic computer of the first locus leaves [main]'s group
    list changed, and the plot of the second locus then finds a group
    without a label. *)
Lemma second_plot_fails_without_samples :
  retval (main demo_utils (demo_env (loci 2))
            (with_flags demo_args true true true true 3 None None))
  = Raise (IndexError "list index out of range") ∧
  (λ st, (nrecords st, sample_lists st, length (plotted st)))
    <$> final_state
          (main demo_utils (demo_env (loci 2))
             (with_flags demo_args true true true true 3 None None))
  = Some (2, [None], 1%nat).
Proof. split; vm_compute; reflexivity. Qed.

(** ** The number of called samples *)

Section NumSamples.
Context {allele : Type} `{Countable allele} `{!AlleleOps allele}.

Lemma sum_Permutation (l l' : list Z) :
  l ≡ₚ l' → foldr Z.add 0 l = foldr Z.add 0 l'.
Proof.
  induction 1 as [|x l l' _ IH|x y l|l l' l'' _ IH1 _ IH2]; cbn;
    [reflexivity | lia | lia | congruence].
Qed.

Lemma sum_values_empty : sum_values (∅ : gmap (list allele) Z) = 0.
Proof. unfold sum_values. rewrite map_to_list_empty. reflexivity. Qed.

Lemma sum_values_insert (k : list allele) (v : Z) (m : gmap (list allele) Z) :
  m !! k = None → sum_values (<[k := v]> m) = v + sum_values m.
Proof.
  intros Hk. unfold sum_values.
  rewrite (sum_Permutation _ ((k, v) :: map_to_list m).*2); [reflexivity|].
  apply fmap_Permutation, map_to_list_insert, Hk.
Qed.

Lemma sum_values_delete (k : list allele) (v : Z) (m : gmap (list allele) Z) :
  m !! k = Some v → sum_values m = v + sum_values (delete k m).
Proof.
  intros Hk. unfold sum_values.
  rewrite (sum_Permutation _ ((k, v) :: map_to_list (delete k m)).*2);
    [reflexivity|].
  apply fmap_Permutation. symmetry. apply map_to_list_delete, Hk.
Qed.

(** Counting one more genotype adds one to the sum of the counts, whether
    or not the genotype was seen before. *)
Lemma sum_values_count_one (k : list allele) (m : gmap (list allele) Z) :
  sum_values (count_one k m) = sum_values m + 1.
Proof.
  unfold count_one. destruct (m !! k) as [v|] eqn:Hk; cbn [default id].
  - rewrite <- insert_delete_eq, sum_values_insert by apply lookup_delete_eq.
    rewrite (sum_values_delete k v m Hk). lia.
  - rewrite sum_values_insert by exact Hk. lia.
Qed.

(** The invariant of the data model: the genotype counts of a group add up
    to its called individuals, in either representation. *)
Lemma spec_GetGenotypeCounts_sum (cs : calls allele) (uselength : bool)
    (sl : samplelist) :
  sum_values (spec_GetGenotypeCounts cs uselength sl) = num_called cs sl.
Proof.
  unfold num_called, spec_GetGenotypeCounts.
  induction cs as [|[sample call] cs IH]; [apply sum_values_empty|].
  cbn [foldr]. rewrite filter_cons. cbn [fst snd].
  destruct (in_group sl sample) eqn:Hin.
  - destruct call as [g|].
    + rewrite sum_values_count_one, IH.
      rewrite decide_True by (split; [exact I | eexists; reflexivity]).
      cbn [length]. lia.
    + rewrite decide_False by (intros [_ [x Hx]]; discriminate Hx).
      exact IH.
  - rewrite decide_False by (intros [[] _]). exact IH.
Qed.

Lemma num_called_none (cs : calls allele) (sl : samplelist) :
  Forall (λ sc, in_group sl sc.1 = true → sc.2 = None) cs →
  num_called cs sl = 0.
Proof.
  unfold num_called. induction 1 as [|[sample call] cs Hsc _ IH];
    [reflexivity|].
  rewrite filter_cons. cbn [fst snd] in *.
  rewrite decide_False; [exact IH|].
  intros [Hin [g Hg]]. apply Is_true_true in Hin.
  rewrite (Hsc Hin) in Hg. discriminate Hg.
Qed.

(** C9: for a record whose genotype counts are those the data model
    describes for the calls [cs], [GetNumSamples] returns for every group
    the number of its individuals with a call; the number is the same
    whichever representation the genotype counts are taken in; it is an
    integer, and 0 for a group without a called individual. *)
Theorem GetNumSamples_counts_called (trrecord : TRRecord allele) (cs : calls allele)
    (samplelists : list samplelist) :
  (∀ uselength sl,
     GetGenotypeCounts trrecord uselength sl
     = spec_GetGenotypeCounts cs uselength sl) →
  (GetNumSamples trrecord samplelists).1
  = map (num_called cs) (append_None_if_empty samplelists) ∧
  (∀ uselength,
     map (λ sl, sum_values (GetGenotypeCounts trrecord uselength sl))
         (append_None_if_empty samplelists)
     = (GetNumSamples trrecord samplelists).1) ∧
  (∀ sl, Forall (λ sc, in_group sl sc.1 = true → sc.2 = None) cs →
         num_called cs sl = 0) ∧
  Forall (λ n, 0 ≤ n) (GetNumSamples trrecord samplelists).1.
Proof.
  intros Hspec.
  assert (Hval : (GetNumSamples trrecord samplelists).1
                 = map (num_called cs) (append_None_if_empty samplelists)).
  { unfold GetNumSamples. cbn [fst]. apply map_ext. intros sl.
    rewrite Hspec. apply spec_GetGenotypeCounts_sum. }
  split; [exact Hval|]. split; [|split].
  - intros uselength. rewrite Hval. apply map_ext. intros sl.
    rewrite Hspec. apply spec_GetGenotypeCounts_sum.
  - apply num_called_none.
  - rewrite Hval. apply Forall_forall. intros n Hn.
    apply list_elem_of_fmap in Hn as (sl & -> & _).
    unfold num_called. lia.
Qed.

End NumSamples.

Lemma GetNumSamples_counts_called_witness :
  (GetNumSamples (trrecord_of_calls demo_calls (locus 100))
                 [Some ["s1"; "s2"]; Some ["s2"]; None]).1
  = [1; 0; 2].
Proof.
  destruct (GetNumSamples_counts_called
              (trrecord_of_calls demo_calls (locus 100)) demo_calls
              [Some ["s1"; "s2"]; Some ["s2"]; None]
              (λ _ _, eq_refl)) as [Hval _].
  rewrite Hval. vm_compute. reflexivity.
Defined.

(** ** The frequency and count tables *)

Section TableProps.
Context {allele : Type} `{Countable allele} `{!AlleleOps allele}.
Context (Hord : strict_total_order (allele_lt (A := allele))).

Lemma lt_asym (a b : allele) :
  allele_lt a b = true → allele_lt b a = false.
Proof.
  intros Hab. destruct (allele_lt b a) eqn:Hba; [|reflexivity].
  rewrite <- (lt_irrefl _ Hord a). symmetry.
  eapply (lt_trans _ Hord); eassumption.
Qed.

#[local] Instance not_after_total : Total (not_after (allele := allele)).
Proof.
  intros a b. unfold not_after.
  destruct (allele_lt b a) eqn:Hba; [right; apply lt_asym, Hba | left; reflexivity].
Qed.

#[local] Instance not_after_trans : Transitive (not_after (allele := allele)).
Proof.
  intros a b c. unfold not_after. intros Hba Hcb.
  destruct (allele_lt c a) eqn:Hca; [|reflexivity].
  destruct (lt_total _ Hord a b) as [Hab | [-> | Hba']]; [|congruence|congruence].
  rewrite <- Hcb. symmetry. eapply (lt_trans _ Hord); eassumption.
Qed.

Lemma not_after_lt (a b : allele) :
  not_after a b → a ≠ b → allele_lt a b = true.
Proof.
  unfold not_after. intros Hba Hne.
  destruct (lt_total _ Hord a b) as [Hab | [-> | Hba']]; congruence.
Qed.

Lemma StronglySorted_lt (l : list allele) :
  NoDup l → StronglySorted not_after l →
  StronglySorted (λ a b, allele_lt a b = true) l.
Proof.
  intros Hnd Hs. induction Hs as [|a l Hs IH Hall]; [constructor|].
  apply NoDup_cons in Hnd as [Ha Hnd]. constructor; [apply IH, Hnd|].
  rewrite Forall_forall in Hall |- *. intros b Hb.
  apply not_after_lt; [apply Hall, Hb | intros ->; contradiction].
Qed.

Lemma keys_NoDup {V} (d : gmap allele V) : NoDup (keys d).
Proof. apply NoDup_fst_map_to_list. Qed.

(** [sorted] puts the keys of a dictionary in ascending order. *)
Lemma sorted_keys_ascending {V} (d : gmap allele V) :
  StronglySorted (λ a b, allele_lt a b = true) (sorted (keys d)) ∧
  sorted (keys d) ≡ₚ keys d.
Proof.
  assert (Hp : sorted (keys d) ≡ₚ keys d) by apply merge_sort_Permutation.
  split; [|exact Hp]. apply StronglySorted_lt.
  - rewrite Hp. apply keys_NoDup.
  - apply StronglySorted_merge_sort; apply _.
Qed.

Lemma keys_items {V} (dflt : V) (d : gmap allele V) :
  map (λ a, (a, default dflt (d !! a))) (keys d) = map_to_list d.
Proof.
  unfold keys. rewrite <- list_fmap_compose.
  rewrite <- (list_fmap_id (map_to_list d)) at 2.
  apply list_fmap_ext. intros i [a v] Hi.
  apply list_elem_of_lookup_2, elem_of_map_to_list in Hi. cbn.
  rewrite Hi. reflexivity.
Qed.

(** The pairs a table is made of. *)
Lemma sorted_items_of_keys {V} (dflt : V) (d : gmap allele V) :
  sorted_items d (map (λ a, (a, default dflt (d !! a))) (sorted (keys d))).
Proof.
  destruct (sorted_keys_ascending d) as [Hs Hp]. split.
  - rewrite <- list_fmap_compose.
    erewrite list_fmap_ext; [rewrite list_fmap_id; exact Hs|].
    intros i a _. reflexivity.
  - rewrite <- (keys_items dflt d). apply fmap_Permutation, Hp.
Qed.

Lemma table_of_sorted {V} (show : V → string) (dflt : V) (d : gmap allele V) :
  (if decide (length (keys d) = 0%nat) then "."
   else join ","
          (map (λ a, allele_str a +:+ ":" +:+ show (default dflt (d !! a)))
               (sorted (keys d))))
  = table_of show (map (λ a, (a, default dflt (d !! a))) (sorted (keys d))).
Proof.
  pose proof (merge_sort_Permutation not_after (keys d)) as Hp.
  apply Permutation_length in Hp. fold (sorted (keys d)) in Hp.
  unfold table_of. destruct (sorted (keys d)) as [|a l] eqn:Hs.
  - cbn in Hp. rewrite decide_True by (symmetry; exact Hp). reflexivity.
  - cbn in Hp. rewrite decide_False by (rewrite <- Hp; discriminate).
    cbn [map]. f_equal. cbn [map fst snd]. f_equal.
    rewrite <- list_fmap_compose. reflexivity.
Qed.

Lemma elem_of_keys {V} (d : gmap allele V) (a : allele) :
  a ∈ keys d ↔ is_Some (d !! a).
Proof.
  unfold keys. rewrite list_elem_of_fmap. split.
  - intros ([b v] & -> & Hin). apply elem_of_map_to_list in Hin.
    exists v. exact Hin.
  - intros [v Hv]. exists (a, v). split; [reflexivity|].
    apply elem_of_map_to_list, Hv.
Qed.

Lemma lookup_count_allele (a b : allele) (m : gmap allele Z) :
  count_allele a m !! b
  = if decide (a = b) then Some (default 0 (m !! a) + 1) else m !! b.
Proof. unfold count_allele. apply lookup_insert. Qed.

Lemma count_alleles_keys (l : list allele) (m : gmap allele Z) (b : allele) :
  is_Some (foldr count_allele m l !! b) ↔ b ∈ l ∨ is_Some (m !! b).
Proof.
  induction l as [|a l IH]; cbn [foldr].
  - rewrite elem_of_nil. tauto.
  - rewrite lookup_count_allele, elem_of_cons.
    destruct (decide (a = b)) as [->|Hne].
    + split; [intros _; left; left; reflexivity | intros _; eexists; reflexivity].
    + rewrite IH. split; [tauto|]. intros [[->|Hb]|Hb]; [congruence|tauto|tauto].
Qed.

Lemma count_alleles_positive (l : list allele) (m : gmap allele Z) :
  (∀ a c, m !! a = Some c → 0 < c) →
  ∀ a c, foldr count_allele m l !! a = Some c → 0 < c.
Proof.
  intros Hm. induction l as [|b l IH]; cbn [foldr]; [exact Hm|].
  intros a c. rewrite lookup_count_allele.
  destruct (decide (b = a)) as [->|_]; [|apply IH].
  intros [= <-]. destruct (foldr count_allele m l !! a) as [c'|] eqn:Hc';
    cbn [default id]; [|lia].
  pose proof (IH a c' Hc'). lia.
Qed.

(** The distribution the data model describes has exactly the alleles that
    occur in a call of the group as keys, each with a positive count. *)
Lemma spec_GetAlleleCounts_keys (cs : calls allele) (uselength : bool)
    (sl : samplelist) (a : allele) :
  is_Some (spec_GetAlleleCounts cs uselength sl !! a)
  ↔ occurs cs uselength sl a.
Proof.
  unfold spec_GetAlleleCounts, occurs.
  induction cs as [|[sample call] cs IH]; cbn [foldr].
  - rewrite lookup_empty. split; [intros [x Hx]; discriminate Hx|].
    intros (s & g & Hin & _). apply elem_of_nil in Hin. destruct Hin.
  - assert (Hskip :
      (∃ s g, (s, Some g) ∈ cs ∧ in_group sl s = true ∧
              a ∈ genotype_alleles uselength g)
      → ∃ s g, (s, Some g) ∈ (sample, call) :: cs ∧ in_group sl s = true ∧
               a ∈ genotype_alleles uselength g).
    { intros (s & g & Hin & Hg & Ha). exists s, g.
      split; [apply elem_of_cons; right; exact Hin | auto]. }
    destruct (in_group sl sample) eqn:Hgrp; [destruct call as [g0|]|].
    + rewrite count_alleles_keys, IH. split.
      * intros [Ha|Hrest]; [|apply Hskip, Hrest].
        exists sample, g0. split; [apply elem_of_cons; left; reflexivity|].
        split; assumption.
      * intros (s & g & Hin & Hg & Ha).
        apply elem_of_cons in Hin as [[= -> ->]|Hin]; [left; exact Ha|].
        right. exists s, g. auto.
    + rewrite IH. split; [apply Hskip|].
      intros (s & g & Hin & Hg & Ha).
      apply elem_of_cons in Hin as [Heq|Hin]; [discriminate Heq|].
      exists s, g. auto.
    + rewrite IH. split; [apply Hskip|].
      intros (s & g & Hin & Hg & Ha).
      apply elem_of_cons in Hin as [[= -> _]|Hin]; [congruence|].
      exists s, g. auto.
Qed.

Lemma spec_GetAlleleCounts_positive (cs : calls allele) (uselength : bool)
    (sl : samplelist) (a : allele) (c : Z) :
  spec_GetAlleleCounts cs uselength sl !! a = Some c → 0 < c.
Proof.
  unfold spec_GetAlleleCounts. revert a c.
  induction cs as [|[sample call] cs IH]; cbn [foldr]; intros a c.
  - rewrite lookup_empty. discriminate.
  - destruct (in_group sl sample); [destruct call as [g|]|]; [|apply IH..].
    apply count_alleles_positive, IH.
Qed.

(** C4, as the code has it: for every record and every group, the field
    [GetAFreq] returns is the marker [.] when the distribution of the group
    is empty, and otherwise its entries, every key of the distribution once
    and nothing else, as allele:value joined by commas in ascending order
    of the allele; a count is written as an integer and a frequency with
    three digits after the point, [GetAFreq] not being given the precision
    of the run. For a record whose distributions are those the data model
    describes for the calls [cs], the keys are the alleles that occur in a
    call of the group, each with a positive count: an allele with no
    occurrence is left out. *)
Theorem GetAFreq_tables (trrecord : TRRecord allele)
    (samplelists : list samplelist) (count uselength : bool) :
  Forall2
    (λ sl field,
       if count
       then table_field str_int (GetAlleleCounts trrecord uselength sl) field
       else table_field (format_fixed 3)
                        (GetAlleleFreqs trrecord uselength sl) field)
    (append_None_if_empty samplelists)
    (GetAFreq trrecord samplelists count uselength).1 ∧
  ∀ cs : calls allele,
    (∀ ul sl, GetAlleleCounts trrecord ul sl = spec_GetAlleleCounts cs ul sl) →
    (∀ ul sl, dom (GetAlleleFreqs trrecord ul sl)
              = dom (GetAlleleCounts trrecord ul sl)) →
    ∀ sl a,
      (a ∈ keys (GetAlleleCounts trrecord uselength sl)
       ↔ occurs cs uselength sl a) ∧
      (a ∈ keys (GetAlleleFreqs trrecord uselength sl)
       ↔ occurs cs uselength sl a) ∧
      (∀ c, GetAlleleCounts trrecord uselength sl !! a = Some c → 0 < c).
Proof.
  split.
  - unfold GetAFreq. cbn [fst]. apply Forall2_fmap_r, Forall_Forall2_diag.
    apply Forall_forall. intros sl _. destruct count.
    + eexists. split; [apply (sorted_items_of_keys 0)|].
      unfold afreq_counts_str. apply table_of_sorted.
    + eexists. split; [apply (sorted_items_of_keys (f_of_Z 0))|].
      unfold afreq_freqs_str. apply table_of_sorted.
  - intros cs Hcounts Hfreqs sl a.
    assert (Hk : a ∈ keys (GetAlleleCounts trrecord uselength sl)
                 ↔ occurs cs uselength sl a).
    { rewrite elem_of_keys, Hcounts. apply spec_GetAlleleCounts_keys. }
    split; [exact Hk|]. split.
    + rewrite <- Hk, !elem_of_keys, <- !elem_of_dom, Hfreqs. reflexivity.
    + intros c. rewrite Hcounts. apply spec_GetAlleleCounts_positive.
Qed.

End TableProps.

Lemma Z_ltb_strict_total_order : strict_total_order (allele_lt (A := Z)).
Proof.
  change (strict_total_order Z.ltb). split.
  - intros a. apply Z.ltb_irrefl.
  - intros a b c Hab Hbc. apply Z.ltb_lt in Hab, Hbc. apply Z.ltb_lt. lia.
  - intros a b. destruct (Z.lt_trichotomy a b) as [Hlt | [Heq | Hgt]].
    + left. apply Z.ltb_lt, Hlt.
    + right. left. exact Heq.
    + right. right. apply Z.ltb_lt, Hgt.
Qed.

Lemma GetAFreq_tables_witness :
  Forall2
    (λ sl field,
       table_field str_int
         (GetAlleleCounts (trrecord_of_calls demo_calls (locus 100)) true sl)
         field)
    [Some ["s1"; "s2"]; None]
    (GetAFreq (trrecord_of_calls demo_calls (locus 100))
              [Some ["s1"; "s2"]; None] true true).1 ∧
  (11 ∈ keys (GetAlleleCounts (trrecord_of_calls demo_calls (locus 100))
                              true None)
   ↔ occurs demo_calls true None 11).
Proof.
  destruct (GetAFreq_tables (allele := Z) Z_ltb_strict_total_order
              (trrecord_of_calls demo_calls (locus 100))
              [Some ["s1"; "s2"]; None] true true) as [Hfields Hkeys].
  split; [exact Hfields|].
  apply (Hkeys demo_calls).
  - reflexivity.
  - intros ul sl. apply dom_fmap_L.
Defined.

(** The tables of that record: the group of s1 and s2 has one call, 10/11;
    all samples together have the alleles 10, three times, and 11. *)
Lemma GetAFreq_demo_tables :
  (GetAFreq (trrecord_of_calls demo_calls (locus 100))
            [Some ["s1"; "s2"]; Some ["s2"]; None] true true).1
  = ["10:1,11:1"; "."; "10:3,11:1"] ∧
  (GetAFreq (trrecord_of_calls demo_calls (locus 100))
            [Some ["s1"; "s2"]; Some ["s2"]; None] false true).1
  = ["10:0.500,11:0.500"; "."; "10:0.500,11:0.500"].
Proof. split; vm_compute; reflexivity. Qed.

(** C4, as stated, fails: in a run with a precision of 5 the frequency
    field of the row is written with three digits after the point; the
    table at the configured precision is not what is written. *)
Lemma afreq_table_not_at_configured_precision :
  args_precision table_args = 5 ∧
  afreq_table_at 5 (GetAlleleFreqs (called_trrecord (locus 100)) false None)
  = "10:0.50000,11:0.50000" ∧
  written <$> final_state (main demo_utils (demo_env [locus 100]) table_args)
  = Some [ "chrom" +:+ TAB +:+ "start" +:+ TAB +:+ "end" +:+ TAB +:+
           "thresh" +:+ TAB +:+ "afreq" +:+ TAB +:+ "mean" +:+ NL;
           "chr1" +:+ TAB +:+ "100" +:+ TAB +:+ "109";
           TAB +:+ "11.0"; TAB +:+ "10:0.500,11:0.500"; TAB +:+ "10.5";
           NL ].
Proof. repeat split; vm_compute; reflexivity. Qed.

(** ** Decimal digits *)

Lemma pow10_pos (k : N) : (0 < 10 ^ k)%N.
Proof. apply N.neq_0_lt_0, N.pow_nonzero. discriminate. Qed.

Lemma pow10_succ (k : N) : (10 ^ (k + 1) = 10 * 10 ^ k)%N.
Proof. rewrite N.add_1_r. apply N.pow_succ_r'. Qed.

Lemma digits_go_length_ge_acc (fuel : nat) (n : N) (acc : string) :
  (String.length acc <= String.length (digits_go fuel n acc))%nat.
Proof.
  revert n acc. induction fuel as [|f IH]; intros n acc; cbn [digits_go];
    [lia|].
  destruct (n <? 10)%N; [cbn; lia|].
  etransitivity; [|apply IH]. cbn. lia.
Qed.

Lemma digits_go_length_le (fuel : nat) (n : N) (acc : string) (k : nat) :
  (n < 10 ^ N.of_nat k)%N → (1 <= k)%nat →
  (String.length (digits_go fuel n acc) <= k + String.length acc)%nat.
Proof.
  revert n acc k. induction fuel as [|f IH]; intros n acc k Hn Hk;
    cbn [digits_go]; [lia|].
  destruct (N.ltb_spec n 10) as [Hlt|Hge]; [cbn; lia|].
  destruct k as [|[|k]]; [lia | cbn in Hn; lia |].
  etransitivity; [apply (IH _ _ (S k))|cbn; lia]; [|lia].
  replace (N.of_nat (S (S k))) with (N.of_nat (S k) + 1)%N in Hn by lia.
  rewrite pow10_succ in Hn.
  apply N.Div0.div_lt_upper_bound. exact Hn.
Qed.

Lemma digits_go_length_ge (fuel : nat) (n : N) (acc : string) (k : nat) :
  (10 ^ N.of_nat k <= n)%N → (k < fuel)%nat →
  (k + 1 + String.length acc <= String.length (digits_go fuel n acc))%nat.
Proof.
  revert n acc k. induction fuel as [|f IH]; intros n acc k Hn Hk; [lia|].
  cbn [digits_go]. destruct (N.ltb_spec n 10) as [Hlt|Hge].
  - destruct k as [|k]; [cbn; lia|].
    replace (N.of_nat (S k)) with (N.of_nat k + 1)%N in Hn by lia.
    rewrite pow10_succ in Hn. pose proof (pow10_pos (N.of_nat k)). lia.
  - destruct k as [|k].
    + etransitivity; [|apply digits_go_length_ge_acc]. cbn. lia.
    + etransitivity; [|apply (IH _ _ k)]; [cbn; lia | | lia].
      replace (N.of_nat (S k)) with (N.of_nat k + 1)%N in Hn by lia.
      rewrite pow10_succ in Hn.
      apply N.div_le_lower_bound; [discriminate | exact Hn].
Qed.

Lemma pow2_le_pow10 (k : N) : (2 ^ k <= 10 ^ k)%N.
Proof. apply N.pow_le_mono_l. lia. Qed.

(** A numeral of [n] has more than [k] digits when [10^k <= n]. *)
Lemma str_N_length_ge (n : N) (k : nat) :
  (10 ^ N.of_nat k <= n)%N → (k + 1 <= String.length (str_N n))%nat.
Proof.
  intros Hn. unfold str_N.
  pose proof (digits_go_length_ge (S (N.to_nat (N.log2 n))) n "" k Hn) as Hg.
  cbn [String.length] in Hg. rewrite Nat.add_0_r in Hg. apply Hg.
  pose proof (pow10_pos (N.of_nat k)).
  pose proof (pow2_le_pow10 (N.of_nat k)).
  assert (Hlog : (N.of_nat k <= N.log2 n)%N).
  { apply N.log2_le_pow2; lia. }
  lia.
Qed.

(** A numeral of [n] has at most [k] digits when [n < 10^k]. *)
Lemma str_N_length_le (n : N) (k : nat) :
  (n < 10 ^ N.of_nat k)%N → (1 <= k)%nat →
  (String.length (str_N n) <= k)%nat.
Proof.
  intros Hn Hk. unfold str_N.
  pose proof (digits_go_length_le (S (N.to_nat (N.log2 n))) n "" k Hn Hk) as Hl.
  cbn [String.length] in Hl. lia.
Qed.

(** The number of digits of a positive number brackets it between two
    powers of ten. *)
Lemma ndigits_spec (n : N) :
  (0 < n)%N →
  1 ≤ ndigits n ∧
  (10 ^ Z.to_N (ndigits n - 1) <= n < 10 ^ Z.to_N (ndigits n))%N.
Proof.
  intros Hn. unfold ndigits.
  set (L := String.length (str_N n)).
  assert (HL : (1 <= L)%nat).
  { pose proof (str_N_length_ge n 0) as H0. cbn in H0. apply H0. lia. }
  split; [lia|]. split.
  - destruct (N.le_gt_cases (10 ^ Z.to_N (Z.of_nat L - 1)) n) as [Hle|Hgt];
      [exact Hle|].
    destruct (Nat.eq_dec L 1%nat) as [HL1|HL1];
      [rewrite HL1 in Hgt; change (n < 1)%N in Hgt; lia|].
    pose proof (str_N_length_le n (L - 1)) as Hle.
    replace (N.of_nat (L - 1)) with (Z.to_N (Z.of_nat L - 1)) in Hle by lia.
    fold L in Hle. lia.
  - destruct (N.le_gt_cases (10 ^ Z.to_N (Z.of_nat L)) n) as [Hle|Hgt];
      [|exact Hgt].
    pose proof (str_N_length_ge n L) as Hge.
    replace (N.of_nat L) with (Z.to_N (Z.of_nat L)) in Hge by lia.
    fold L in Hge. lia.
Qed.

(** ** Rounding to significant digits *)

Lemma pow10_add (p q : Z) :
  0 ≤ p → 0 ≤ q →
  (10 ^ Z.to_N (p + q) = 10 ^ Z.to_N p * 10 ^ Z.to_N q)%N.
Proof.
  intros Hp Hq. rewrite Z2N.inj_add by assumption. apply N.pow_add_r.
Qed.

Lemma pow10_pred (P : Z) :
  1 ≤ P → (10 ^ Z.to_N P = 10 ^ Z.to_N (P - 1) * 10)%N.
Proof.
  intros HP. replace P with ((P - 1) + 1) at 1 by lia.
  rewrite pow10_add by lia. reflexivity.
Qed.

(** Powers of ten as positive unknowns, for the arithmetic tactics. *)
Ltac pow_atoms :=
  repeat match goal with
         | H : context [(10 ^ ?k)%N] |- _ =>
             let p := fresh "p" in
             let Hp := fresh "Hp" in
             pose proof (pow10_pos k) as Hp;
             set (p := (10 ^ k)%N) in *; clearbody p
         | |- context [(10 ^ ?k)%N] =>
             let p := fresh "p" in
             let Hp := fresh "Hp" in
             pose proof (pow10_pos k) as Hp;
             set (p := (10 ^ k)%N) in *; clearbody p
         end.

Lemma round_at_scaled (n : N) (d : positive) (e : Z) :
  round_at n d e = round_half_even (scaled n d e).1 (scaled n d e).2.
Proof. unfold round_at, scaled. destruct (0 <=? e); reflexivity. Qed.

Lemma ge_pow10_scaled (n : N) (d : positive) (e : Z) :
  ge_pow10 n d e = ((scaled n d e).2 <=? (scaled n d e).1)%N.
Proof. unfold ge_pow10, scaled. destruct (0 <=? e); reflexivity. Qed.

Lemma scaled_den_pos (n : N) (d : positive) (e : Z) :
  (0 < (scaled n d e).2)%N.
Proof.
  unfold scaled. destruct (0 <=? e); cbn [snd]; [|lia].
  pose proof (pow10_pos (Z.to_N e)). nia.
Qed.

(** One more power of ten in the exponent divides the fraction by ten. *)
Lemma scaled_succ (n : N) (d : positive) (e : Z) :
  ((scaled n d e).1 * (scaled n d (e + 1)).2
   = 10 * (scaled n d (e + 1)).1 * (scaled n d e).2)%N.
Proof.
  unfold scaled.
  destruct (Z.leb_spec 0 e) as [He|He];
    destruct (Z.leb_spec 0 (e + 1)) as [He1|He1]; cbn [fst snd]; try lia.
  - rewrite pow10_add by lia. change (10 ^ Z.to_N 1)%N with 10%N. lia.
  - assert (e = -1) as -> by lia.
    change (10 ^ Z.to_N (- -1))%N with 10%N.
    change (10 ^ Z.to_N (-1 + 1))%N with 1%N. lia.
  - replace (- e) with (- (e + 1) + 1) by lia.
    rewrite pow10_add by lia. change (10 ^ Z.to_N 1)%N with 10%N.
    generalize (10 ^ Z.to_N (- (e + 1)))%N. intros p. nia.
Qed.

(** [k] more powers of ten divide it by [10^k]. *)
Lemma scaled_shift (n : N) (d : positive) (e : Z) (k : nat) :
  ((scaled n d e).1 * (scaled n d (e + Z.of_nat k)).2
   = 10 ^ N.of_nat k * (scaled n d (e + Z.of_nat k)).1 * (scaled n d e).2)%N.
Proof.
  induction k as [|k IH].
  - rewrite Z.add_0_r. change (10 ^ N.of_nat 0)%N with 1%N. lia.
  - replace (e + Z.of_nat (S k)) with (e + Z.of_nat k + 1) by lia.
    pose proof (scaled_succ n d (e + Z.of_nat k)) as Hs.
    pose proof (scaled_den_pos n d (e + Z.of_nat k)) as Hpos.
    replace (N.of_nat (S k)) with (N.of_nat k + 1)%N by lia.
    rewrite pow10_succ.
    set (N0 := (scaled n d e).1) in *. set (D0 := (scaled n d e).2) in *.
    set (Nk := (scaled n d (e + Z.of_nat k)).1) in *.
    set (Dk := (scaled n d (e + Z.of_nat k)).2) in *.
    set (Ns := (scaled n d (e + Z.of_nat k + 1)).1) in *.
    set (Ds := (scaled n d (e + Z.of_nat k + 1)).2) in *.
    set (p := (10 ^ N.of_nat k)%N) in *.
    apply (N.mul_cancel_r _ _ Dk); [lia|].
    transitivity (N0 * Dk * Ds)%N; [lia|]. rewrite IH.
    transitivity (p * D0 * (Nk * Ds))%N; [lia|]. rewrite Hs. lia.
Qed.

(** The decimal exponent brackets the value: [10^X <= n/d < 10^(X+1)]. *)
Lemma floor_log10_spec (n : N) (d : positive) :
  (0 < n)%N →
  ((scaled n d (floor_log10 n d)).2 <= (scaled n d (floor_log10 n d)).1
   < 10 * (scaled n d (floor_log10 n d)).2)%N.
Proof.
  intros Hn.
  destruct (ndigits_spec n Hn) as (HA & HnL & HnU).
  destruct (ndigits_spec (Npos d) eq_refl) as (HB & HdL & HdU).
  unfold floor_log10. rewrite ge_pow10_scaled.
  set (A := ndigits n) in *. set (B := ndigits (Npos d)) in *.
  pose proof HdU as HdU0.
  rewrite (pow10_pred A HA) in HnU. rewrite (pow10_pred B HB) in HdU.
  pose proof (scaled_succ n d (A - B - 1)) as Hs.
  replace (A - B - 1 + 1) with (A - B) in Hs by lia.
  (* the value against 10^(A-B-1) and 10^(A-B+1) *)
  assert (Hlow : ((scaled n d (A - B - 1)).2 <= (scaled n d (A - B - 1)).1)%N).
  { clear Hs. unfold scaled.
    destruct (Z.leb_spec 0 (A - B - 1)) as [He|He]; cbn [fst snd].
    - replace (A - 1) with ((B - 1) + 1 + (A - B - 1)) in HnL by lia.
      rewrite !pow10_add in HnL by lia.
      change (10 ^ Z.to_N 1)%N with 10%N in HnL.
      clear HnU HdL HdU0. pow_atoms. nia.
    - replace B with ((A - 1) + (- (A - B - 1))) in HdU0 by lia.
      rewrite pow10_add in HdU0 by lia.
      clear HdL HnU HdU. pow_atoms. nia. }
  assert (Hhigh : ((scaled n d (A - B)).1 < 10 * (scaled n d (A - B)).2)%N).
  { clear Hs Hlow HdU0. unfold scaled.
    destruct (Z.leb_spec 0 (A - B)) as [He|He]; cbn [fst snd].
    - replace (A - 1) with ((B - 1) + (A - B)) in HnU by lia.
      rewrite !pow10_add in HnU by lia.
      clear HnL HdU. pow_atoms. nia.
    - replace (B - 1) with ((A - 1) + (- (A - B))) in HdL by lia.
      rewrite !pow10_add in HdL by lia.
      clear HnL HdU. pow_atoms. nia. }
  pose proof (scaled_den_pos n d (A - B)) as Hd1.
  pose proof (scaled_den_pos n d (A - B - 1)) as Hd2.
  destruct (N.leb_spec (scaled n d (A - B)).2 (scaled n d (A - B)).1)
    as [Hge|Hlt].
  - split; assumption.
  - split; [exact Hlow|]. nia.
Qed.

(** Rounding to the nearest integer, ties to even. *)
Lemma round_half_even_nearest (n d : N) :
  (0 < d)%N →
  (2 * round_half_even n d * d <= 2 * n + d ∧
   2 * n <= 2 * round_half_even n d * d + d)%N.
Proof.
  intros Hd. unfold round_half_even.
  pose proof (N.Div0.div_mod n d) as Hdm.
  pose proof (N.mod_lt n d ltac:(lia)) as Hr.
  set (q := (n / d)%N) in *. set (r := (n mod d)%N) in *.
  destruct (N.ltb_spec (2 * r) d); [nia|].
  destruct (N.ltb_spec d (2 * r)); [nia|].
  destruct (N.even q); nia.
Qed.

Lemma round_half_even_between (n d lo hi : N) :
  (0 < d)%N → (d * lo <= n)%N → (n < d * hi)%N →
  (lo <= round_half_even n d <= hi)%N.
Proof.
  intros Hd Hlo Hhi. unfold round_half_even.
  pose proof (N.Div0.div_mod n d) as Hdm.
  pose proof (N.mod_lt n d ltac:(lia)) as Hr.
  set (q := (n / d)%N) in *. set (r := (n mod d)%N) in *.
  assert (lo <= q)%N by nia. assert (q < hi)%N by nia.
  destruct (2 * r <? d)%N; [lia|].
  destruct (d <? 2 * r)%N; [lia|].
  destruct (N.even q); lia.
Qed.

(** The digits of a rounding to [P] significant digits are a number of
    exactly [P] digits. *)
Lemma round_sig_digits (P : Z) (n : N) (d : positive) :
  1 ≤ P → (0 < n)%N →
  (10 ^ Z.to_N (P - 1) <= (round_sig P n d).1 < 10 ^ Z.to_N P)%N.
Proof.
  intros HP Hn. unfold round_sig.
  destruct (N.eqb_spec n 0) as [->|_]; [lia|].
  set (X := floor_log10 n d). rewrite round_at_scaled.
  pose proof (floor_log10_spec n d Hn) as [Hlo Hhi]. fold X in Hlo, Hhi.
  pose proof (scaled_shift n d (X - P + 1) (Z.to_nat (P - 1))) as Hs.
  replace (X - P + 1 + Z.of_nat (Z.to_nat (P - 1))) with X in Hs by lia.
  replace (N.of_nat (Z.to_nat (P - 1))) with (Z.to_N (P - 1)) in Hs by lia.
  pose proof (scaled_den_pos n d X) as HDx.
  pose proof (scaled_den_pos n d (X - P + 1)) as HDe.
  rewrite (pow10_pred P HP).
  set (Ne := (scaled n d (X - P + 1)).1) in *.
  set (De := (scaled n d (X - P + 1)).2) in *.
  set (Nx := (scaled n d X).1) in *. set (Dx := (scaled n d X).2) in *.
  pose proof (pow10_pos (Z.to_N (P - 1))) as Hp.
  set (p := (10 ^ Z.to_N (P - 1))%N) in *. clearbody p Ne De Nx Dx.
  assert (Hbetween : (p <= round_half_even Ne De <= p * 10)%N).
  { apply round_half_even_between; [exact HDe | nia | nia]. }
  destruct (N.leb_spec (p * 10) (round_half_even Ne De)); cbn [fst]; lia.
Qed.

(** The rounding keeps the value: the digits, with the exponent they come
    with, are the value divided by a power of ten and rounded to the
    nearest integer, ties to even; when that integer is [10^P] its digits
    are those of [10^(P-1)] and the exponent is one more. *)
Lemma round_sig_value (P : Z) (n : N) (d : positive) :
  1 ≤ P → (0 < n)%N →
  let X0 := floor_log10 n d in
  let q := round_at n d (X0 - P + 1) in
  ((round_sig P n d).2 = X0 ∧ (round_sig P n d).1 = q) ∨
  ((round_sig P n d).2 = X0 + 1 ∧ (10 * (round_sig P n d).1 = q)%N).
Proof.
  intros HP Hn X0 q. unfold round_sig.
  destruct (N.eqb_spec n 0) as [->|_]; [lia|].
  fold X0. fold q.
  destruct (N.leb_spec (10 ^ Z.to_N P) q) as [Hge|Hlt]; cbn [fst snd];
    [right | left; split; reflexivity].
  split; [reflexivity|].
  pose proof (round_sig_digits P n d HP Hn) as [_ Hup].
  unfold round_sig in Hup.
  destruct (N.eqb_spec n 0) as [->|_]; [lia|]. fold X0 in Hup. fold q in Hup.
  (* q is at most 10^P, by the bracket of the value *)
  assert (Hq : (q <= 10 ^ Z.to_N P)%N).
  { unfold q. rewrite round_at_scaled.
    pose proof (floor_log10_spec n d Hn) as [Hlo Hhi]. fold X0 in Hlo, Hhi.
    pose proof (scaled_shift n d (X0 - P + 1) (Z.to_nat (P - 1))) as Hs.
    replace (X0 - P + 1 + Z.of_nat (Z.to_nat (P - 1))) with X0 in Hs by lia.
    replace (N.of_nat (Z.to_nat (P - 1))) with (Z.to_N (P - 1)) in Hs by lia.
    pose proof (scaled_den_pos n d X0) as HDx.
    pose proof (scaled_den_pos n d (X0 - P + 1)) as HDe.
    rewrite (pow10_pred P HP).
    set (Ne := (scaled n d (X0 - P + 1)).1) in *.
    set (De := (scaled n d (X0 - P + 1)).2) in *.
    set (Nx := (scaled n d X0).1) in *. set (Dx := (scaled n d X0).2) in *.
    pose proof (pow10_pos (Z.to_N (P - 1))) as Hp.
    set (p := (10 ^ Z.to_N (P - 1))%N) in *. clearbody p Ne De Nx Dx.
    apply (round_half_even_between Ne De p (p * 10)); [exact HDe | nia | nia]. }
  rewrite (pow10_pred P HP) in Hq, Hge. lia.
Qed.

(** ** Digits after the point *)

Lemma length_append (s t : string) :
  String.length (s +:+ t) = (String.length s + String.length t)%nat.
Proof.
  induction s as [|a s IH]; [reflexivity|].
  change (S (String.length (s +:+ t))
          = S (String.length s + String.length t)).
  rewrite IH. reflexivity.
Qed.

Lemma length_zeros (k : nat) : String.length (zeros k) = k.
Proof.
  induction k as [|k IH]; [reflexivity|].
  change (S (String.length (zeros k)) = S k). rewrite IH. reflexivity.
Qed.

Lemma pad_N_length (width : nat) (n : N) :
  (1 <= width)%nat → (n < 10 ^ N.of_nat width)%N →
  String.length (pad_N width n) = width.
Proof.
  intros Hw Hn. unfold pad_N. rewrite length_append, length_zeros.
  pose proof (str_N_length_le n width Hn Hw). lia.
Qed.

(** ["%.3f"], and any positive number of decimals: the text of a finite
    value is a sign, an integer part, the point and exactly that many
    digits. *)
Lemma format_fixed_decimals (P : nat) (neg : bool) (n : N) (d : positive) :
  (1 <= P)%nat →
  ∃ int frac : string,
    format_fixed P (FFin neg n d)
    = (if neg then "-" else "") +:+ int +:+ "." +:+ frac ∧
    String.length frac = P.
Proof.
  intros HP. unfold format_fixed.
  set (m := round_at n d (- Z.of_nat P)).
  exists (str_N (m / 10 ^ N.of_nat P)), (pad_N P (m mod 10 ^ N.of_nat P)).
  split.
  - destruct P; [lia | reflexivity].
  - apply pad_N_length; [exact HP|]. apply N.mod_lt, N.pow_nonzero. discriminate.
Qed.

(** ** The float fields *)

(** C3, as the code has it: every float statistic that is not
    not-a-number is written, after the delimiter, in the general format
    with the configured precision (3 unless [--precision] is given)
    counting significant digits, not digits after the point. An infinity
    is written inf; a finite value is rounded to that many significant
    digits (to one when the precision is 0), to the nearest with ties to
    even, and the digits of the result, a number below [10^P] with its
    decimal exponent, are laid out positionally or in scientific
    notation. *)
Theorem float_fields_use_significant_digits (args : Args) (val : pyfloat) :
  0 ≤ args_precision args ≤ INT_MAX →
  isnan val = false →
  let P := Z.max (args_precision args) 1 in
  (∀ vcf out, args_precision (getargs_defaults vcf out) = 3) ∧
  ∃ text,
    format_nan_precision (main_precision_format args) val
    = Ok (TAB +:+ text) ∧
    match val with
    | FNan => False
    | FInf neg => text = if neg then "-inf" else "inf"
    | FFin neg n d =>
        let m := (round_sig P n d).1 in
        let X := (round_sig P n d).2 in
        text = (if neg then "-" else "") +:+
               layout_general P (digits_of m) (X + 1) ∧
        ((0 < n)%N →
         let X0 := floor_log10 n d in
         let q := round_at n d (X0 - P + 1) in
         let Ne := (scaled n d (X0 - P + 1)).1 in
         let De := (scaled n d (X0 - P + 1)).2 in
         (10 ^ Z.to_N (P - 1) <= m < 10 ^ Z.to_N P)%N ∧
         ((scaled n d X0).2 <= (scaled n d X0).1 < 10 * (scaled n d X0).2)%N ∧
         (2 * q * De <= 2 * Ne + De ∧ 2 * Ne <= 2 * q * De + De)%N ∧
         ((X = X0 ∧ m = q) ∨ (X = X0 + 1 ∧ (10 * m)%N = q)))
    end.
Proof.
  intros [Hlo Hhi] Hnan P. split; [reflexivity|].
  unfold format_nan_precision. rewrite Hnan.
  unfold str_format, main_precision_format, format_general.
  cbn [fmt_prefix fmt_precision].
  destruct (Z.ltb_spec (args_precision args) 0) as [Hneg|_]; [lia|].
  destruct (Z.ltb_spec INT_MAX (args_precision args)) as [Hbig|_]; [lia|].
  cbn [result_bind]. fold P. eexists. split; [reflexivity|].
  destruct val as [|neg|neg n d]; [discriminate Hnan | reflexivity |].
  unfold general_digits.
  destruct (round_sig P n d) as [m X] eqn:Hrs. cbn [fst snd].
  split; [reflexivity|]. intros Hn.
  assert (HP : 1 ≤ P) by (unfold P; lia).
  pose proof (round_sig_digits P n d HP Hn) as Hdig.
  pose proof (round_sig_value P n d HP Hn) as Hval.
  rewrite Hrs in Hdig, Hval. cbn [fst snd] in Hdig, Hval.
  split; [exact Hdig|]. split; [apply floor_log10_spec, Hn|].
  split; [|exact Hval].
  rewrite round_at_scaled. apply round_half_even_nearest, scaled_den_pos.
Qed.

Lemma float_fields_witness :
  ∃ text,
    format_nan_precision (main_precision_format demo_args) (FFin false 21 2)
    = Ok (TAB +:+ text).
Proof.
  destruct (float_fields_use_significant_digits demo_args (FFin false 21 2))
    as (_ & text & Htext & _).
  - vm_compute. split; discriminate.
  - reflexivity.
  - exists text. exact Htext.
Defined.

(** C3, as stated, fails: at the default precision 10.5 is written with
    one digit after the point, 1234.5 in scientific notation and 0.123456
    with three digits; three digits after the point would make them
    10.500, 1234.500 and 0.123. *)
Lemma default_precision_counts_significant_digits :
  format_nan_precision (main_precision_format demo_args) (FFin false 21 2)
  = Ok (TAB +:+ "10.5") ∧
  format_fixed 3 (FFin false 21 2) = "10.500" ∧
  format_nan_precision (main_precision_format demo_args) (FFin false 12345 10)
  = Ok (TAB +:+ "1.23e+03") ∧
  format_fixed 3 (FFin false 12345 10) = "1234.500" ∧
  format_nan_precision (main_precision_format demo_args)
                       (FFin false 123456 1000000)
  = Ok (TAB +:+ "0.123") ∧
  format_nan_precision (main_precision_format demo_args) (FFin false 21 2)
  ≠ Ok (TAB +:+ format_fixed (Z.to_nat (args_precision demo_args))
                             (FFin false 21 2)).
Proof. repeat split; try (vm_compute; reflexivity). vm_compute. discriminate. Qed.

(** * Further properties *)

(** ** Lists of results *)

Lemma mapM_result_app {A B} (f : A → result B) (l1 l2 : list A) :
  mapM_result f (l1 ++ l2)
  = result_bind (mapM_result f l1) (λ b1,
    result_bind (mapM_result f l2) (λ b2, Ok (b1 ++ b2))).
Proof.
  induction l1 as [|x l1 IH]; cbn.
  - destruct (mapM_result f l2); reflexivity.
  - destruct (f x) as [y|e]; [|reflexivity]. cbn. rewrite IH.
    destruct (mapM_result f l1) as [b1|e]; [|reflexivity]. cbn.
    destruct (mapM_result f l2); reflexivity.
Qed.

Lemma mapM_result_fmap {A B C} (f : B → result C) (h : A → B) (l : list A) :
  mapM_result f (map h l) = mapM_result (λ x, f (h x)) l.
Proof.
  induction l as [|x l IH]; cbn; [reflexivity|].
  rewrite IH. reflexivity.
Qed.

Lemma mapM_result_Ok {A B} (f : A → result B) (g : A → B) (l : list A) :
  (∀ x, f x = Ok (g x)) → mapM_result f l = Ok (map g l).
Proof.
  intros Hf. induction l as [|x l IH]; cbn; [reflexivity|].
  rewrite Hf, IH. reflexivity.
Qed.

Lemma mapM_result_nil {A B} (f : A → result B) : mapM_result f [] = Ok [].
Proof. reflexivity. Qed.

(** ** The fields written before a failure *)

Lemma render_prefix_Ok (pf : fmt) (vals : list field_value)
    (fields : list string) :
  mapM_result (render pf) vals = Ok fields → render_prefix pf vals = fields.
Proof.
  revert fields. induction vals as [|v vals IH]; intros fields; cbn.
  - intros [= <-]. reflexivity.
  - destruct (render pf v) as [w|e]; [|discriminate]. cbn.
    destruct (mapM_result (render pf) vals) as [ws|e]; [|discriminate]. cbn.
    intros [= <-]. rewrite (IH ws eq_refl). reflexivity.
Qed.

Lemma render_prefix_app_Ok (pf : fmt) (l1 l2 : list field_value)
    (fields : list string) :
  mapM_result (render pf) l1 = Ok fields →
  render_prefix pf (l1 ++ l2) = fields ++ render_prefix pf l2.
Proof.
  revert fields. induction l1 as [|v l1 IH]; intros fields; cbn.
  - intros [= <-]. reflexivity.
  - destruct (render pf v) as [w|e]; [|discriminate]. cbn.
    destruct (mapM_result (render pf) l1) as [ws|e]; [|discriminate]. cbn.
    intros [= <-]. rewrite (IH ws eq_refl). reflexivity.
Qed.

Lemma render_prefix_app_Raise (pf : fmt) (l1 l2 : list field_value)
    (e : exn) :
  mapM_result (render pf) l1 = Raise e →
  render_prefix pf (l1 ++ l2) = render_prefix pf l1.
Proof.
  induction l1 as [|v l1 IH]; cbn; [discriminate|].
  destruct (render pf v) as [w|e']; [|reflexivity]. cbn.
  destruct (mapM_result (render pf) l1) as [ws|e']; [discriminate|]. cbn.
  intros [= ->]. rewrite (IH eq_refl). reflexivity.
Qed.


(** ** The blocks of a row, exactly *)

Section ExactBlocks.
Context {allele : Type} `{Countable allele} `{!AlleleOps allele}.
Context (pf : fmt).

Implicit Types st : St allele.

Lemma write_floats_exact (vals : list pyfloat) st :
  wp (write_floats pf vals)
     (λ _ st', ∃ b, mapM_result (format_nan_precision pf) vals = Ok b ∧
                    written st' = written st ++ b ∧ same_vars st st')
     (λ e st', mapM_result (format_nan_precision pf) vals = Raise e ∧
               same_vars st st' ∧
               written st'
               = written st ++ render_prefix pf (map FloatField vals))
     st.
Proof.
  revert st. induction vals as [|val vals IH]; intros st.
  - apply wp_ret. exists []. rewrite app_nil_r. repeat split.
  - unfold write_floats. cbn [for_each mapM_result map render_prefix render].
    apply wp_bind, wp_bind, wp_lift.
    destruct (format_nan_precision pf val) as [s|e] eqn:Hs; cbn [result_bind].
    + unfold wp at 1, write.
      eapply wp_mono; [apply IH | |]; cbn beta.
      * intros _ st' (b & Hb & Hw & Hsame). exists (s :: b).
        rewrite Hb. cbn [result_bind].
        split; [reflexivity|]. cbn [written] in Hw.
        split; [rewrite Hw, <- app_assoc; reflexivity | exact Hsame].
      * intros e st' (Hb & Hsame & Hw). rewrite Hb.
        split; [reflexivity|]. split; [exact Hsame|].
        cbn [written] in Hw. rewrite Hw, <- app_assoc. reflexivity.
    + split; [reflexivity|]. split; [apply same_vars_refl|].
      rewrite app_nil_r. reflexivity.
Qed.

Lemma write_strs_exact (vals : list string) st :
  wp (write_strs vals)
     (λ _ st', written st' = written st ++ map (λ v, TAB +:+ v) vals ∧
               same_vars st st')
     (λ _ _, False)
     st.
Proof.
  revert st. induction vals as [|val vals IH]; intros st.
  - apply wp_ret. rewrite app_nil_r. repeat split.
  - unfold write_strs. cbn [for_each map]. apply wp_bind.
    unfold wp at 1, write.
    eapply wp_mono; [apply IH | |]; cbn beta; [|auto].
    intros _ st' (Hw & Hsame). cbn [written] in Hw.
    split; [rewrite Hw, <- app_assoc; reflexivity | exact Hsame].
Qed.

Lemma GetThresh_groups (trrecord : TRRecord allele)
    (samplelists : list samplelist) :
  GetThresh trrecord samplelists
  = map (λ sl, GetMaxAllele trrecord sl) (append_None_if_empty samplelists).
Proof. destruct samplelists; reflexivity. Qed.

Lemma when_exact (b : bool) (vals : list samplelist → list field_value)
    (mut : bool) (body : St allele → result unit * St allele) :
  exact_block pf vals mut body →
  exact_block pf (λ sl, if b then vals sl else []) (b && mut) (when b body).
Proof.
  intros Hbody. destruct b; [exact Hbody|].
  intros st. apply wp_ret. exists []. rewrite app_nil_r. repeat split.
Qed.

Lemma floats_call_exact (g : samplelist → pyfloat) :
  exact_block (allele := allele) pf
    (λ sl, map (λ x, FloatField (g x)) (append_None_if_empty sl)) true
    (bind (call (λ sl, (map g (append_None_if_empty sl),
                        append_None_if_empty sl)))
          (λ vals, write_floats pf vals)).
Proof.
  intros st. apply wp_bind, call_spec. cbn [fst snd].
  intros st1 Hsl1 Hw1 Hc1.
  rewrite (mapM_result_fmap (render pf) (λ x, FloatField (g x))).
  change (λ x, render pf (FloatField (g x)))
    with (λ x, format_nan_precision pf (g x)).
  rewrite <- (mapM_result_fmap (format_nan_precision pf) g).
  eapply wp_mono; [apply write_floats_exact | |]; cbn beta.
  - intros _ st' (b & Hb & Hw & Hs & Hn & Hr & Hp). exists b.
    split; [exact Hb|]. split; [congruence|]. split; [congruence|].
    destruct Hc1 as (H1 & H2 & H3). repeat split; congruence.
  - intros e st' (Hb & (Hs & Hn & Hr & Hp) & Hw). split; [exact Hb|].
    destruct Hc1 as (H1 & H2 & H3).
    split; [repeat split; congruence|].
    rewrite Hw, Hw1, map_map. reflexivity.
Qed.

Lemma strs_call_exact {A} (g : samplelist → A) (k : A → string)
    (kk : list A → list string) :
  (∀ vals, kk vals = map k vals) →
  exact_block (allele := allele) pf
    (λ sl, map (λ x, TextField (k (g x))) (append_None_if_empty sl)) true
    (bind (call (λ sl, (map g (append_None_if_empty sl),
                        append_None_if_empty sl)))
          (λ vals, write_strs (kk vals))).
Proof.
  intros Hkk st. apply wp_bind, call_spec. cbn [fst snd].
  intros st1 Hsl1 Hw1 Hc1.
  rewrite (mapM_result_fmap (render pf) (λ x, TextField (k (g x)))).
  rewrite (mapM_result_Ok _ (λ x, TAB +:+ k (g x))) by reflexivity.
  eapply wp_mono; [apply write_strs_exact | |]; cbn beta; [|intros _ _ []].
  intros _ st' (Hw & Hs & Hn & Hr & Hp). eexists. split; [reflexivity|].
  split.
  { rewrite Hw, Hw1, Hkk, <- !list_fmap_compose. reflexivity. }
  split; [congruence|].
  destruct Hc1 as (H1 & H2 & H3). repeat split; congruence.
Qed.

Lemma thresh_exact (trrecord : TRRecord allele) :
  exact_block (allele := allele) pf
    (λ sl, map (λ x, FloatField (GetMaxAllele trrecord x))
               (append_None_if_empty sl)) false
    (bind get_sample_lists
          (λ sl, write_floats pf (GetThresh trrecord sl))).
Proof.
  intros st. apply wp_bind. unfold wp at 1, get_sample_lists.
  rewrite GetThresh_groups.
  rewrite (mapM_result_fmap (render pf)
             (λ x, FloatField (GetMaxAllele trrecord x))).
  change (λ x, render pf (FloatField (GetMaxAllele trrecord x)))
    with (λ x, format_nan_precision pf (GetMaxAllele trrecord x)).
  rewrite <- (mapM_result_fmap (format_nan_precision pf)
                (λ x, GetMaxAllele trrecord x)).
  eapply wp_mono; [apply write_floats_exact | |]; cbn beta.
  - intros _ st' (b & Hb & Hw & Hs & Hn & Hr & Hp). exists b.
    repeat split; assumption.
  - intros e st' (Hb & (Hs & Hn & Hr & Hp) & Hw).
    split; [exact Hb|]. split; [repeat split; assumption|].
    rewrite Hw, map_map. reflexivity.
Qed.

End ExactBlocks.

(** ** One record of the loop, exactly *)

Section ExactRows.
Context {allele : Type} `{Countable allele} `{!AlleleOps allele}.
Context {vcftype : Type}.
Context (utils : Utils allele) (env : Env allele vcftype).
Context (args : Args) (vt : vcftype) (sample_prefixes : list string).
Context (pf : fmt).

Implicit Types st : St allele.

Lemma append_groups_after (done : list stat) (sl : list samplelist) :
  append_None_if_empty (groups_after args done sl) = append_None_if_empty sl.
Proof.
  unfold groups_after. destruct (some_appends args done); [|reflexivity].
  apply append_None_if_empty_idem.
Qed.

Lemma groups_after_snoc (done : list stat) (s : stat) (sl : list samplelist) :
  groups_after args (done ++ [s]) sl
  = if requested args s && appends_group s
    then append_None_if_empty (groups_after args done sl)
    else groups_after args done sl.
Proof.
  unfold groups_after, some_appends. rewrite existsb_app. cbn [existsb].
  rewrite orb_false_r.
  destruct (existsb _ done); destruct (requested args s && appends_group s);
    cbn [orb]; try reflexivity.
  symmetry. apply append_None_if_empty_idem.
Qed.

Lemma exact_step (trrecord : TRRecord allele) st1 (coords : string)
    (sl0 : list samplelist) (done : list stat) (s : stat) (rest : list stat)
    (body : St allele → result unit * St allele) st :
  stat_order = done ++ s :: rest →
  exact_block pf
    (λ sl, block_values utils args trrecord (append_None_if_empty sl) s)
    (requested args s && appends_group s) body →
  exact_so_far utils args pf trrecord st1 coords sl0 done st →
  wp body
     (λ _ st', exact_so_far utils args pf trrecord st1 coords sl0
                            (done ++ [s]) st')
     (λ e st', row_fails utils args pf trrecord st1 coords sl0 e st')
     st.
Proof.
  intros Horder Hbody (fields & Hfields & Hw & Hsl & Hcnt).
  eapply wp_mono; [apply Hbody | |]; cbn beta;
    rewrite Hsl, append_groups_after.
  - intros _ st' (b & Hb & Hw' & Hsl' & Hcnt').
    exists (fields ++ b). split.
    { rewrite map_app, concat_app, mapM_result_app, Hfields.
      cbn [result_bind map concat]. rewrite app_nil_r, Hb. reflexivity. }
    split; [rewrite Hw', Hw, <- app_assoc; reflexivity|].
    split; [rewrite groups_after_snoc, Hsl', append_groups_after; reflexivity|].
    eapply same_counters_trans; eassumption.
  - intros e st' (Hb & Hcnt' & Hw'). split; [|split].
    + unfold row_values. rewrite Horder, map_app, concat_app, mapM_result_app.
      rewrite Hfields. cbn [result_bind map concat].
      rewrite mapM_result_app, Hb. reflexivity.
    + eapply same_counters_trans; eassumption.
    + unfold row_values. rewrite Horder, map_app, concat_app.
      rewrite (render_prefix_app_Ok _ _ _ _ Hfields). cbn [map concat].
      rewrite (render_prefix_app_Raise _ _ _ _ Hb).
      rewrite Hw', Hw, <- app_assoc. reflexivity.
Qed.

Ltac exact_block_step s blk :=
  apply wp_bind;
  eapply wp_mono;
  [ eapply (exact_step _ _ _ _ _ s); [ | | eassumption];
    [reflexivity | exact blk]
  | cbn beta; intros _ ? ?
  | cbn beta; intros ? ? ?; eauto ].

(** The loop body, from the source, against the row as a function of the
    record. *)
Lemma process_record_exact (record : VcfRecord) st :
  wp (process_record utils env args vt sample_prefixes pf record)
     (λ _ st', record_written utils env args vt sample_prefixes pf record
                              st st')
     (λ e st', record_raised utils env args vt sample_prefixes pf record
                             e st st')
     st.
Proof.
  unfold process_record.
  apply wp_bind. unfold wp at 1, incr_nrecords.
  apply wp_bind, wp_lift.
  destruct (HarmonizeRecord env vt record) as [trrecord|e] eqn:Hrec.
  2:{ split; [reflexivity|]. left. split; [exact Hrec|]. repeat split. }
  apply wp_bind. unfold wp at 1, get_num_plotted. cbn [num_plotted].
  apply wp_bind.
  eapply wp_mono with
    (Q := λ _ st1, written st1 = written st ∧
                   sample_lists st1 = sample_lists st ∧
                   nrecords st1 = nrecords st + 1 ∧
                   plot_effect args sample_prefixes trrecord st st1)
    (E := λ e st', record_raised utils env args vt sample_prefixes pf record
                                 e st st').
  { apply wp_when.
    - intros Hplot.
      apply wp_bind. unfold wp at 1, get_sample_lists.
      apply wp_bind, wp_lift. cbn [sample_lists].
      destruct (PlotAlleleFreqs trrecord (args_out args) (sample_lists st)
                                sample_prefixes) as [p|e] eqn:Hp.
      + unfold wp, record_plot. cbn.
        split; [reflexivity|]. split; [reflexivity|]. split; [reflexivity|].
        unfold plot_effect. rewrite Hplot. exists p.
        split; [exact Hp|]. split; reflexivity.
      + split; [reflexivity|]. right. left. exists trrecord.
        split; [exact Hrec|]. split; [exact Hplot|]. split; [exact Hp|].
        repeat split.
    - intros Hplot. cbn. repeat split.
      unfold plot_effect. rewrite Hplot. split; reflexivity. }
  2:{ auto. }
  cbn beta. intros _ st1 (Hw1 & Hsl1 & Hn1 & Hplot).
  assert (Hfail : ∀ e st',
            row_fails utils args pf trrecord st1 (coords_of record trrecord)
                      (sample_lists st) e st' →
            record_raised utils env args vt sample_prefixes pf record e st st').
  { intros e st' (Hr & (Hc1 & Hc2 & Hc3) & Hwf). split; [congruence|].
    right. right. exists trrecord.
    split; [exact Hrec|].
    split; [|split; [exact Hr | rewrite Hwf, Hw1; reflexivity]].
    unfold plot_effect in *.
    destruct (args_plot_afreq args && (num_plotted st <=? MAXPLOTS)).
    - destruct Hplot as (p & Hp & Hpl & Hnp). exists p.
      repeat split; congruence.
    - destruct Hplot as (Hpl & Hnp). split; congruence. }
  apply wp_bind. unfold wp at 1, write.
  match goal with |- wp _ _ _ ?s => set (st2 := s) end.
  assert (Hrow : exact_so_far utils args pf trrecord st1
                              (coords_of record trrecord) (sample_lists st)
                              [] st2).
  { exists []. split; [reflexivity|]. split; [reflexivity|].
    split; [exact Hsl1 | repeat split]. }
  clearbody st2.
  exact_block_step Thresh
    (when_exact pf (args_thresh args) _ _ _ (thresh_exact pf trrecord)).
  exact_block_step AFreq
    (when_exact pf (args_afreq args) _ _ _
       (strs_call_exact (allele := allele) pf
          (λ sl, afreq_freqs_str
                   (GetAlleleFreqs trrecord (args_use_length args) sl))
          (λ x, x) (λ vals, vals) (λ vals, eq_sym (list_fmap_id vals)))).
  exact_block_step ACount
    (when_exact pf (args_acount args) _ _ _
       (strs_call_exact (allele := allele) pf
          (λ sl, afreq_counts_str
                   (GetAlleleCounts trrecord (args_use_length args) sl))
          (λ x, x) (λ vals, vals) (λ vals, eq_sym (list_fmap_id vals)))).
  exact_block_step HWEP
    (when_exact pf (args_hwep args) _ _ _
       (floats_call_exact (allele := allele) pf
          (λ sl, GetHardyWeinbergBinomialTest utils
                   (GetAlleleFreqs trrecord (args_use_length args) sl)
                   (GetGenotypeCounts trrecord (args_use_length args) sl)))).
  exact_block_step Het
    (when_exact pf (args_het args) _ _ _
       (floats_call_exact (allele := allele) pf
          (λ sl, GetHeterozygosity utils
                   (GetAlleleFreqs trrecord (args_use_length args) sl)))).
  exact_block_step Entropy
    (when_exact pf (args_entropy args) _ _ _
       (floats_call_exact (allele := allele) pf
          (λ sl, utils_GetEntropy utils
                   (GetAlleleFreqs trrecord (args_use_length args) sl)))).
  exact_block_step Mean
    (when_exact pf (args_mean args) _ _ _
       (floats_call_exact (allele := allele) pf
          (λ sl, utils_GetMean utils (GetAlleleFreqs trrecord true sl)))).
  exact_block_step Mode
    (when_exact pf (args_mode args) _ _ _
       (floats_call_exact (allele := allele) pf
          (λ sl, utils_GetMode utils (GetAlleleFreqs trrecord true sl)))).
  exact_block_step Var
    (when_exact pf (args_var args) _ _ _
       (floats_call_exact (allele := allele) pf
          (λ sl, utils_GetVariance utils (GetAlleleFreqs trrecord true sl)))).
  exact_block_step NumCalled
    (when_exact pf (args_numcalled args) _ _ _
       (strs_call_exact (allele := allele) pf
          (λ sl, sum_values
                   (GetGenotypeCounts trrecord
                      GetGenotypeCounts_default_uselength sl))
          str_int (λ vals, map str_int vals) (λ vals, eq_refl))).
  unfold wp, write.
  match goal with Hr : exact_so_far _ _ _ _ _ _ _ _ ?s |- _ =>
    destruct Hr as (fields & Hfields & Hw & Hsl & Hc1 & Hc2 & Hc3)
  end.
  exists trrecord, fields. cbn [written sample_lists nrecords].
  split; [exact Hrec|]. split; [exact Hfields|].
  split; [rewrite Hw, Hw1, <- app_assoc; reflexivity|].
  split; [exact Hsl|]. split; [congruence|].
  unfold plot_effect in *. cbn [plotted num_plotted].
  destruct (args_plot_afreq args && (num_plotted st <=? MAXPLOTS)).
  - destruct Hplot as (p & Hp & Hpl & Hnp). exists p.
    repeat split; congruence.
  - destruct Hplot as (Hpl & Hnp). split; congruence.
Qed.

End ExactRows.

(** ** The loop, exactly *)

Section ExactLoop.
Context {allele : Type} `{Countable allele} `{!AlleleOps allele}.
Context {vcftype : Type}.
Context (utils : Utils allele) (env : Env allele vcftype).
Context (args : Args) (vt : vcftype) (sample_prefixes : list string).
Context (pf : fmt).

Implicit Types st : St allele.

Lemma groups_after_idem (done : list stat) (sl : list samplelist) :
  groups_after args done (groups_after args done sl)
  = groups_after args done sl.
Proof.
  unfold groups_after. destruct (some_appends args done); [|reflexivity].
  apply append_None_if_empty_idem.
Qed.

Lemma groups_after_cases (done : list stat) (sl : list samplelist) :
  groups_after args done sl = sl ∨
  groups_after args done sl = append_None_if_empty sl.
Proof.
  unfold groups_after. destruct (some_appends args done); auto.
Qed.

Lemma row_of_groups (g g' : list samplelist) (record : VcfRecord)
    (row : list string) :
  append_None_if_empty g' = append_None_if_empty g →
  row_of utils env args vt pf g' record row →
  row_of utils env args vt pf g record row.
Proof.
  intros Hg (tr & fields & Hrec & Hf & Hrow). exists tr, fields.
  rewrite <- Hg. auto.
Qed.

Lemma plot_of_groups_after (g : list samplelist) (record : VcfRecord)
    (p : Plot allele) :
  plot_of env args vt sample_prefixes
          (groups_after args stat_order g) record p →
  plot_of env args vt sample_prefixes g record p.
Proof.
  intros (tr & sl & Hrec & Hsl & Hp). exists tr, sl.
  split; [exact Hrec|]. split; [|exact Hp].
  rewrite append_groups_after in Hsl.
  destruct (groups_after_cases stat_order g) as [Hc|Hc]; rewrite Hc in Hsl;
    tauto.
Qed.

Lemma plot_effect_none (trrecord : TRRecord allele) st st' :
  args_plot_afreq args = false →
  plot_effect args sample_prefixes trrecord st st' →
  plotted st' = plotted st ∧ num_plotted st' = num_plotted st.
Proof.
  intros Hflag. unfold plot_effect. rewrite Hflag. cbn [andb]. tauto.
Qed.

Lemma record_raised_no_plot (record : VcfRecord) (e : exn) st st' :
  record_raised utils env args vt sample_prefixes pf record e st st' →
  args_plot_afreq args = false →
  plotted st' = plotted st ∧ num_plotted st' = num_plotted st.
Proof.
  intros (_ & [(_ & _ & Hp & Hn) | [(tr & _ & _ & _ & _ & Hp & Hn)
                                    | (tr & _ & Heff & _)]]) Hflag;
    [auto | auto | eapply plot_effect_none; eassumption].
Qed.

Lemma loop_exact (records : list VcfRecord) st :
  wp (for_each records
        (process_record utils env args vt sample_prefixes pf))
     (λ _ st', loop_written utils env args vt sample_prefixes pf records st st')
     (λ _ st', loop_raised args st st')
     st.
Proof.
  revert st. induction records as [|record records IH]; intros st.
  - apply wp_ret. exists [], []. cbn. rewrite !app_nil_r, !Z.add_0_r.
    repeat split; try constructor.
    unfold plots_due. destruct (args_plot_afreq args); reflexivity.
  - cbn [for_each]. apply wp_bind.
    eapply wp_mono; [apply process_record_exact | |]; cbn beta.
    2:{ intros e st' Hr. intros Hflag.
        eapply record_raised_no_plot; eassumption. }
    intros _ st1 (tr & fields & Hrec & Hf & Hw1 & Hsl1 & Hn1 & Heff).
    eapply wp_mono; [apply IH | |]; cbn beta.
    2:{ intros e st' Hr Hflag. destruct (Hr Hflag) as [Hp Hn].
        destruct (plot_effect_none tr st st1 Hflag Heff) as [Hp1 Hnp1].
        split; congruence. }
    intros _ st' (rows & ps & Hw & Hrows & Hn & Hsl & Hpl & Hnp & Hlen & Hps).
    assert (Hrows' : Forall2 (row_of utils env args vt pf (sample_lists st))
                             records rows).
    { eapply Forall2_impl; [exact Hrows|]. intros r row.
      apply row_of_groups. rewrite Hsl1. apply append_groups_after. }
    assert (Hps' : Forall2 (plot_of env args vt sample_prefixes (sample_lists st))
                           (take (length ps) records) ps).
    { eapply Forall2_impl; [exact Hps|]. intros r p. rewrite Hsl1.
      apply plot_of_groups_after. }
    assert (Hsl' : sample_lists st'
                   = groups_after args stat_order (sample_lists st)).
    { rewrite Hsl. destruct records; [exact Hsl1|].
      rewrite Hsl1. apply groups_after_idem. }
    unfold plot_effect in Heff. unfold plots_due in *.
    destruct (args_plot_afreq args) eqn:Hflag; cbn [andb] in Heff.
    + destruct (Z.leb_spec (num_plotted st) MAXPLOTS) as [Hle|Hgt].
      * destruct Heff as (p & Hp & Hpl1 & Hnp1).
        exists ((coords_of record tr :: fields ++ [NL]) :: rows), (p :: ps).
        cbn [concat length take].
        split; [rewrite Hw, Hw1, <- app_assoc; reflexivity|].
        split; [constructor; [exists tr, fields; auto | exact Hrows']|].
        split; [lia|]. split; [exact Hsl'|].
        split; [rewrite Hpl, Hpl1, <- app_assoc; reflexivity|].
        split; [lia|].
        split; [unfold plots_due, MAXPLOTS in *; rewrite Hflag; lia|].
        constructor; [|exact Hps'].
        exists tr, (sample_lists st). auto.
      * destruct Heff as (Hpl1 & Hnp1).
        assert (length ps = 0%nat) as Hz by (unfold MAXPLOTS in *; lia).
        destruct ps; [|discriminate Hz].
        exists ((coords_of record tr :: fields ++ [NL]) :: rows), [].
        cbn [concat length take].
        split; [rewrite Hw, Hw1, <- app_assoc; reflexivity|].
        split; [constructor; [exists tr, fields; auto | exact Hrows']|].
        split; [lia|]. split; [exact Hsl'|].
        split; [rewrite Hpl, Hpl1; reflexivity|].
        split; [cbn in *; lia|].
        split; [unfold plots_due, MAXPLOTS in *; rewrite Hflag; lia|].
        constructor.
    + destruct Heff as (Hpl1 & Hnp1).
      destruct ps; [|discriminate Hlen].
      exists ((coords_of record tr :: fields ++ [NL]) :: rows), [].
      cbn [concat length take].
      split; [rewrite Hw, Hw1, <- app_assoc; reflexivity|].
      split; [constructor; [exists tr, fields; auto | exact Hrows']|].
      split; [lia|]. split; [exact Hsl'|].
      split; [rewrite Hpl, Hpl1; reflexivity|].
      split; [cbn in *; lia|].
      split; [unfold plots_due; rewrite Hflag; reflexivity | constructor].
Qed.

End ExactLoop.

(** ** Runs of [main] *)

Section MainRuns.
Context {allele : Type} `{Countable allele} `{!AlleleOps allele}.
Context {vcftype : Type}.
Context (utils : Utils allele) (env : Env allele vcftype).

(** How a run reaches the end of the loop. *)
Lemma main_try_returns_0 (args : Args) (invcf : Reader) (vt : vcftype)
    (groups : list samplelist) (sample_prefixes : list string)
    (tgt : target) :
  retval (main_try utils env args invcf vt groups sample_prefixes tgt) = Ok 0 →
  ∃ region st,
    main_region args invcf = Ok region ∧
    for_each region
      (process_record utils env args vt sample_prefixes
                      (main_precision_format args))
      (initial_state args groups sample_prefixes) = (Ok tt, st) ∧
    outf (main_try utils env args invcf vt groups sample_prefixes tgt)
    = Some (tgt, st).
Proof.
  unfold main_try, main_region.
  destruct (if truthy (args_region args) then _ else _) as [region|e];
    [|discriminate].
  change {| sample_lists := groups; num_plotted := 0; nrecords := 0;
            written := [join TAB (main_header args sample_prefixes) +:+ NL];
            plotted := [] |}
    with (initial_state (allele := allele) args groups sample_prefixes).
  destruct (for_each region _ _) as [[[]|e] st] eqn:Hrun; cbn; [|discriminate].
  intros _. exists region, st. split; [reflexivity|].
  split; [exact Hrun | reflexivity].
Qed.

Lemma main_returns_0 (args : Args) :
  retval (main utils env args) = Ok 0 →
  ∃ groups sample_prefixes invcf vt tgt region st,
    load_samples env args = Loaded groups sample_prefixes ∧
    LoadSingleReader env (args_vcf args)
                     (bool_decide (is_Some (args_region args)))
    = Ok (Some invcf) ∧
    main_vcftype env args invcf = Ok vt ∧
    main_region args invcf = Ok region ∧
    for_each region
      (process_record utils env args vt sample_prefixes
                      (main_precision_format args))
      (initial_state args groups sample_prefixes) = (Ok tt, st) ∧
    outf (main utils env args) = Some (tgt, st).
Proof.
  unfold main.
  destruct (negb (os_path_exists env (args_vcf args))); [discriminate|].
  destruct (negb (out_dir_exists env (args_out args))); [discriminate|].
  destruct (os_path_isdir env (args_out args) && endswith (args_out args) "/");
    [discriminate|].
  destruct (load_samples env args) as [groups sample_prefixes| |e] eqn:Hload;
    [|discriminate|discriminate].
  cbn zeta.
  destruct (LoadSingleReader env (args_vcf args) _) as [[invcf|]|e] eqn:Hreader;
    [|discriminate|discriminate].
  destruct (if negb (String.eqb (args_vcftype args) "auto") then _ else _)
    as [vt|e] eqn:Hvt; [|discriminate].
  destruct (String.eqb (args_out args) "stdout").
  - destruct (args_plot_afreq args); [discriminate|]. intros Hret.
    destruct (main_try_returns_0 _ _ _ _ _ _ Hret)
      as (region & st & Hregion & Hloop & Hout).
    exists groups, sample_prefixes, invcf, vt, Stdout, region, st. auto 10.
  - destruct (open_w env _) as [[]|e]; [|discriminate]. intros Hret.
    destruct (main_try_returns_0 _ _ _ _ _ _ Hret)
      as (region & st & Hregion & Hloop & Hout).
    exists groups, sample_prefixes, invcf, vt,
           (File (args_out args +:+ ".tab")), region, st. auto 10.
Qed.

End MainRuns.

Section SuccessfulRuns.
Context {allele : Type} `{Countable allele} `{!AlleleOps allele}.
Context {vcftype : Type}.
Context (utils : Utils allele) (env : Env allele vcftype).

(** X1: a run that returns 0 has written the header line and then, for
    every record of the region in the order of the reader, one row: the
    coordinates chrom, POS and POS plus the length of the reference allele,
    then the rendered values of the requested statistics, one per group
    and block after block, then the newline. Nothing else is written and
    every record was read. *)
Theorem successful_run_rows (args : Args) :
  retval (main utils env args) = Ok 0 →
  ∃ groups sample_prefixes invcf vt tgt region st rows,
    load_samples env args = Loaded groups sample_prefixes ∧
    LoadSingleReader env (args_vcf args)
                     (bool_decide (is_Some (args_region args)))
    = Ok (Some invcf) ∧
    main_vcftype env args invcf = Ok vt ∧
    main_region args invcf = Ok region ∧
    outf (main utils env args) = Some (tgt, st) ∧
    written st
    = (join TAB (main_header args sample_prefixes) +:+ NL) :: concat rows ∧
    Forall2 (row_of utils env args vt (main_precision_format args) groups)
            region rows ∧
    nrecords st = Z.of_nat (length region).
Proof.
  intros Hret.
  destruct (main_returns_0 utils env args Hret)
    as (groups & sample_prefixes & invcf & vt & tgt & region & st
        & Hload & Hreader & Hvt & Hregion & Hloop & Hout).
  pose proof (loop_exact utils env args vt sample_prefixes
                (main_precision_format args) region
                (initial_state args groups sample_prefixes)) as Hex.
  unfold wp in Hex. rewrite Hloop in Hex.
  destruct Hex as (rows & ps & Hw & Hrows & Hn & _).
  exists groups, sample_prefixes, invcf, vt, tgt, region, st, rows.
  split; [exact Hload|]. split; [exact Hreader|]. split; [exact Hvt|].
  split; [exact Hregion|]. split; [exact Hout|]. split; [exact Hw|].
  split; [exact Hrows|]. rewrite Hn. reflexivity.
Qed.

(** X2: in a run that returns 0 the plots are those of the first records
    of the region, in order, one per record: as many as there are records,
    up to [MAXPLOTS + 1], with [--plot-afreq], and none without. *)
Theorem successful_run_plots (args : Args) :
  retval (main utils env args) = Ok 0 →
  ∃ groups sample_prefixes invcf vt tgt region st,
    load_samples env args = Loaded groups sample_prefixes ∧
    LoadSingleReader env (args_vcf args)
                     (bool_decide (is_Some (args_region args)))
    = Ok (Some invcf) ∧
    main_vcftype env args invcf = Ok vt ∧
    main_region args invcf = Ok region ∧
    outf (main utils env args) = Some (tgt, st) ∧
    length (plotted st)
    = (if args_plot_afreq args
       then Nat.min (length region) (Z.to_nat (MAXPLOTS + 1)) else 0%nat) ∧
    Forall2 (plot_of env args vt sample_prefixes groups)
            (take (length (plotted st)) region) (plotted st).
Proof.
  intros Hret.
  destruct (main_returns_0 utils env args Hret)
    as (groups & sample_prefixes & invcf & vt & tgt & region & st
        & Hload & Hreader & Hvt & Hregion & Hloop & Hout).
  pose proof (loop_exact utils env args vt sample_prefixes
                (main_precision_format args) region
                (initial_state args groups sample_prefixes)) as Hex.
  unfold wp in Hex. rewrite Hloop in Hex.
  destruct Hex as (rows & ps & _ & _ & _ & _ & Hpl & _ & Hlen & Hps).
  cbn [plotted num_plotted sample_lists initial_state app] in Hpl, Hlen, Hps.
  exists groups, sample_prefixes, invcf, vt, tgt, region, st.
  split; [exact Hload|]. split; [exact Hreader|]. split; [exact Hvt|].
  split; [exact Hregion|]. split; [exact Hout|].
  rewrite Hpl. split; [|exact Hps].
  rewrite Hlen. unfold plots_due. rewrite Z.sub_0_r. reflexivity.
Qed.

(** X3: without [--plot-afreq] no run plots anything, whether it returns
    or raises. *)
Theorem no_plot_without_flag (args : Args) (tgt : target) (st : St allele) :
  args_plot_afreq args = false →
  outf (main utils env args) = Some (tgt, st) →
  plotted st = [] ∧ num_plotted st = 0.
Proof.
  intros Hflag Hout.
  destruct (main_outf_main_try utils env args tgt st Hout)
    as (groups & sample_prefixes & invcf & vt & tgt0 & _ & Htry).
  revert Htry. unfold main_try.
  destruct (if truthy (args_region args) then _ else _) as [region|e].
  - pose proof (loop_exact utils env args vt sample_prefixes
                  (main_precision_format args) region
                  (initial_state args groups sample_prefixes)) as Hex.
    unfold wp in Hex.
    change {| sample_lists := groups; num_plotted := 0; nrecords := 0;
              written := [join TAB (main_header args sample_prefixes) +:+ NL];
              plotted := [] |}
      with (initial_state (allele := allele) args groups sample_prefixes).
    destruct (for_each region _ _) as [[[]|e] st'] eqn:Hrun; cbn;
      intros [= <- <-].
    + destruct Hex as (rows & ps & _ & _ & _ & _ & Hpl & Hnp & Hlen & _).
      unfold plots_due in Hlen. rewrite Hflag in Hlen.
      destruct ps; [|discriminate Hlen]. cbn in Hpl, Hnp. auto.
    + destruct (Hex Hflag) as [Hpl Hnp]. auto.
  - cbn. intros [= <- <-]. auto.
Qed.

(** X4: [main] returns 0 or 1 or raises. It returns 1 only before the
    output is opened, so a run that returns 1 has written nothing; and it
    returns 0 only with the output opened. *)
Theorem main_return_values (args : Args) :
  (retval (main utils env args) = Ok 0 ∨
   retval (main utils env args) = Ok 1 ∨
   ∃ e, retval (main utils env args) = Raise e) ∧
  (retval (main utils env args) = Ok 1 → outf (main utils env args) = None) ∧
  (retval (main utils env args) = Ok 0 →
   is_Some (outf (main utils env args))).
Proof.
  assert (Htry : ∀ invcf vt groups sample_prefixes tgt,
    let o := main_try utils env args invcf vt groups sample_prefixes tgt in
    (retval o = Ok 0 ∨ retval o = Ok 1 ∨ ∃ e, retval o = Raise e) ∧
    (retval o = Ok 1 → outf o = None) ∧
    (retval o = Ok 0 → is_Some (outf o))).
  { intros invcf vt groups sample_prefixes tgt. unfold main_try.
    destruct (if truthy (args_region args) then _ else _) as [region|e].
    - destruct (for_each region _ _) as [[[]|e] st]; cbn.
      + split; [auto|]. split; [discriminate | eauto].
      + split; [eauto|]. split; discriminate.
    - cbn. split; [eauto|]. split; discriminate. }
  unfold main.
  destruct (negb (os_path_exists env (args_vcf args)));
    [cbn; split; [auto|]; split; [auto | discriminate]|].
  destruct (negb (out_dir_exists env (args_out args)));
    [cbn; split; [auto|]; split; [auto | discriminate]|].
  destruct (os_path_isdir env (args_out args) && endswith (args_out args) "/");
    [cbn; split; [auto|]; split; [auto | discriminate]|].
  destruct (load_samples env args) as [groups sample_prefixes| |e];
    [| cbn; split; [auto|]; split; [auto | discriminate]
     | cbn; split; [eauto|]; split; discriminate].
  cbn zeta.
  destruct (LoadSingleReader env (args_vcf args) _) as [[invcf|]|e];
    [| cbn; split; [auto|]; split; [auto | discriminate]
     | cbn; split; [eauto|]; split; discriminate].
  destruct (if negb (String.eqb (args_vcftype args) "auto") then _ else _)
    as [vt|e]; [| cbn; split; [eauto|]; split; discriminate].
  destruct (String.eqb (args_out args) "stdout").
  - destruct (args_plot_afreq args);
      [cbn; split; [eauto|]; split; discriminate | apply Htry].
  - destruct (open_w env _) as [[]|e];
      [apply Htry | cbn; split; [eauto|]; split; discriminate].
Qed.

End SuccessfulRuns.

Lemma successful_run_rows_witness :
  ∃ groups sample_prefixes invcf vt tgt region st rows,
    load_samples (demo_env (loci 2)) table_args
    = Loaded groups sample_prefixes ∧
    LoadSingleReader (demo_env (loci 2)) (args_vcf table_args)
                     (bool_decide (is_Some (args_region table_args)))
    = Ok (Some invcf) ∧
    main_vcftype (demo_env (loci 2)) table_args invcf = Ok vt ∧
    main_region table_args invcf = Ok region ∧
    outf (main demo_utils (demo_env (loci 2)) table_args) = Some (tgt, st) ∧
    written st
    = (join TAB (main_header table_args sample_prefixes) +:+ NL)
        :: concat rows ∧
    Forall2 (row_of demo_utils (demo_env (loci 2)) table_args vt
                    (main_precision_format table_args) groups)
            region rows ∧
    nrecords st = Z.of_nat (length region).
Proof.
  apply (successful_run_rows demo_utils (demo_env (loci 2)) table_args).
  vm_compute. reflexivity.
Defined.

Lemma successful_run_plots_witness :
  ∃ groups sample_prefixes invcf vt tgt region st,
    load_samples (demo_env (loci 2)) plot_args
    = Loaded groups sample_prefixes ∧
    LoadSingleReader (demo_env (loci 2)) (args_vcf plot_args)
                     (bool_decide (is_Some (args_region plot_args)))
    = Ok (Some invcf) ∧
    main_vcftype (demo_env (loci 2)) plot_args invcf = Ok vt ∧
    main_region plot_args invcf = Ok region ∧
    outf (main demo_utils (demo_env (loci 2)) plot_args) = Some (tgt, st) ∧
    length (plotted st)
    = (if args_plot_afreq plot_args
       then Nat.min (length region) (Z.to_nat (MAXPLOTS + 1)) else 0%nat) ∧
    Forall2 (plot_of (demo_env (loci 2)) plot_args vt sample_prefixes groups)
            (take (length (plotted st)) region) (plotted st).
Proof.
  apply (successful_run_plots demo_utils (demo_env (loci 2)) plot_args).
  vm_compute. reflexivity.
Defined.

Lemma no_plot_without_flag_witness :
  ∃ tgt st,
    outf (main demo_utils (demo_env (loci 2)) table_args) = Some (tgt, st) ∧
    plotted st = [] ∧ num_plotted st = 0.
Proof.
  destruct (outf (main demo_utils (demo_env (loci 2)) table_args))
    as [[tgt st]|] eqn:Hout; [|vm_compute in Hout; discriminate Hout].
  exists tgt, st. split; [reflexivity|].
  apply (no_plot_without_flag demo_utils (demo_env (loci 2)) table_args
           tgt st); [reflexivity | exact Hout].
Defined.

(** ** When a float can be formatted, and what the text is made of *)

Lemma format_general_Ok_iff (P : Z) (v : pyfloat) :
  (∃ s, format_general P v = Ok s) ↔ 0 ≤ P ≤ INT_MAX.
Proof.
  unfold format_general.
  destruct (Z.ltb_spec P 0); [split; [intros [s Hs]; discriminate Hs | lia]|].
  destruct (Z.ltb_spec INT_MAX P);
    [split; [intros [s Hs]; discriminate Hs | lia]|].
  split; [lia | eauto].
Qed.

(** X5: a statistic can be written exactly when it is not-a-number or the
    precision lies between 0 and [INT_MAX]; otherwise formatting raises
    [ValueError]. With a negative [--precision] only undefined values can be
    written. *)
Theorem format_nan_precision_succeeds (pf : fmt) (val : pyfloat) :
  ((∃ s, format_nan_precision pf val = Ok s)
   ↔ isnan val = true ∨ 0 ≤ fmt_precision pf ≤ INT_MAX) ∧
  (∀ e, format_nan_precision pf val = Raise e → ∃ msg, e = ValueError msg).
Proof.
  unfold format_nan_precision, str_format. destruct (isnan val).
  - split; [split; eauto | discriminate].
  - split.
    + rewrite <- (format_general_Ok_iff (fmt_precision pf) val). split.
      * intros [s Hs]. right.
        destruct (format_general (fmt_precision pf) val) as [t|e];
          [eauto | discriminate Hs].
      * intros [Hf | [t Ht]]; [discriminate Hf|]. rewrite Ht. cbn. eauto.
    + intros e. unfold format_general.
      destruct (fmt_precision pf <? 0); [cbn; intros [= <-]; eauto|].
      destruct (INT_MAX <? fmt_precision pf); [cbn; intros [= <-]; eauto|].
      discriminate.
Qed.

Lemma all_chars_append (p : ascii → bool) (s t : string) :
  all_chars p (s +:+ t) = all_chars p s && all_chars p t.
Proof.
  induction s as [|a s IH]; [reflexivity|].
  change (p a && all_chars p (s +:+ t) = p a && all_chars p s && all_chars p t).
  rewrite IH, andb_assoc. reflexivity.
Qed.

Lemma all_chars_mono (p q : ascii → bool) (s : string) :
  (∀ a, p a = true → q a = true) → all_chars p s = true → all_chars q s = true.
Proof.
  intros Hpq. induction s as [|a s IH]; [reflexivity|]. cbn [all_chars].
  intros Hs. apply andb_prop in Hs as [Ha Hs]. rewrite (Hpq a Ha), IH; auto.
Qed.

Lemma all_chars_substring (p : ascii → bool) (s : string) (i k : nat) :
  all_chars p s = true → all_chars p (String.substring i k s) = true.
Proof.
  revert i k. induction s as [|a s IH]; intros i k Hs.
  - destruct i, k; reflexivity.
  - cbn [all_chars] in Hs. apply andb_prop in Hs as [Ha Hs].
    destruct i as [|i].
    + destruct k as [|k]; [reflexivity|].
      change (p a && all_chars p (String.substring 0 k s) = true).
      rewrite Ha, IH; auto.
    + change (all_chars p (String.substring i k s) = true). apply IH, Hs.
Qed.

Lemma all_chars_zeros (k : nat) : all_chars is_digit (zeros k) = true.
Proof. induction k as [|k IH]; [reflexivity|]. cbn. exact IH. Qed.

Lemma digits_go_digits (fuel : nat) (n : N) (acc : string) :
  all_chars is_digit acc = true →
  all_chars is_digit (digits_go fuel n acc) = true.
Proof.
  revert n acc. induction fuel as [|f IH]; intros n acc Hacc; [exact Hacc|].
  cbn [digits_go].
  assert (Hacc' : all_chars is_digit
                    (String (digit_char (n mod 10)) acc) = true).
  { cbn [all_chars]. rewrite digit_char_is_digit by apply mod_10_lt.
    exact Hacc. }
  destruct (n <? 10)%N; [exact Hacc' | apply IH, Hacc'].
Qed.

Lemma str_N_digits (n : N) : all_chars is_digit (str_N n) = true.
Proof. apply digits_go_digits. reflexivity. Qed.

Lemma strip_zeros_chars (p : ascii → bool) (s : string) :
  all_chars p s = true → all_chars p (strip_zeros s) = true.
Proof.
  induction s as [|a s IH]; [reflexivity|]. cbn [all_chars strip_zeros].
  intros Hs. apply andb_prop in Hs as [Ha Hs]. specialize (IH Hs).
  destruct (strip_zeros s).
  - destruct (Ascii.eqb a "0"); [reflexivity|]. cbn. rewrite Ha. reflexivity.
  - cbn [all_chars] in *. rewrite Ha, IH. reflexivity.
Qed.

Lemma digits_of_digits (n : N) : all_chars is_digit (digits_of n) = true.
Proof.
  unfold digits_of.
  pose proof (strip_zeros_chars is_digit (str_N n) (str_N_digits n)) as Hs.
  destruct (strip_zeros (str_N n)); [reflexivity | exact Hs].
Qed.

Lemma digit_float_char (a : ascii) : is_digit a = true → float_char a = true.
Proof. intros Ha. unfold float_char. rewrite Ha. reflexivity. Qed.

Lemma pad_N_digits (width : nat) (n : N) :
  all_chars is_digit (pad_N width n) = true.
Proof.
  unfold pad_N. rewrite all_chars_append, all_chars_zeros, str_N_digits.
  reflexivity.
Qed.

Lemma str_exp_chars (e : Z) : all_chars float_char (str_exp e) = true.
Proof.
  unfold str_exp. rewrite !all_chars_append.
  rewrite (all_chars_mono is_digit float_char _ digit_float_char
             (pad_N_digits 2 (Z.abs_N e))).
  destruct (e <? 0); reflexivity.
Qed.

Lemma layout_general_chars (P : Z) (ds : string) (decpt : Z) :
  all_chars is_digit ds = true →
  all_chars float_char (layout_general P ds decpt) = true.
Proof.
  intros Hds.
  assert (Hf : all_chars float_char ds = true)
    by (eapply all_chars_mono; [apply digit_float_char | exact Hds]).
  assert (Hz : ∀ k, all_chars float_char (zeros k) = true).
  { intros k. eapply all_chars_mono; [apply digit_float_char|].
    apply all_chars_zeros. }
  unfold layout_general.
  destruct ((decpt <=? -4) || (P - 1 <? decpt)).
  - destruct ds as [|a [|b rest]].
    + apply str_exp_chars.
    + rewrite all_chars_append, str_exp_chars, Hf. reflexivity.
    + cbn [all_chars] in Hf. apply andb_prop in Hf as [Ha Hrest].
      change (String a ("." +:+ String b rest) +:+ str_exp (decpt - 1))
        with (String a (String "." (String b rest +:+ str_exp (decpt - 1)))).
      cbn [all_chars]. rewrite Ha.
      change (all_chars float_char (String b rest +:+ str_exp (decpt - 1))
              = true).
      rewrite all_chars_append, str_exp_chars.
      cbn [all_chars]. rewrite Hrest. reflexivity.
  - destruct (decpt <=? 0).
    + rewrite !all_chars_append, Hz, Hf. reflexivity.
    + destruct (decpt <? Z.of_nat (String.length ds)).
      * rewrite !all_chars_append.
        rewrite !(all_chars_substring float_char ds _ _ Hf). reflexivity.
      * rewrite !all_chars_append, Hz, Hf. reflexivity.
Qed.

Lemma format_general_chars (P : Z) (v : pyfloat) (s : string) :
  format_general P v = Ok s → all_chars float_char s = true.
Proof.
  unfold format_general.
  destruct (P <? 0); [discriminate|]. destruct (INT_MAX <? P); [discriminate|].
  intros [= <-]. destruct v as [|neg|neg n d].
  - reflexivity.
  - destruct neg; reflexivity.
  - rewrite all_chars_append. unfold general_digits.
    destruct (round_sig (Z.max P 1) n d) as [m X].
    rewrite layout_general_chars by apply digits_of_digits.
    destruct neg; reflexivity.
Qed.

(** X6: a float field is the delimiter followed by a text made only of
    digits, the point, the signs, the e of an exponent and the letters of
    inf and nan: it holds no tab and no newline, so it cannot break the
    columns or the lines of the output. *)
Theorem float_field_characters (args : Args) (val : pyfloat) (w : string) :
  format_nan_precision (main_precision_format args) val = Ok w →
  ∃ text, w = TAB +:+ text ∧ all_chars float_char text = true ∧
          all_chars (λ a, negb (Ascii.eqb a (ascii_of_nat 9)) &&
                          negb (Ascii.eqb a (ascii_of_nat 10))) text = true.
Proof.
  unfold format_nan_precision, str_format, main_precision_format.
  cbn [fmt_prefix fmt_precision].
  assert (Hno : ∀ a, float_char a = true →
                negb (Ascii.eqb a (ascii_of_nat 9)) &&
                negb (Ascii.eqb a (ascii_of_nat 10)) = true).
  { intros a Ha.
    destruct (Ascii.eqb_spec a (ascii_of_nat 9)) as [->|_];
      [discriminate Ha|].
    destruct (Ascii.eqb_spec a (ascii_of_nat 10)) as [->|_];
      [discriminate Ha | reflexivity]. }
  destruct (isnan val).
  - intros [= <-]. exists "nan". repeat split.
  - destruct (format_general (args_precision args) val) as [s|e] eqn:Hs;
      [|discriminate].
    cbn [result_bind]. intros [= <-]. exists s. split; [reflexivity|].
    pose proof (format_general_chars _ _ _ Hs) as Hc.
    split; [exact Hc | eapply all_chars_mono; eassumption].
Qed.

Lemma float_field_characters_witness :
  ∃ text, TAB +:+ "10.5" = TAB +:+ text ∧ all_chars float_char text = true ∧
          all_chars (λ a, negb (Ascii.eqb a (ascii_of_nat 9)) &&
                          negb (Ascii.eqb a (ascii_of_nat 10))) text = true.
Proof.
  apply (float_field_characters demo_args (FFin false 21 2)).
  vm_compute. reflexivity.
Defined.

(** ** Numerals read back *)

Lemma N_of_digits_app (a : N) (s t : string) :
  N_of_digits a (s +:+ t) = N_of_digits (N_of_digits a s) t.
Proof.
  revert a. induction s as [|c s IH]; intros a; [reflexivity|].
  change (N_of_digits (10 * a + digit_value c) (s +:+ t)
          = N_of_digits (N_of_digits (10 * a + digit_value c) s) t).
  apply IH.
Qed.

Lemma digit_value_digit_char (d : N) :
  (d < 10)%N → digit_value (digit_char d) = d.
Proof.
  intros Hd. unfold digit_value, digit_char.
  rewrite N_ascii_embedding by lia. lia.
Qed.

Lemma append_assoc (s t u : string) : (s +:+ t) +:+ u = s +:+ (t +:+ u).
Proof.
  induction s as [|a s IH]; [reflexivity|].
  change (String a ((s +:+ t) +:+ u) = String a (s +:+ (t +:+ u))).
  rewrite IH. reflexivity.
Qed.

Lemma digits_go_value (fuel : nat) (n : N) (acc : string) :
  (n < 10 ^ N.of_nat fuel)%N →
  ∃ s, digits_go fuel n acc = s +:+ acc ∧
       ∀ a, N_of_digits a s
            = (a * 10 ^ N.of_nat (String.length s) + n)%N.
Proof.
  revert n acc. induction fuel as [|f IH]; intros n acc Hn.
  - exists "". split; [reflexivity|]. intros a. cbn in *. lia.
  - cbn [digits_go]. destruct (N.ltb_spec n 10) as [Hlt|Hge].
    + exists (String (digit_char (n mod 10)) ""). split; [reflexivity|].
      intros a. cbn [N_of_digits String.length].
      rewrite digit_value_digit_char by apply mod_10_lt.
      rewrite N.mod_small by exact Hlt. cbn. lia.
    + replace (N.of_nat (S f)) with (N.of_nat f + 1)%N in Hn by lia.
      rewrite pow10_succ in Hn.
      assert (Hq : (n / 10 < 10 ^ N.of_nat f)%N)
        by (apply N.Div0.div_lt_upper_bound; exact Hn).
      destruct (IH (n / 10)%N (String (digit_char (n mod 10)) acc) Hq)
        as (s' & Hs' & Hv).
      exists (s' +:+ String (digit_char (n mod 10)) "").
      split; [rewrite Hs', append_assoc; reflexivity|].
      intros a. rewrite N_of_digits_app, Hv. cbn [N_of_digits].
      rewrite digit_value_digit_char by apply mod_10_lt.
      rewrite length_append. cbn [String.length].
      replace (N.of_nat (String.length s' + 1))
        with (N.of_nat (String.length s') + 1)%N by lia.
      rewrite pow10_succ.
      pose proof (N.div_mod n 10 ltac:(discriminate)) as Hdm.
      set (p := (10 ^ N.of_nat (String.length s'))%N) in *.
      set (q := (n / 10)%N) in *. set (r := (n mod 10)%N) in *. nia.
Qed.

Lemma str_N_value (n : N) : N_of_digits 0%N (str_N n) = n.
Proof.
  unfold str_N.
  destruct (digits_go_value (S (N.to_nat (N.log2 n))) n "") as (s & Hs & Hv).
  - replace (N.of_nat (S (N.to_nat (N.log2 n)))) with (N.succ (N.log2 n))
      by lia.
    eapply N.lt_le_trans; [|apply pow2_le_pow10].
    destruct (N.eq_dec n 0%N) as [->|Hn0]; [reflexivity|].
    apply N.log2_spec. lia.
  - rewrite Hs.
    replace (s +:+ "") with s
      by (clear; induction s as [|a s IH]; [reflexivity|];
          change (String a s = String a (s +:+ "")); rewrite <- IH;
          reflexivity).
    rewrite Hv. lia.
Qed.

Lemma str_int_value (z : Z) : int_of_str (str_int z) = z.
Proof.
  unfold str_int. destruct (Z.ltb_spec z 0) as [Hneg|Hpos].
  - change (- Z.of_N (N_of_digits 0%N (str_N (Z.abs_N z))) = z).
    rewrite str_N_value. lia.
  - pose proof (str_N_head (Z.abs_N z)) as Hhead.
    pose proof (str_N_value (Z.abs_N z)) as Hval.
    destruct (str_N (Z.abs_N z)) as [|a s] eqn:Hs; [cbn in *; lia|].
    unfold int_of_str.
    destruct (Ascii.eqb_spec a "-") as [->|_];
      [cbn in Hhead; discriminate Hhead|].
    rewrite Hval. lia.
Qed.

Lemma str_int_inj (x y : Z) : str_int x = str_int y → x = y.
Proof.
  intros Hxy. rewrite <- (str_int_value x), <- (str_int_value y), Hxy.
  reflexivity.
Qed.

(** X7: the two coordinates of a row after the chromosome are decimal
    numerals that read back as the numbers they were made from: the start
    is the position of the record, and the end minus the start is the
    length of the reference allele. *)
Theorem coordinates_read_back {allele : Type} `{Countable allele}
    (record : VcfRecord) (trrecord : TRRecord allele) :
  ∃ s e, coords_of record trrecord
         = CHROM record +:+ TAB +:+ s +:+ TAB +:+ e ∧
         int_of_str s = POS record ∧
         int_of_str e - int_of_str s
         = Z.of_nat (String.length (ref_allele trrecord)) ∧
         all_chars (λ a, is_digit a || Ascii.eqb a "-") s = true ∧
         all_chars (λ a, is_digit a || Ascii.eqb a "-") e = true.
Proof.
  assert (Hc : ∀ z, all_chars (λ a, is_digit a || Ascii.eqb a "-")
                              (str_int z) = true).
  { intros z. unfold str_int.
    assert (Hd : all_chars (λ a, is_digit a || Ascii.eqb a "-")
                           (str_N (Z.abs_N z)) = true).
    { eapply all_chars_mono; [|apply str_N_digits].
      intros a Ha. rewrite Ha. reflexivity. }
    destruct (z <? 0); [|exact Hd].
    rewrite all_chars_append, Hd. reflexivity. }
  exists (str_int (POS record)),
         (str_int (POS record + Z.of_nat (String.length (ref_allele trrecord)))).
  split; [reflexivity|]. rewrite !str_int_value.
  split; [reflexivity|]. split; [lia|]. split; apply Hc.
Qed.

(** ** The sample groups and their labels *)

Lemma mapM_result_Forall2 {A B} (f : A → result B) (l : list A) (l' : list B) :
  mapM_result f l = Ok l' → Forall2 (λ x y, f x = Ok y) l l'.
Proof.
  revert l'. induction l as [|x xs IH]; intros l'; cbn.
  - intros [= <-]. constructor.
  - destruct (f x) as [y|e] eqn:Hx; [|discriminate]. cbn.
    destruct (mapM_result f xs) as [ys|e]; [|discriminate]. cbn.
    intros [= <-]. constructor; [exact Hx | apply IH; reflexivity].
Qed.

Lemma mapM_result_Raise {A B} (f : A → result B) (l : list A) (e : exn) :
  mapM_result f l = Raise e → ∃ x, x ∈ l ∧ f x = Raise e.
Proof.
  induction l as [|x xs IH]; cbn; [discriminate|].
  destruct (f x) as [y|e'] eqn:Hx.
  - cbn. destruct (mapM_result f xs) as [ys|e'']; [discriminate|]. cbn.
    intros [= ->]. destruct (IH eq_refl) as (x' & Hin & Hx').
    exists x'. split; [right; exact Hin | exact Hx'].
  - cbn. intros [= ->]. exists x. split; [left | exact Hx].
Qed.

(** [str.strip] removes the next-line control and the no-break space with
    the ASCII white space, at both ends and nowhere else. *)
Lemma strip_white_space :
  strip (String (ascii_of_nat 133)
           ("s 1" +:+ String (ascii_of_nat 160) NL)) = "s 1".
Proof. reflexivity. Qed.

Section Samples.
Context {allele : Type} `{Countable allele}.
Context {vcftype : Type}.
Context (env : Env allele vcftype).

(** X8: how [main] builds the sample groups. Without [--samples] there is
    no group and no label, and [--sample-prefixes] is not looked at. The
    run ends on the label count exactly when both options are given and
    split into different numbers of items. Otherwise every group is the
    list of the stripped lines of its file, in the order of [--samples],
    and a failure is that of reading one of these files. *)
Theorem load_samples_cases (args : Args) :
  (truthy (args_samples args) = false → load_samples env args = Loaded [] []) ∧
  (load_samples env args = Mismatch
   ↔ truthy (args_samples args) = true ∧
     truthy (args_sample_prefixes args) = true ∧
     length (split COMMA (default "" (args_samples args)))
     ≠ length (split COMMA (default "" (args_sample_prefixes args)))) ∧
  (∀ groups sample_prefixes,
     truthy (args_samples args) = true →
     load_samples env args = Loaded groups sample_prefixes →
     Forall2 (λ sf group, ∃ lines, readlines env sf = Ok lines ∧
                                   group = Some (map strip lines))
             (split COMMA (default "" (args_samples args))) groups ∧
     sample_prefixes
     = if truthy (args_sample_prefixes args)
       then split COMMA (default "" (args_sample_prefixes args))
       else map (λ item, str_int (Z.of_nat item)) (seq 1 (length groups))) ∧
  (∀ e, load_samples env args = LoadError e →
        ∃ sf, sf ∈ split COMMA (default "" (args_samples args)) ∧
              readlines env sf = Raise e).
Proof.
  unfold load_samples.
  destruct (truthy (args_samples args)).
  2:{ split; [reflexivity|]. split; [split; [discriminate | intros [Hf _];
        discriminate Hf]|]. split; [discriminate | discriminate]. }
  set (sfiles := split COMMA (default "" (args_samples args))).
  split; [discriminate|].
  destruct (truthy (args_sample_prefixes args)).
  - set (prefixes := split COMMA (default "" (args_sample_prefixes args))).
    destruct (Nat.eqb_spec (length sfiles) (length prefixes)) as [Hlen|Hlen];
      cbn [negb].
    + destruct (mapM_result _ sfiles) as [sl|e] eqn:Hsl.
      * split; [split; [discriminate | intros (_ & _ & Hne); contradiction]|].
        split; [|discriminate]. intros groups sp _ [= <- <-].
        split; [|reflexivity].
        apply mapM_result_Forall2 in Hsl.
        eapply Forall2_impl; [exact Hsl|]. intros sf g Hg. cbn in Hg.
        destruct (readlines env sf) as [lines|e]; [|discriminate Hg].
        cbn in Hg. injection Hg as <-. eauto.
      * split; [split; [discriminate | intros (_ & _ & Hne); contradiction]|].
        split; [discriminate|]. intros e' [= <-].
        apply mapM_result_Raise in Hsl as (sf & Hin & Hsf).
        exists sf. split; [exact Hin|].
        destruct (readlines env sf) as [lines|e2]; [discriminate Hsf|].
        cbn in Hsf. injection Hsf as ->. reflexivity.
    + split; [split; [auto | reflexivity]|].
      split; [discriminate | discriminate].
  - rewrite length_map, length_seq, Nat.eqb_refl. cbn [negb].
    split; [split; [destruct (mapM_result _ sfiles); discriminate
                   | intros (_ & Hf & _); discriminate Hf]|].
    destruct (mapM_result _ sfiles) as [sl|e] eqn:Hsl.
    + split; [|discriminate]. intros groups sp _ [= <- <-].
      rewrite (mapM_result_length _ _ _ Hsl). split; [|reflexivity].
      apply mapM_result_Forall2 in Hsl.
      eapply Forall2_impl; [exact Hsl|]. intros sf g Hg. cbn in Hg.
      destruct (readlines env sf) as [lines|e]; [|discriminate Hg].
      cbn in Hg. injection Hg as <-. eauto.
    + split; [discriminate|]. intros e' [= <-].
      apply mapM_result_Raise in Hsl as (sf & Hin & Hsf).
      exists sf. split; [exact Hin|].
      destruct (readlines env sf) as [lines|e2]; [discriminate Hsf|].
      cbn in Hsf. injection Hsf as ->. reflexivity.
Qed.

(** X9: with [--samples] and without [--sample-prefixes] the labels are
    the numerals 1, 2, ... of the groups: as many as there are groups and
    pairwise distinct, so no two columns of a statistic share a name. *)
Theorem default_prefixes_distinct (args : Args) (groups : list samplelist)
    (sample_prefixes : list string) :
  truthy (args_samples args) = true →
  truthy (args_sample_prefixes args) = false →
  load_samples env args = Loaded groups sample_prefixes →
  length sample_prefixes = length groups ∧
  NoDup sample_prefixes ∧
  ∀ header, NoDup (GetHeader header sample_prefixes).
Proof.
  unfold load_samples. intros -> ->.
  set (sfiles := split COMMA (default "" (args_samples args))).
  rewrite length_map, length_seq, Nat.eqb_refl. cbn [negb].
  destruct (mapM_result _ sfiles) as [sl|e] eqn:Hsl; [|discriminate].
  intros [= <- <-]. apply mapM_result_length in Hsl.
  assert (Hnd : NoDup (map (λ item, str_int (Z.of_nat item))
                           (seq 1 (length sfiles)))).
  { change (NoDup ((λ item, str_int (Z.of_nat item))
                     <$> seq 1 (length sfiles))).
    apply NoDup_fmap_2; [|apply NoDup_seq].
    intros x y Hxy. apply str_int_inj in Hxy. lia. }
  split; [rewrite length_map, length_seq; congruence|].
  split; [exact Hnd|].
  intros header. unfold GetHeader.
  destruct (decide _); [repeat constructor; intros Hin; inversion Hin|].
  change (NoDup ((λ sp, header +:+ "-" +:+ sp)
                   <$> map (λ item, str_int (Z.of_nat item))
                           (seq 1 (length sfiles)))).
  apply NoDup_fmap_2; [|exact Hnd].
  intros x y Hxy.
  assert (Happ : ∀ p a b : string, p +:+ a = p +:+ b → a = b).
  { clear. induction p as [|c p IH]; intros a b Hab; [exact Hab|].
    injection Hab as Hab. apply IH, Hab. }
  eapply Happ, Happ. exact Hxy.
Qed.

End Samples.

Lemma default_prefixes_distinct_witness :
  length ["1"; "2"] = length [Some ["s1"; "s2"]; Some ["s1"; "s2"]] ∧
  NoDup ["1"; "2"] ∧
  ∀ header, NoDup (GetHeader header ["1"; "2"]).
Proof.
  apply (default_prefixes_distinct (demo_env (loci 2)) unlabelled_args);
    vm_compute; reflexivity.
Defined.

(** ** What a plot is made of *)

Section PlotOutcome.
Context {allele : Type} `{Countable allele} `{!AlleleOps allele}.

Lemma union_doms_empty {V} (f : samplelist → gmap allele V)
    (samplelists : list samplelist) (s : gset allele) :
  foldl (λ s afreqs, s ∪ dom afreqs) s (map f samplelists) = ∅
  ↔ s = ∅ ∧ ∀ sl, sl ∈ samplelists → f sl = ∅.
Proof.
  revert s. induction samplelists as [|sl rest IH]; intros s; cbn [map foldl].
  - split; [intros ->; split; [reflexivity|]; intros sl Hin; inversion Hin
           | intros [-> _]; reflexivity].
  - rewrite IH. split.
    + intros [Hu Hrest]. apply empty_union_L in Hu as [Hs Hd].
      apply dom_empty_iff_L in Hd. split; [exact Hs|].
      intros sl' Hin. apply elem_of_cons in Hin as [->|Hin]; auto.
    + intros [-> Hall]. split.
      * rewrite (Hall sl) by left. rewrite dom_empty_L.
        apply (left_id_L ∅ (∪)).
      * intros sl' Hin. apply Hall. right. exact Hin.
Qed.

Lemma labels_take (labels : list string) (k : nat) :
  (k ≤ length labels)%nat →
  mapM_result (λ i, getitem labels i) (seq 0 k) = Ok (take k labels).
Proof.
  induction k as [|k IH]; intros Hk; [reflexivity|].
  rewrite seq_S, mapM_result_app, IH by lia. cbn.
  unfold getitem.
  destruct (lookup_lt_is_Some_2 labels k ltac:(lia)) as [x Hx].
  rewrite Hx. cbn. rewrite (take_S_r _ _ _ Hx). reflexivity.
Qed.

Lemma labels_short (labels : list string) (k : nat) :
  (length labels < k)%nat →
  mapM_result (λ i, getitem labels i) (seq 0 k)
  = Raise (IndexError "list index out of range").
Proof.
  induction k as [|k IH]; intros Hk; [lia|].
  rewrite seq_S, mapM_result_app.
  destruct (decide (length labels < k)%nat) as [Hlt|Hge].
  - rewrite IH by exact Hlt. reflexivity.
  - rewrite labels_take by lia. cbn. unfold getitem.
    rewrite lookup_ge_None_2 by lia. reflexivity.
Qed.

(** X10: what [PlotAlleleFreqs] does. With no group it plots the single
    group of all samples under the label sample, whatever labels it was
    given. With groups, it raises [ValueError] when no group has an allele
    at the locus, [IndexError] when there are fewer labels than groups, and
    otherwise gives the renderer the file
    [outprefix-CHROM-POS.pdf], the length-based frequencies of each group
    and the labels of the groups; labels beyond the groups are not used. *)
Theorem PlotAlleleFreqs_outcome (trrecord : TRRecord allele)
    (outprefix : string) (samplelists : list samplelist)
    (sampleprefixes : list string) :
  PlotAlleleFreqs trrecord outprefix [] sampleprefixes
  = PlotAlleleFreqs trrecord outprefix [None] ["sample"] ∧
  (samplelists ≠ [] →
   ((∀ sl, sl ∈ samplelists → GetAlleleFreqs trrecord true sl = ∅) →
    PlotAlleleFreqs trrecord outprefix samplelists sampleprefixes
    = Raise (ValueError "min() arg is an empty sequence")) ∧
   ((∃ sl, sl ∈ samplelists ∧ GetAlleleFreqs trrecord true sl ≠ ∅) →
    (length sampleprefixes < length samplelists)%nat →
    PlotAlleleFreqs trrecord outprefix samplelists sampleprefixes
    = Raise (IndexError "list index out of range")) ∧
   ((∃ sl, sl ∈ samplelists ∧ GetAlleleFreqs trrecord true sl ≠ ∅) →
    (length samplelists ≤ length sampleprefixes)%nat →
    PlotAlleleFreqs trrecord outprefix samplelists sampleprefixes
    = Ok {| plot_fname :=
              outprefix +:+ "-" +:+ CHROM (vcfrecord trrecord) +:+ "-" +:+
              str_int (POS (vcfrecord trrecord)) +:+ ".pdf";
            plot_labels := take (length samplelists) sampleprefixes;
            plot_freqs :=
              map (λ sl, GetAlleleFreqs trrecord true sl) samplelists |})).
Proof.
  split; [reflexivity|]. intros Hne. unfold PlotAlleleFreqs.
  destruct (decide (samplelists = [])) as [Hnil|_]; [contradiction|].
  pose proof (union_doms_empty (λ sl, GetAlleleFreqs trrecord true sl)
                samplelists ∅) as Hiff.
  destruct (decide (foldl _ ∅ _ = ∅)) as [Hempty|Hcalled].
  - apply Hiff in Hempty as [_ Hall].
    split; [reflexivity|].
    split; intros (sl & Hin & Hsl); destruct (Hsl (Hall sl Hin)).
  - split; [intros Hall; destruct Hcalled; apply Hiff; auto|].
    split; intros _ Hlen.
    + rewrite labels_short by exact Hlen. reflexivity.
    + rewrite labels_take by exact Hlen. reflexivity.
Qed.

(** ** The marker of an empty distribution *)

Lemma keys_nil {V} (d : gmap allele V) : length (keys d) = 0%nat ↔ d = ∅.
Proof.
  unfold keys. rewrite length_fmap. split.
  - intros Hlen. apply map_to_list_empty_iff.
    destruct (map_to_list d); [reflexivity | discriminate Hlen].
  - intros ->. rewrite map_to_list_empty. reflexivity.
Qed.

Lemma join_length_ge (sep x : string) (xs : list string) :
  (String.length x ≤ String.length (join sep (x :: xs)))%nat.
Proof.
  destruct xs as [|y ys]; [reflexivity|].
  change (join sep (x :: y :: ys)) with (x +:+ sep +:+ join sep (y :: ys)).
  rewrite length_append. lia.
Qed.

Lemma table_not_marker (items : list allele) (f : allele → string) :
  items ≠ [] → (∀ a, (1 ≤ String.length (f a))%nat) →
  join "," (map (λ a, allele_str a +:+ ":" +:+ f a) items) ≠ ".".
Proof.
  intros Hne Hf Heq. destruct items as [|a rest]; [contradiction|].
  pose proof (join_length_ge ","
                (allele_str a +:+ ":" +:+ f a)
                (map (λ a, allele_str a +:+ ":" +:+ f a) rest)) as Hlen.
  change (map (λ a, allele_str a +:+ ":" +:+ f a) (a :: rest))
    with ((allele_str a +:+ ":" +:+ f a)
            :: map (λ a, allele_str a +:+ ":" +:+ f a) rest) in Heq.
  rewrite Heq in Hlen. rewrite !length_append in Hlen.
  specialize (Hf a). cbn [String.length] in Hlen. lia.
Qed.

Lemma sorted_keys_nonempty {V} (d : gmap allele V) :
  d ≠ ∅ → sorted (keys d) ≠ [].
Proof.
  intros Hd Hs. apply Hd, keys_nil.
  pose proof (merge_sort_Permutation not_after (keys d)) as Hp.
  unfold sorted in Hs. rewrite Hs in Hp.
  apply Permutation_length in Hp. rewrite <- Hp. reflexivity.
Qed.

Lemma str_int_nonempty (z : Z) : (1 ≤ String.length (str_int z))%nat.
Proof.
  unfold str_int.
  assert (Hn : (1 ≤ String.length (str_N (Z.abs_N z)))%nat).
  { pose proof (str_N_head (Z.abs_N z)) as Hh.
    destruct (str_N (Z.abs_N z)); [destruct Hh | cbn; lia]. }
  destruct (z <? 0); [rewrite length_append; lia | exact Hn].
Qed.

Lemma format_fixed_nonempty (P : nat) (v : pyfloat) :
  (1 ≤ String.length (format_fixed P v))%nat.
Proof.
  destruct v as [|neg|neg n d]; [cbn; lia | destruct neg; cbn; lia |].
  unfold format_fixed. rewrite !length_append.
  pose proof (str_N_head
                (round_at n d (- Z.of_nat P) / 10 ^ N.of_nat P)) as Hh.
  destruct (str_N _); [destruct Hh | cbn [String.length]; lia].
Qed.

(** X11: a field of [--afreq] or [--acount] is the marker [.] exactly when
    the distribution of the group is empty, whatever the alleles are
    called: a table with an entry is never mistaken for the marker. *)
Theorem afreq_marker_iff_empty (allele_counts : gmap allele Z)
    (allele_freqs : gmap allele pyfloat) :
  (afreq_counts_str allele_counts = "." ↔ allele_counts = ∅) ∧
  (afreq_freqs_str allele_freqs = "." ↔ allele_freqs = ∅).
Proof.
  unfold afreq_counts_str, afreq_freqs_str. split.
  - destruct (decide (length (keys allele_counts) = 0%nat)) as [He|Hne].
    + split; [intros _; apply keys_nil, He | reflexivity].
    + split; [|intros Hd; destruct Hne; apply keys_nil, Hd].
      intros Heq. exfalso. revert Heq.
      apply (table_not_marker _
               (λ a, str_int (default 0 (allele_counts !! a)))).
      * apply sorted_keys_nonempty. intros Hd. apply Hne, keys_nil, Hd.
      * intros a. apply str_int_nonempty.
  - destruct (decide (length (keys allele_freqs) = 0%nat)) as [He|Hne].
    + split; [intros _; apply keys_nil, He | reflexivity].
    + split; [|intros Hd; destruct Hne; apply keys_nil, Hd].
      intros Heq. exfalso. revert Heq.
      apply (table_not_marker _
               (λ a, format_fixed 3
                       (default (f_of_Z 0) (allele_freqs !! a)))).
      * apply sorted_keys_nonempty. intros Hd. apply Hne, keys_nil, Hd.
      * intros a. apply format_fixed_nonempty.
Qed.

End PlotOutcome.

(** ** Runs that open their output *)

Section OpenedRuns.
Context {allele : Type} `{Countable allele} `{!AlleleOps allele}.
Context {vcftype : Type}.
Context (utils : Utils allele) (env : Env allele vcftype).

Lemma main_try_target (args : Args) (invcf : Reader) (vt : vcftype)
    (groups : list samplelist) (sample_prefixes : list string)
    (tgt0 tgt : target) (st : St allele) :
  outf (main_try utils env args invcf vt groups sample_prefixes tgt0)
  = Some (tgt, st) → tgt = tgt0.
Proof.
  unfold main_try.
  destruct (if truthy (args_region args) then _ else _) as [region|e].
  - destruct (for_each region _ _) as [r st']. cbn. congruence.
  - cbn. congruence.
Qed.

(** A run that opened its output loaded its inputs and is the [try] block
    on them. *)
Lemma main_opened (args : Args) (tgt : target) (st : St allele) :
  outf (main utils env args) = Some (tgt, st) →
  ∃ groups sample_prefixes invcf vt,
    load_samples env args = Loaded groups sample_prefixes ∧
    LoadSingleReader env (args_vcf args)
                     (bool_decide (is_Some (args_region args)))
    = Ok (Some invcf) ∧
    main_vcftype env args invcf = Ok vt ∧
    main utils env args
    = main_try utils env args invcf vt groups sample_prefixes tgt.
Proof.
  unfold main, main_vcftype.
  destruct (negb (os_path_exists env (args_vcf args))); [discriminate|].
  destruct (negb (out_dir_exists env (args_out args))); [discriminate|].
  destruct (os_path_isdir env (args_out args) && endswith (args_out args) "/");
    [discriminate|].
  destruct (load_samples env args) as [groups sample_prefixes| |e];
    [|discriminate|discriminate].
  cbn zeta.
  destruct (LoadSingleReader env (args_vcf args) _) as [[invcf|]|e];
    [|discriminate|discriminate].
  destruct (if negb (String.eqb (args_vcftype args) "auto") then _ else _)
    as [vt|e] eqn:Hvt; [|discriminate].
  destruct (String.eqb (args_out args) "stdout").
  - destruct (args_plot_afreq args); [discriminate|]. intros Hout.
    rewrite (main_try_target _ _ _ _ _ _ _ _ Hout).
    exists groups, sample_prefixes, invcf, vt. auto.
  - destruct (open_w env _) as [[]|e]; [|discriminate]. intros Hout.
    rewrite (main_try_target _ _ _ _ _ _ _ _ Hout).
    exists groups, sample_prefixes, invcf, vt. auto.
Qed.

(** The [try] block, from the result of its loop. *)
Lemma main_try_loop (args : Args) (invcf : Reader) (vt : vcftype)
    (groups : list samplelist) (sample_prefixes : list string)
    (tgt : target) (region : list VcfRecord) (r : result unit)
    (st : St allele) :
  main_region args invcf = Ok region →
  for_each region
    (process_record utils env args vt sample_prefixes
                    (main_precision_format args))
    (initial_state args groups sample_prefixes) = (r, st) →
  main_try utils env args invcf vt groups sample_prefixes tgt
  = {| retval := match r with Ok _ => Ok 0 | Raise e => Raise e end;
       messages := []; outf := Some (tgt, st) |}.
Proof.
  unfold main_try, main_region. intros -> Hloop.
  change {| sample_lists := groups; num_plotted := 0; nrecords := 0;
            written := [join TAB (main_header args sample_prefixes) +:+ NL];
            plotted := [] |}
    with (initial_state (allele := allele) args groups sample_prefixes).
  rewrite Hloop. reflexivity.
Qed.

(** X12: when the [try] block is left before the output stream exists, the
    [finally] clause reads the unbound [outf]: with [--out stdout] and
    [--plot-afreq] the run does not return 1 after its message but raises,
    and a failure to open the output file ends as the same exception.
    Nothing is written and no record is read. *)
Theorem try_left_before_outf_raises (args : Args)
    (groups : list samplelist) (sample_prefixes : list string)
    (invcf : Reader) (vt : vcftype) :
  os_path_exists env (args_vcf args) = true →
  out_dir_exists env (args_out args) = true →
  os_path_isdir env (args_out args) && endswith (args_out args) "/" = false →
  load_samples env args = Loaded groups sample_prefixes →
  LoadSingleReader env (args_vcf args)
                   (bool_decide (is_Some (args_region args)))
  = Ok (Some invcf) →
  main_vcftype env args invcf = Ok vt →
  (args_out args = "stdout" ∧ args_plot_afreq args = true) ∨
  (args_out args ≠ "stdout" ∧
   ∃ e, open_w env (args_out args +:+ ".tab") = Raise e) →
  retval (main utils env args) = Raise outf_unbound ∧
  outf (main utils env args) = None ∧
  (args_out args = "stdout" →
   messages (main utils env args)
   = ["Cannot use --out stdout when generating plots"]).
Proof.
  unfold main, main_vcftype. intros -> -> -> -> -> Hvt Hcase. cbn [negb].
  cbn zeta. rewrite Hvt.
  destruct Hcase as [[Hout Hplot] | [Hout [e He]]].
  - rewrite Hout, Hplot. cbn.
    split; [reflexivity|]. split; [reflexivity|]. intros _. reflexivity.
  - apply String.eqb_neq in Hout. rewrite Hout, He. cbn.
    split; [reflexivity|]. split; [reflexivity|].
    intros Heq. rewrite Heq in Hout. discriminate Hout.
Qed.

Lemma plot_without_label (trrecord : TRRecord allele) (outprefix : string)
    (p : Plot allele) :
  PlotAlleleFreqs trrecord outprefix [None] [] ≠ Ok p.
Proof.
  unfold PlotAlleleFreqs. destruct (decide ([None] = []));
    [discriminate|].
  destruct (decide _); discriminate.
Qed.

(** The loop over two records or more, started without groups, with plots
    and with a statistic whose computer appends: the plot of the second
    record meets a group without a label. *)
Lemma second_record_stops (args : Args) (vt : vcftype) (pf : fmt)
    (r1 r2 : VcfRecord) (rest : list VcfRecord) (st0 st : St allele)
    (r : result unit) :
  args_plot_afreq args = true →
  some_appends args stat_order = true →
  sample_lists st0 = [] → num_plotted st0 = 0 → plotted st0 = [] →
  nrecords st0 = 0 →
  for_each (r1 :: r2 :: rest) (process_record utils env args vt [] pf) st0
  = (r, st) →
  (∃ e, r = Raise e) ∧ 1 ≤ nrecords st ≤ 2 ∧ (length (plotted st) ≤ 1)%nat.
Proof.
  intros Hflag Happ Hsl0 Hnp0 Hpl0 Hn0.
  assert (Hno : ∀ (tr : TRRecord allele) (sa sb : St allele),
            sample_lists sa = [None] → num_plotted sa = 1 →
            ¬ plot_effect args [] tr sa sb).
  { intros tr sa sb Hsa Hna. unfold plot_effect.
    rewrite Hflag, Hna, Hsa. cbn. intros (p & Hp & _).
    exact (plot_without_label _ _ _ Hp). }
  cbn [for_each]. unfold bind at 1.
  pose proof (process_record_exact utils env args vt [] pf r1 st0) as H1.
  unfold wp in H1.
  destruct (process_record utils env args vt [] pf r1 st0) as [[[]|e] st1].
  - destruct H1 as (tr1 & f1 & _ & _ & _ & Hsl1 & Hn1 & Heff1).
    unfold plot_effect in Heff1. rewrite Hflag, Hnp0 in Heff1.
    cbn in Heff1. destruct Heff1 as (p1 & _ & Hpl1 & Hnp1).
    rewrite Hsl0 in Hsl1. unfold groups_after in Hsl1.
    rewrite Happ in Hsl1. cbn in Hsl1.
    unfold bind at 1.
    pose proof (process_record_exact utils env args vt [] pf r2 st1) as H2.
    unfold wp in H2.
    destruct (process_record utils env args vt [] pf r2 st1) as [[[]|e] st2].
    + destruct H2 as (tr2 & f2 & _ & _ & _ & _ & _ & Heff2).
      destruct (Hno tr2 st1 st2 Hsl1 Hnp1 Heff2).
    + intros [= <- <-]. split; [eauto|].
      destruct H2 as (Hn2 & Hcases). rewrite Hn2, Hn1, Hn0.
      split; [lia|].
      destruct Hcases as [(_ & _ & Hpl2 & _)
                         | [(tr2 & _ & _ & _ & _ & Hpl2 & _)
                           | (tr2 & _ & Heff2 & _)]].
      * rewrite Hpl2, Hpl1, Hpl0. cbn. lia.
      * rewrite Hpl2, Hpl1, Hpl0. cbn. lia.
      * destruct (Hno tr2 st1 st2 Hsl1 Hnp1 Heff2).
  - intros [= <- <-]. split; [eauto|].
    destruct H1 as (Hn1 & Hcases). rewrite Hn1, Hn0. split; [lia|].
    destruct Hcases as [(_ & _ & Hpl1 & _)
                       | [(tr1 & _ & _ & _ & _ & Hpl1 & _)
                         | (tr1 & _ & Heff1 & _)]].
    + rewrite Hpl1, Hpl0. cbn. lia.
    + rewrite Hpl1, Hpl0. cbn. lia.
    + unfold plot_effect in Heff1. rewrite Hflag, Hnp0 in Heff1.
      cbn in Heff1. destruct Heff1 as (p1 & _ & Hpl1 & _).
      rewrite Hpl1, Hpl0. cbn. lia.
Qed.

(** X13: a run with [--plot-afreq], without [--samples] and with a
    statistic other than the threshold never finishes a region of two
    records or more. The first computer called leaves the group of all
    samples in the group list, and the plot of the second record then finds
    a group without a label: the run raises, having read at most two
    records and made at most one plot. *)
Theorem plots_without_samples_stop (args : Args) (invcf : Reader)
    (region : list VcfRecord) :
  args_plot_afreq args = true →
  truthy (args_samples args) = false →
  some_appends args stat_order = true →
  LoadSingleReader env (args_vcf args)
                   (bool_decide (is_Some (args_region args)))
  = Ok (Some invcf) →
  main_region args invcf = Ok region →
  (2 ≤ length region)%nat →
  retval (main utils env args) ≠ Ok 0 ∧
  ∀ tgt st, outf (main utils env args) = Some (tgt, st) →
    (∃ e, retval (main utils env args) = Raise e) ∧
    1 ≤ nrecords st ≤ 2 ∧ (length (plotted st) ≤ 1)%nat.
Proof.
  intros Hflag Hsamples Happ Hreader Hregion Hlen.
  assert (Hopened : ∀ tgt st, outf (main utils env args) = Some (tgt, st) →
            (∃ e, retval (main utils env args) = Raise e) ∧
            1 ≤ nrecords st ≤ 2 ∧ (length (plotted st) ≤ 1)%nat).
  { intros tgt st Hout.
    destruct (main_opened args tgt st Hout)
      as (groups & sample_prefixes & invcf' & vt & Hload & Hreader' & _
          & Hmain).
    rewrite Hreader in Hreader'. injection Hreader' as <-.
    unfold load_samples in Hload. rewrite Hsamples in Hload.
    injection Hload as <- <-.
    destruct region as [|r1 [|r2 rest]]; [cbn in Hlen; lia..|].
    destruct (for_each (r1 :: r2 :: rest)
                (process_record utils env args vt []
                                (main_precision_format args))
                (initial_state args [] [])) as [r st'] eqn:Hloop.
    rewrite Hmain in Hout |- *.
    rewrite (main_try_loop args invcf vt [] [] tgt _ r st' Hregion Hloop)
      in Hout |- *.
    cbn in Hout |- *. injection Hout as <-.
    destruct (second_record_stops args vt (main_precision_format args)
                r1 r2 rest (initial_state args [] []) st' r Hflag Happ
                eq_refl eq_refl eq_refl eq_refl Hloop)
      as ([e ->] & Hn & Hp).
    split; [eauto|]. split; [exact Hn | exact Hp]. }
  split; [|exact Hopened].
  intros Hret.
  destruct (main_returns_0 utils env args Hret)
    as (groups & sample_prefixes & invcf' & vt & tgt & region' & st
        & _ & _ & _ & _ & _ & Hout).
  destruct (Hopened tgt st Hout) as ([e He] & _).
  rewrite He in Hret. discriminate Hret.
Qed.

End OpenedRuns.

Lemma try_left_before_outf_raises_witness :
  retval (main demo_utils (demo_env (loci 2)) stdout_plot_args)
  = Raise outf_unbound ∧
  outf (main demo_utils (demo_env (loci 2)) stdout_plot_args) = None ∧
  (args_out stdout_plot_args = "stdout" →
   messages (main demo_utils (demo_env (loci 2)) stdout_plot_args)
   = ["Cannot use --out stdout when generating plots"]).
Proof.
  apply (try_left_before_outf_raises demo_utils (demo_env (loci 2))
           stdout_plot_args [] []
           {| reader_records := loci 2; reader_fetch := λ _, Ok (loci 2) |}
           tt); try reflexivity.
  left. split; reflexivity.
Defined.

Lemma plots_without_samples_stop_witness :
  retval (main demo_utils (demo_env (loci 2)) plot_all_args) ≠ Ok 0 ∧
  ∀ tgt st,
    outf (main demo_utils (demo_env (loci 2)) plot_all_args)
    = Some (tgt, st) →
    (∃ e, retval (main demo_utils (demo_env (loci 2)) plot_all_args)
          = Raise e) ∧
    1 ≤ nrecords st ≤ 2 ∧ (length (plotted st) ≤ 1)%nat.
Proof.
  apply (plots_without_samples_stop demo_utils (demo_env (loci 2))
           plot_all_args
           {| reader_records := loci 2; reader_fetch := λ _, Ok (loci 2) |}
           (loci 2)); reflexivity.
Defined.

(** ** The command line check and the exit status *)

Section EntryPoint.
Context {allele : Type} `{Countable allele} `{!AlleleOps allele}.
Context {vcftype : Type}.
Context (utils : Utils allele) (env : Env allele vcftype).

(** X14: [run] exits with status 1, without calling [main], when no flag
    of the Stats group is set. It exits with status 0 only when a flag of
    that group is set, [main] returned 0 and the output was opened. *)
Theorem run_exit_status (parsed : Args) :
  (existsb snd (stat_dict parsed) = false →
   run utils env parsed = (Ok 1, None) ∧
   snd (getargs parsed) ≠ []) ∧
  (fst (run utils env parsed) = Ok 0 →
   existsb snd (stat_dict parsed) = true ∧
   snd (run utils env parsed) = Some (main utils env parsed) ∧
   retval (main utils env parsed) = Ok 0 ∧
   is_Some (outf (main utils env parsed))).
Proof.
  unfold run, getargs. destruct (existsb snd (stat_dict parsed)); cbn.
  - split; [discriminate|]. intros Hret.
    split; [reflexivity|]. split; [reflexivity|]. split; [exact Hret|].
    destruct (main_returns_0 utils env parsed Hret)
      as (groups & sample_prefixes & invcf & vt & tgt & region & st
          & _ & _ & _ & _ & _ & Hout).
    rewrite Hout. eauto.
  - split; [|discriminate]. intros _. split; [reflexivity | discriminate].
Qed.

Lemma row_values_none (args : Args) (trrecord : TRRecord allele)
    (groups : list samplelist) :
  (∀ s, requested args s = false) → row_values utils args trrecord groups = [].
Proof.
  intros Hnone. unfold row_values, block_values, stat_order. cbn [map].
  rewrite !Hnone. reflexivity.
Qed.

(** X15: [--use-length] alone passes the check of [getargs], although it
    asks for no statistic: the run then writes a table of coordinates
    only, the header line chrom, start, end and one row of three columns
    per record. *)
Theorem use_length_alone_gives_bare_table (args : Args) :
  args_use_length args = true →
  (∀ s, requested args s = false) →
  getargs args = (Some args, []) ∧
  (retval (main utils env args) = Ok 0 →
   ∃ tgt st invcf vt region rows,
     outf (main utils env args) = Some (tgt, st) ∧
     main_vcftype env args invcf = Ok vt ∧
     main_region args invcf = Ok region ∧
     written st
     = ("chrom" +:+ TAB +:+ "start" +:+ TAB +:+ "end" +:+ NL) :: concat rows ∧
     Forall2 (λ record row,
                ∃ trrecord, HarmonizeRecord env vt record = Ok trrecord ∧
                            row = [coords_of record trrecord; NL])
             region rows).
Proof.
  intros Huse Hnone. split.
  - unfold getargs, stat_dict. cbn [existsb snd]. rewrite Huse.
    rewrite !orb_true_r. reflexivity.
  - intros Hret.
    destruct (main_returns_0 utils env args Hret)
      as (groups & sample_prefixes & invcf & vt & tgt & region & st
          & Hload & Hreader & Hvt & Hregion & Hloop & Hout).
    pose proof (loop_exact utils env args vt sample_prefixes
                  (main_precision_format args) region
                  (initial_state args groups sample_prefixes)) as Hex.
    unfold wp in Hex. rewrite Hloop in Hex.
    destruct Hex as (rows & ps & Hw & Hrows & _).
    exists tgt, st, invcf, vt, region, rows.
    split; [exact Hout|]. split; [exact Hvt|]. split; [exact Hregion|].
    split.
    + rewrite Hw. cbn [written initial_state app]. f_equal.
      unfold main_header, extend_if.
      pose proof (Hnone Thresh) as H1. pose proof (Hnone AFreq) as H2.
      pose proof (Hnone ACount) as H3. pose proof (Hnone HWEP) as H4.
      pose proof (Hnone Het) as H5. pose proof (Hnone Entropy) as H6.
      pose proof (Hnone Mean) as H7. pose proof (Hnone Mode) as H8.
      pose proof (Hnone Var) as H9. pose proof (Hnone NumCalled) as H10.
      cbn [requested] in *.
      rewrite H1, H2, H3, H4, H5, H6, H7, H8, H9, H10. reflexivity.
    + eapply Forall2_impl; [exact Hrows|].
      intros record row (trrecord & fields & Hrec & Hf & Hrow).
      exists trrecord. split; [exact Hrec|].
      rewrite row_values_none in Hf by exact Hnone.
      cbn in Hf. injection Hf as <-. exact Hrow.
Qed.

End EntryPoint.

Lemma use_length_alone_witness :
  getargs use_length_args = (Some use_length_args, []) ∧
  ∃ tgt st invcf vt region rows,
    outf (main demo_utils (demo_env (loci 2)) use_length_args)
    = Some (tgt, st) ∧
    main_vcftype (demo_env (loci 2)) use_length_args invcf = Ok vt ∧
    main_region use_length_args invcf = Ok region ∧
    written st
    = ("chrom" +:+ TAB +:+ "start" +:+ TAB +:+ "end" +:+ NL) :: concat rows ∧
    Forall2 (λ record row,
               ∃ trrecord,
                 HarmonizeRecord (demo_env (loci 2)) vt record
                 = Ok trrecord ∧
                 row = [coords_of record trrecord; NL])
            region rows.
Proof.
  destruct (use_length_alone_gives_bare_table demo_utils (demo_env (loci 2))
              use_length_args) as [Hcheck Hrun];
    [reflexivity | intros []; reflexivity |].
  split; [exact Hcheck|]. apply Hrun. vm_compute. reflexivity.
Defined.

Lemma plots_at_most_MAXPLOTS_plus_one_witness :
  ∃ tgt st,
    outf (main demo_utils (demo_env (loci 12)) plot_args) = Some (tgt, st) ∧
    num_plotted st = Z.of_nat (length (plotted st)) ∧
    Z.of_nat (length (plotted st)) ≤ MAXPLOTS + 1.
Proof.
  destruct (outf (main demo_utils (demo_env (loci 12)) plot_args))
    as [[tgt st]|] eqn:Hout; [|vm_compute in Hout; discriminate Hout].
  exists tgt, st. split; [reflexivity|].
  apply (plots_at_most_MAXPLOTS_plus_one demo_utils (demo_env (loci 12))
           plot_args tgt st).
  exact Hout.
Defined.

(** ** The frequencies of a table *)

Lemma N_of_digits_shift (a : N) (s : string) :
  N_of_digits a s
  = (a * 10 ^ N.of_nat (String.length s) + N_of_digits 0 s)%N.
Proof.
  revert a. induction s as [|c s IH]; intros a; [cbn; lia|].
  cbn [N_of_digits String.length].
  rewrite (IH (10 * a + digit_value c)%N), (IH (10 * 0 + digit_value c)%N).
  replace (N.of_nat (S (String.length s)))
    with (N.of_nat (String.length s) + 1)%N by lia.
  rewrite pow10_succ. lia.
Qed.

Lemma N_of_digits_zeros (k : nat) : N_of_digits 0 (zeros k) = 0%N.
Proof. induction k as [|k IH]; [reflexivity | exact IH]. Qed.

Lemma pad_N_value (width : nat) (n : N) : N_of_digits 0 (pad_N width n) = n.
Proof.
  unfold pad_N. rewrite N_of_digits_app, N_of_digits_zeros. apply str_N_value.
Qed.

(** X17: ["%.3f"], and any positive number [P] of decimals: the text of a
    finite value is a sign, an integer part, the point and exactly [P]
    digits, and the two digit strings read together are the value times
    [10^P] rounded to the nearest integer. *)
Theorem format_fixed_reads_back (P : nat) (neg : bool) (n : N) (d : positive) :
  (1 ≤ P)%nat →
  ∃ int frac : string,
    format_fixed P (FFin neg n d)
    = (if neg then "-" else "") +:+ int +:+ "." +:+ frac ∧
    String.length frac = P ∧
    all_chars is_digit int = true ∧ all_chars is_digit frac = true ∧
    (2 * N_of_digits 0 (int +:+ frac) * Npos d
     ≤ 2 * (n * 10 ^ N.of_nat P) + Npos d)%N ∧
    (2 * (n * 10 ^ N.of_nat P)
     ≤ 2 * N_of_digits 0 (int +:+ frac) * Npos d + Npos d)%N.
Proof.
  intros HP. unfold format_fixed.
  set (m := round_at n d (- Z.of_nat P)).
  set (scale := (10 ^ N.of_nat P)%N).
  assert (Hscale : (0 < scale)%N) by apply pow10_pos.
  assert (Hr : (m mod scale < scale)%N) by (apply N.mod_lt; lia).
  exists (str_N (m / scale)), (pad_N P (m mod scale)).
  split; [destruct P; [lia | reflexivity]|].
  assert (Hlen : String.length (pad_N P (m mod scale)) = P)
    by (apply pad_N_length; [exact HP | exact Hr]).
  split; [exact Hlen|].
  split; [apply str_N_digits|]. split; [apply pad_N_digits|].
  assert (Hm : N_of_digits 0 (str_N (m / scale) +:+ pad_N P (m mod scale))
               = m).
  { rewrite N_of_digits_app, N_of_digits_shift, Hlen, str_N_value,
      pad_N_value.
    fold scale. pose proof (N.div_mod m scale ltac:(lia)). lia. }
  rewrite Hm. unfold m, round_at.
  destruct (Z.leb_spec 0 (- Z.of_nat P)) as [Hle|_]; [lia|].
  replace (Z.to_N (- - Z.of_nat P)) with (N.of_nat P) by lia.
  apply round_half_even_nearest. lia.
Qed.

Lemma format_fixed_reads_back_witness :
  ∃ int frac : string,
    format_fixed 3 (FFin false 1 3) = "" +:+ int +:+ "." +:+ frac ∧
    String.length frac = 3%nat ∧
    all_chars is_digit int = true ∧ all_chars is_digit frac = true ∧
    (2 * N_of_digits 0 (int +:+ frac) * 3 ≤ 2 * (1 * 10 ^ N.of_nat 3) + 3)%N ∧
    (2 * (1 * 10 ^ N.of_nat 3) ≤ 2 * N_of_digits 0 (int +:+ frac) * 3 + 3)%N.
Proof.
  apply (format_fixed_reads_back 3 false 1 3). lia.
Defined.

(** ** Plots when no computer appends *)

Section PlotsOfAllSamples.
Context {allele : Type} `{Countable allele} `{!AlleleOps allele}.
Context {vcftype : Type}.
Context (utils : Utils allele) (env : Env allele vcftype).
Context (args : Args) (vt : vcftype) (sample_prefixes : list string).
Context (pf : fmt).

Implicit Types st : St allele.

Lemma plot_of_no_group (trrecord : TRRecord allele) (outprefix : string)
    (sampleprefixes : list string) (p : Plot allele) :
  PlotAlleleFreqs trrecord outprefix [] sampleprefixes = Ok p →
  all_samples_plot outprefix trrecord p.
Proof.
  unfold PlotAlleleFreqs. destruct (decide ([] = [])); [|congruence].
  destruct (decide _); [discriminate|]. cbn. intros [= <-].
  repeat split.
Qed.

(** Once a plot is not due, none is made in the rest of the loop. *)
Lemma loop_plots_over (records : list VcfRecord) st :
  args_plot_afreq args && (num_plotted st <=? MAXPLOTS) = false →
  wp (for_each records
        (process_record utils env args vt sample_prefixes pf))
     (λ _ st', plotted st' = plotted st ∧ num_plotted st' = num_plotted st)
     (λ _ st', plotted st' = plotted st ∧ num_plotted st' = num_plotted st)
     st.
Proof.
  revert st. induction records as [|record records IH]; intros st Hdue.
  - apply wp_ret. auto.
  - cbn [for_each]. apply wp_bind.
    eapply wp_mono; [apply process_record_exact | |]; cbn beta.
    + intros _ st1 (tr & fields & _ & _ & _ & _ & _ & Heff).
      unfold plot_effect in Heff. rewrite Hdue in Heff.
      destruct Heff as [Hpl Hnp].
      eapply wp_mono; [apply IH; rewrite Hnp; exact Hdue | |]; cbn beta;
        intros _ st2 [Hpl2 Hnp2]; split; congruence.
    + intros e st1 (_ & [(_ & _ & Hpl & Hnp)
                        | [(tr & _ & _ & _ & _ & Hpl & Hnp)
                          | (tr & _ & Heff & _)]]); [auto | auto |].
      unfold plot_effect in Heff. rewrite Hdue in Heff. exact Heff.
Qed.

(** The plots of a loop started without groups, when no computer appends:
    they are those of the first records, each for the group of all
    samples. *)
Lemma loop_without_append (records : list VcfRecord) st :
  some_appends args stat_order = false →
  sample_lists st = [] →
  wp (for_each records
        (process_record utils env args vt sample_prefixes pf))
     (λ _ st',
        sample_lists st' = [] ∧
        ∃ ps, plotted st' = plotted st ++ ps ∧
              Forall2 (λ record p,
                         ∃ tr, HarmonizeRecord env vt record = Ok tr ∧
                               all_samples_plot (args_out args) tr p)
                      (take (length ps) records) ps)
     (λ _ st',
        ∃ ps, plotted st' = plotted st ++ ps ∧
              Forall2 (λ record p,
                         ∃ tr, HarmonizeRecord env vt record = Ok tr ∧
                               all_samples_plot (args_out args) tr p)
                      (take (length ps) records) ps)
     st.
Proof.
  intros Happ. revert st.
  induction records as [|record records IH]; intros st Hsl.
  - apply wp_ret. split; [exact Hsl|]. exists []. rewrite app_nil_r.
    split; [reflexivity | constructor].
  - cbn [for_each]. apply wp_bind.
    eapply wp_mono; [apply process_record_exact | |]; cbn beta.
    + intros _ st1 (tr & fields & Hrec & _ & _ & Hsl1 & _ & Heff).
      assert (Hsl1' : sample_lists st1 = []).
      { rewrite Hsl1. unfold groups_after. rewrite Happ. exact Hsl. }
      pose proof (IH st1 Hsl1') as Hrest.
      unfold plot_effect in Heff.
      destruct (args_plot_afreq args && (num_plotted st <=? MAXPLOTS))
        eqn:Hdue.
      * destruct Heff as (p & Hp & Hpl & _). rewrite Hsl in Hp.
        apply plot_of_no_group in Hp.
        eapply wp_mono; [exact Hrest | |]; cbn beta.
        -- intros _ st2 (Hsl2 & ps & Hpl2 & Hps). split; [exact Hsl2|].
           exists (p :: ps). split.
           { rewrite Hpl2, Hpl, <- app_assoc. reflexivity. }
           cbn [length take]. constructor; [eauto | exact Hps].
        -- intros _ st2 (ps & Hpl2 & Hps). exists (p :: ps). split.
           { rewrite Hpl2, Hpl, <- app_assoc. reflexivity. }
           cbn [length take]. constructor; [eauto | exact Hps].
      * destruct Heff as [Hpl Hnp].
        assert (Hdue1 : args_plot_afreq args
                        && (num_plotted st1 <=? MAXPLOTS) = false)
          by (rewrite Hnp; exact Hdue).
        pose proof (loop_plots_over records st1 Hdue1) as Hover.
        unfold wp in Hrest, Hover |- *.
        destruct (for_each records _ st1) as [[[]|e] st2].
        -- destruct Hrest as [Hsl2 _]. destruct Hover as [Hpl2 _].
           split; [exact Hsl2|]. exists []. rewrite app_nil_r.
           split; [congruence | constructor].
        -- destruct Hover as [Hpl2 _]. exists []. rewrite app_nil_r.
           split; [congruence | constructor].
    + intros e st1 (_ & [(_ & _ & Hpl & _)
                        | [(tr & _ & _ & _ & _ & Hpl & _)
                          | (tr & Hrec & Heff & _)]]).
      * exists []. rewrite app_nil_r. split; [exact Hpl | constructor].
      * exists []. rewrite app_nil_r. split; [exact Hpl | constructor].
      * unfold plot_effect in Heff.
        destruct (args_plot_afreq args && (num_plotted st <=? MAXPLOTS)).
        -- destruct Heff as (p & Hp & Hpl & _). rewrite Hsl in Hp.
           apply plot_of_no_group in Hp. exists [p].
           split; [exact Hpl|]. cbn [length take].
           constructor; [eauto | constructor].
        -- destruct Heff as [Hpl _]. exists []. rewrite app_nil_r.
           split; [exact Hpl | constructor].
Qed.

End PlotsOfAllSamples.

Section PlotsOfAllSamplesRun.
Context {allele : Type} `{Countable allele} `{!AlleleOps allele}.
Context {vcftype : Type}.
Context (utils : Utils allele) (env : Env allele vcftype).

(** X18: without [--samples] and with no statistic other than the
    threshold, the group list stays empty through the run, and the plots
    made, in a run that returns or raises, are those of the first records
    of the region, in order: the plot of a record is saved under the name
    of its locus and shows the frequencies of its alleles, by length, over
    all its samples, as the single group labelled sample. *)
Theorem plots_of_all_samples (args : Args) (tgt : target) (st : St allele)
    (invcf : Reader) (vt : vcftype) (region : list VcfRecord) :
  truthy (args_samples args) = false →
  some_appends args stat_order = false →
  outf (main utils env args) = Some (tgt, st) →
  LoadSingleReader env (args_vcf args)
                   (bool_decide (is_Some (args_region args)))
  = Ok (Some invcf) →
  main_vcftype env args invcf = Ok vt →
  main_region args invcf = Ok region →
  Forall2 (λ record p,
             ∃ tr, HarmonizeRecord env vt record = Ok tr ∧
                   all_samples_plot (args_out args) tr p)
          (take (length (plotted st)) region) (plotted st) ∧
  (retval (main utils env args) = Ok 0 → sample_lists st = []).
Proof.
  intros Hsamples Happ Hout Hreader Hvt Hregion.
  destruct (main_opened utils env args tgt st Hout)
    as (groups & sample_prefixes & invcf' & vt' & Hload & Hreader' & Hvt'
        & Hmain).
  rewrite Hreader in Hreader'. injection Hreader' as <-.
  rewrite Hvt in Hvt'. injection Hvt' as <-.
  unfold load_samples in Hload. rewrite Hsamples in Hload.
  injection Hload as <- <-.
  destruct (for_each region
              (process_record utils env args vt []
                              (main_precision_format args))
              (initial_state args [] [])) as [r st'] eqn:Hloop.
  rewrite Hmain in Hout |- *.
  rewrite (main_try_loop utils env args invcf vt [] [] tgt _ r st'
             Hregion Hloop) in Hout |- *.
  cbn in Hout |- *. injection Hout as <-.
  pose proof (loop_without_append utils env args vt []
                (main_precision_format args) region
                (initial_state args [] []) Happ eq_refl) as Hplots.
  unfold wp in Hplots. rewrite Hloop in Hplots.
  destruct r as [[]|e].
  - destruct Hplots as (Hsl & ps & Hpl & Hps). cbn in Hpl. subst ps.
    split; [exact Hps | intros _; exact Hsl].
  - destruct Hplots as (ps & Hpl & Hps). cbn in Hpl. subst ps.
    split; [exact Hps | discriminate].
Qed.

End PlotsOfAllSamplesRun.

Lemma plots_of_all_samples_witness :
  ∃ tgt st,
    outf (main demo_utils (demo_env (loci 3)) thresh_plot_args)
    = Some (tgt, st) ∧
    length (plotted st) = 3%nat ∧
    Forall2 (λ record p,
               ∃ tr, HarmonizeRecord (demo_env (loci 3)) tt record = Ok tr ∧
                     all_samples_plot (args_out thresh_plot_args) tr p)
            (take (length (plotted st)) (loci 3)) (plotted st) ∧
    (retval (main demo_utils (demo_env (loci 3)) thresh_plot_args) = Ok 0 →
     sample_lists st = []).
Proof.
  destruct (outf (main demo_utils (demo_env (loci 3)) thresh_plot_args))
    as [[tgt st]|] eqn:Hout; [|vm_compute in Hout; discriminate Hout].
  exists tgt, st. split; [reflexivity|].
  split; [vm_compute in Hout; injection Hout as _ <-; reflexivity|].
  apply (plots_of_all_samples demo_utils (demo_env (loci 3))
           thresh_plot_args tgt st
           {| reader_records := loci 3; reader_fetch := λ _, Ok (loci 3) |}
           tt (loci 3));
    [reflexivity | reflexivity | exact Hout | reflexivity | reflexivity
    | reflexivity].
Defined.

(** ** The runs that return 1 *)

Section ReturnOne.
Context {allele : Type} `{Countable allele} `{!AlleleOps allele}.
Context {vcftype : Type}.
Context (utils : Utils allele) (env : Env allele vcftype).

Lemma main_try_not_1 (args : Args) (invcf : Reader) (vt : vcftype)
    (groups : list samplelist) (sample_prefixes : list string)
    (tgt : target) :
  retval (main_try utils env args invcf vt groups sample_prefixes tgt) ≠ Ok 1.
Proof.
  unfold main_try.
  destruct (if truthy (args_region args) then _ else _) as [region|e];
    [|discriminate].
  destruct (for_each region _ _) as [[[]|e] st]; discriminate.
Qed.

(** X19: [main] returns 1 in exactly five cases: the VCF does not exist,
    the directory of the output does not exist, the output is a directory,
    the labels and the sample files differ in number, or the reader could
    not be loaded. Every other failure is an exception. *)
Theorem main_returns_1_iff (args : Args) :
  retval (main utils env args) = Ok 1 ↔
  os_path_exists env (args_vcf args) = false ∨
  out_dir_exists env (args_out args) = false ∨
  os_path_isdir env (args_out args) && endswith (args_out args) "/" = true ∨
  load_samples env args = Mismatch ∨
  ((∃ groups sample_prefixes,
      load_samples env args = Loaded groups sample_prefixes) ∧
   LoadSingleReader env (args_vcf args)
                    (bool_decide (is_Some (args_region args))) = Ok None).
Proof.
  unfold main.
  destruct (os_path_exists env (args_vcf args)); cbn [negb];
    [|split; [auto | reflexivity]].
  destruct (out_dir_exists env (args_out args)); cbn [negb];
    [|split; [auto | reflexivity]].
  destruct (os_path_isdir env (args_out args) && endswith (args_out args) "/");
    [split; [auto | reflexivity]|].
  destruct (load_samples env args) as [groups sample_prefixes| |e].
  - cbn zeta.
    destruct (LoadSingleReader env (args_vcf args) _) as [[invcf|]|e].
    + split; [|intros [Hf|[Hf|[Hf|[Hf|[_ Hf]]]]]; discriminate Hf].
      intros Hret. exfalso. revert Hret.
      destruct (if negb (String.eqb (args_vcftype args) "auto") then _ else _)
        as [vt|e]; [|discriminate].
      destruct (String.eqb (args_out args) "stdout").
      * destruct (args_plot_afreq args);
          [discriminate | apply main_try_not_1].
      * destruct (open_w env _) as [[]|e];
          [apply main_try_not_1 | discriminate].
    + split; [|reflexivity]. intros _. do 4 right. split; [eauto | reflexivity].
    + split; [discriminate|].
      intros [Hf|[Hf|[Hf|[Hf|[_ Hf]]]]]; discriminate Hf.
  - split; [auto | reflexivity].
  - split; [discriminate|].
    intros [Hf|[Hf|[Hf|[Hf|[(g & p & Hf) _]]]]]; discriminate Hf.
Qed.

End ReturnOne.

(** ** The table, column by column *)

Section TableLemmas.
Context {allele : Type} `{Countable allele} `{!AlleleOps allele}.
Context (utils : Utils allele).







End TableLemmas.

Section TableRowsLemmas.
Context {allele : Type} `{Countable allele} `{!AlleleOps allele}.
Context {vcftype : Type}.
Context (utils : Utils allele) (env : Env allele vcftype).
Context (args : Args) (vt : vcftype).

Implicit Types st : St allele.






End TableRowsLemmas.

Section Aligned.
Context {allele : Type} `{Countable allele} `{!AlleleOps allele}.
Context {vcftype : Type}.
Context (utils : Utils allele) (env : Env allele vcftype).



End Aligned.


